(** * AdGuardDNSClient: upstream pool, routing table, bootstrap chain, bind retry

    A shallow embedding of
      - [internal/dnssvc/upstream.go]  ([newUpstreams], [newUpstreamOrCached],
        [addGroup]),
      - [internal/dnssvc/bootstrap.go] ([newResolvers]),
      - the [bindRetryConfig] part of package [cmd],
    and the properties of these functions.

    Go maps are finite maps ([gmap]), Go slices are lists, Go strings are byte
    strings ([string], one [ascii] per byte), a Go [error] that may be [nil] is
    an [option error], and a constructor that hands out a new object returns
    the next free index of an explicit store. *)

From Stdlib Require Import ZArith NArith Ascii.
From stdpp Require Import gmap strings list fin_maps.

Set Warnings "-register-all".

(* ===================================================================== *)
(** * The packages the code imports                                       *)
(* ===================================================================== *)

(** ** [net/netip] *)
Module netip.

(** [netip.Addr] as the key of the routing table sees it: the zero [Addr],
    an IPv4 or an IPv6 address. *)
Inductive Addr : Type :=
| AddrZero
| AddrV4 (ip : N)
| AddrV6 (ip : N).

(** [netip.Prefix] is the struct [{ip Addr; bitsPlusOne uint8}]; Go compares
    map keys field by field. *)
Record Prefix : Type := mkPrefix { ip : Addr; bitsPlusOne : N }.

(** [netip.Prefix{}], the zero value. *)
Definition zeroPrefix : Prefix := mkPrefix AddrZero 0.

(** [netip.AddrPort] is the struct [{ip Addr; port uint16}]. *)
Record AddrPort : Type := mkAddrPort { ap_ip : Addr; ap_port : N }.

#[global] Instance Addr_eq_dec : EqDecision Addr.
Proof. solve_decision. Defined.

#[global] Instance Prefix_eq_dec : EqDecision Prefix.
Proof. solve_decision. Defined.

Definition Addr_to_sum (a : Addr) : unit + (N + N) :=
  match a with
  | AddrZero => inl tt
  | AddrV4 n => inr (inl n)
  | AddrV6 n => inr (inr n)
  end.

Definition Addr_of_sum (s : unit + (N + N)) : Addr :=
  match s with
  | inl _ => AddrZero
  | inr (inl n) => AddrV4 n
  | inr (inr n) => AddrV6 n
  end.

#[global] Instance Addr_countable : Countable Addr.
Proof. by apply (inj_countable' Addr_to_sum Addr_of_sum); intros []. Defined.

#[global] Instance Prefix_countable : Countable Prefix.
Proof.
  by apply (inj_countable' (λ p, (ip p, bitsPlusOne p))
                           (λ q, mkPrefix q.1 q.2)); intros [].
Defined.

End netip.

(** ** [log/slog] *)
Module slog.

(** A [*slog.Logger] is known here only by the attributes attached to it. *)
Record Logger : Type := mkLogger { attrs : list (string * string) }.

(** [l.With(k1, v1, k2, v2, ...)]: a logger with the attributes added. *)
Definition With (l : Logger) (kvs : list (string * string)) : Logger :=
  mkLogger (attrs l ++ kvs).

End slog.

(** ** Go errors: [fmt.Errorf] with [%w], [errors.Join], [errors.Annotate] *)

(** The error values that the embedded code can build.  [ErrExternal] is an
    error handed back by a library constructor; the other constructors are the
    wrappers of the embedded code. *)
Inductive error : Type :=
| ErrExternal (msg : string)
| ErrGroup (name : string) (e : error)
    (* fmt.Errorf("group %q: %w", name, e) *)
| ErrIndex (i : nat) (e : error)
    (* fmt.Errorf("resolvers: at index %d: %w", i, e) *)
| ErrAnnotate (msg : string) (e : error)
    (* errors.Annotate(e, msg) with e non-nil *)
| ErrJoin (es : list error).
    (* errors.Join(es...) with es non-empty *)

Module errors.

(** [errors.Join(errs...)]: [nil] when there is no error to join. *)
Definition Join (errs : list error) : option error :=
  match errs with
  | [] => None
  | _ :: _ => Some (ErrJoin errs)
  end.

(** [errors.Annotate(err, msg)]: [nil] stays [nil]. *)
Definition Annotate (err : option error) (msg : string) : option error :=
  match err with
  | None => None
  | Some e => Some (ErrAnnotate msg e)
  end.

End errors.

(** ** Bytes of a Go string *)

Definition byte_lt (c : ascii) (n : N) : bool := (N_of_ascii c <? n)%N.

(** ['A' <= c && c <= 'Z'] *)
Definition isUpperByte (c : ascii) : bool :=
  ((65 <=? N_of_ascii c) && (N_of_ascii c <=? 90))%N.

(** [c += 'a' - 'A'] for an upper-case byte; other bytes stay. *)
Definition lowerByte (c : ascii) : ascii :=
  if isUpperByte c then ascii_of_N (N_of_ascii c + 32) else c.

(** [c < utf8.RuneSelf] for every byte of [s]. *)
Fixpoint isASCII (s : string) : bool :=
  match s with
  | EmptyString => true
  | String c s' => byte_lt c 128 && isASCII s'
  end.

Fixpoint mapBytes (f : ascii → ascii) (s : string) : string :=
  match s with
  | EmptyString => EmptyString
  | String c s' => String (f c) (mapBytes f s')
  end.

(** No byte of [s] is an ASCII upper-case letter. *)
Fixpoint noUpper (s : string) : bool :=
  match s with
  | EmptyString => true
  | String c s' => negb (isUpperByte c) && noUpper s'
  end.


Definition dot : ascii := "."%char.
Definition backslash : ascii := "\"%char.

(** The bytes of [s] from the last one backwards. *)
Definition revBytes (s : string) : list ascii :=
  rev (String.list_ascii_of_string s).

(** The number of backslashes at the head of [l]. *)
Fixpoint leadingBackslashes (l : list ascii) : nat :=
  match l with
  | c :: l' => if decide (c = backslash) then S (leadingBackslashes l') else 0
  | [] => 0
  end.

(** [l] without the backslashes at its head. *)
Fixpoint dropBackslashes (l : list ascii) : list ascii :=
  match l with
  | c :: l' => if decide (c = backslash) then dropBackslashes l' else l
  | [] => []
  end.


(** ** [github.com/AdguardTeam/dnsproxy/upstream] *)
Module upstream.

(** An [upstream.Upstream] value is a reference to an upstream object: its
    index in the store of constructed upstreams.  Two handles are the same
    object exactly when the indices are equal. *)
Definition Upstream : Type := nat.

(** [*upstream.UpstreamResolver], the struct [{Upstream}]. *)
Record UpstreamResolver : Type := mkUpstreamResolver { Upstream_of : Upstream }.

(** The values of the interface [upstream.Resolver] that occur here. *)
Inductive Resolver : Type :=
| NilResolver
| CachingResolver (b : UpstreamResolver)
    (* upstream.NewCachingResolver(b) *)
| ConsequentResolver (rs : list Resolver).
    (* upstream.ConsequentResolver, a slice of resolvers *)

(** [upstream.Options], the fields that the code sets. *)
Record Options : Type := mkOptions {
  Logger : slog.Logger;
  Timeout : Z;
  Bootstrap : Resolver;
}.

(** An upstream object remembers what it was constructed from. *)
Record Object : Type := mkObject { obj_addr : string; obj_opts : Options }.

(** The state of the library: the store of constructed upstreams (a handle
    is an index into it) and the log of the constructor calls made so far,
    failed ones included. *)
Record World : Type := mkWorld {
  constructed : list Object;
  calls : list (string * Options);
}.

Definition emptyWorld : World := mkWorld [] [].

End upstream.

(** ** [github.com/AdguardTeam/dnsproxy/proxy] *)
Module proxy.

(** [proxy.UpstreamConfig], the fields that the code writes.  A Go map field
    is [nil] ([None]) until a map is allocated for it. *)
Record UpstreamConfig : Type := mkUpstreamConfig {
  Upstreams : list upstream.Upstream;
  DomainReservedUpstreams : option (gmap string (list upstream.Upstream));
  SpecifiedDomainUpstreams : option (gmap string (list upstream.Upstream));
}.

(** [&proxy.UpstreamConfig{}] *)
Definition empty : UpstreamConfig := mkUpstreamConfig [] None None.

(** [m[k]] on a Go map that may be [nil]; a missing key reads as the [nil]
    slice. *)
Definition read (m : option (gmap string (list upstream.Upstream)))
    (k : string) : list upstream.Upstream :=
  match m with
  | None => []
  | Some m' => default [] (m' !! k)
  end.

End proxy.

(** ** [internal/agdc] and [internal/agdcslog] *)
Module agdc.

(** Modelled from the spec: the constants [UpstreamGroupNameDefault] and
    [UpstreamGroupNamePrivate] of package [internal/agdc] are not among the
    sources; the spec names the two reserved group names [default] and
    [private] (and so does [config.dist.yaml]). *)
Definition UpstreamGroupNameDefault : string := "default".
Definition UpstreamGroupNamePrivate : string := "private".

End agdc.

Module agdcslog.

(** Modelled from the spec: the attribute keys and values of package
    [internal/agdcslog] are not among the sources; they only label the
    logger and no property depends on their spelling. *)
Definition KeyUpstreamType : string := "upstream_type".
Definition KeyUpstreamGroup : string := "upstream_group".
Definition UpstreamTypeMain : string := "main".
Definition UpstreamTypeBootstrap : string := "bootstrap".

End agdcslog.

(* ===================================================================== *)
(** * Package [dnssvc]: the data                                           *)
(* ===================================================================== *)

(** [MatchCriteria] *)
Record MatchCriteria : Type := mkMatchCriteria {
  Client : netip.Prefix;
  QuestionDomain : string;
}.

(** [UpstreamGroupConfig] *)
Record UpstreamGroupConfig : Type := mkUpstreamGroupConfig {
  Name : string;
  Address : string;
  Match : list MatchCriteria;
}.

(** [UpstreamConfig] *)
Record UpstreamConfig : Type := mkUpstreamConfig {
  Groups : list UpstreamGroupConfig;
  Timeout : Z;
}.

(** [upstreamConfigs], a [map[netip.Prefix]*proxy.UpstreamConfig].  Every
    pointer stored in the map is created by [&proxy.UpstreamConfig{}] for one
    key and is stored under that key only, so no two keys share an object and
    the map is modelled by value: writing through [configs[k]] is an update
    of the value at [k]. *)
Abbreviation upstreamConfigs := (gmap netip.Prefix proxy.UpstreamConfig).

Module bootstrap.

(** [BootstrapConfig] *)
Record BootstrapConfig : Type := mkBootstrapConfig {
  Addresses : list netip.AddrPort;
  Timeout : Z;
}.

End bootstrap.

(** [dnssvc.BindRetryConfig], as [toInternal] of package [cmd] fills it. *)
Module dnssvc.

Record BindRetryConfig : Type := mkBindRetryConfig {
  Enabled : bool;
  Interval : Z;
  Count : nat;
}.

End dnssvc.

(** ** Package [cmd]: [bindRetryConfig] *)
Module cmd.

(** [bindRetryConfig]; [Interval] is a [timeutil.Duration] (an [int64] of
    nanoseconds), [Count] is a [uint]. *)
Record bindRetryConfig : Type := mkbindRetryConfig {
  Enabled : bool;
  Interval : Z;
  Count : nat;
}.

(** [bindRetryConfig.toInternal]; [time.Duration(c.Interval)] converts
    between two names of [int64]. *)
Definition toInternal (c : bindRetryConfig) : dnssvc.BindRetryConfig :=
  {| dnssvc.Enabled := Enabled c;
     dnssvc.Interval := Interval c;
     dnssvc.Count := Count c |}.

End cmd.

(* ===================================================================== *)
(** * The bind retry executor                                              *)
(* ===================================================================== *)

(** What the executor does that can be observed: it calls [bind] and it
    sleeps. *)
Inductive Event : Type :=
| Bind (n : nat)      (* the call number [n] of [bind], counted from 0 *)
| Sleep (d : Z).      (* [time.Sleep(d)] *)

(** Modelled from the spec: the function of package [dnssvc] that retries to
    bind is not among the sources (only [bindRetryConfig] and [toInternal]
    of package [cmd] are).  The spec, section 4.4: if retry is disabled,
    perform a single bind attempt and return its result unchanged; if enabled,
    attempt bind; on failure, sleep [interval], retry, up to [count]
    additional attempts; return the last encountered error if all attempts
    fail, success immediately on the first attempt that succeeds.

    [bind n] is the result of the call number [n] of the bind function;
    [retryLoop] is entered after the call number [n] failed with [lastErr],
    with [left] additional attempts left. *)
Fixpoint retryLoop (bind : nat → option error) (interval : Z)
    (left n : nat) (lastErr : error) : option error * list Event :=
  match left with
  | 0 => (Some lastErr, [])
  | S left' =>
      match bind (S n) with
      | None => (None, [Sleep interval; Bind (S n)])
      | Some e =>
          let '(r, t) := retryLoop bind interval left' (S n) e in
          (r, Sleep interval :: Bind (S n) :: t)
      end
  end.

(** Modelled from the spec: [bindWithRetry(bind, enabled, interval, count)]
    of section 4.4, see [retryLoop]. *)
Definition bindWithRetry (bind : nat → option error)
    (conf : dnssvc.BindRetryConfig) : option error * list Event :=
  match bind 0 with
  | None => (None, [Bind 0])
  | Some e =>
      if dnssvc.Enabled conf then
        let '(r, t) :=
          retryLoop bind (dnssvc.Interval conf) (dnssvc.Count conf) 0 e in
        (r, Bind 0 :: t)
      else (Some e, [Bind 0])
  end.

(** The attempts number [0] to [k], with a sleep of [interval] before each
    one but the first. *)
Definition attemptsUpTo (interval : Z) (k : nat) : list Event :=
  Bind 0 :: flat_map (λ i, [Sleep interval; Bind i]) (seq 1 k).

(** The number of calls of [bind] in a trace. *)
Fixpoint bindCount (t : list Event) : nat :=
  match t with
  | [] => 0
  | Bind _ :: t' => S (bindCount t')
  | Sleep _ :: t' => bindCount t'
  end.

(* ===================================================================== *)
(** * Package [cmd]: validation, service control, default configuration,
      logging                                                              *)
(* ===================================================================== *)

From Stdlib Require Import Sorted.

(** ** Errors and messages of package [cmd] *)

(** An argument of a format string that is not an error. *)
Inductive fmtArg : Type :=
| ArgString (s : string)
| ArgNat (n : nat)
| ArgInt (z : Z)
| ArgAddr (a : netip.Addr).

(** The error values that the code of package [cmd] handles.  [Errorf] is a
    call of [fmt.Errorf] of the package itself, with its format, its
    arguments that are not errors and the error it wraps, if any; the
    constructors below [Annotated] are the errors of library calls, known by
    what they wrap. *)
Inductive goError : Type :=
| ErrNoValue                       (* errors.ErrNoValue *)
| ErrNotPositive                   (* errors.ErrNotPositive *)
| ErrBadEnumValue                  (* errors.ErrBadEnumValue *)
| ErrUnsupported                   (* errors.ErrUnsupported *)
| errUnknownAction                 (* errUnknownAction of package cmd *)
| Foreign (msg : string)           (* an error of a library or of the system *)
| Errorf (format : string) (args : list fmtArg) (wrapped : option goError)
| Annotated (format : string) (args : list fmtArg) (e : goError)
    (* errors.Annotate(e, format, args...) with e non-nil *)
| Joined (es : list goError)
    (* errors.Join(es...) with es non-empty *)
| NotPositive (name : string) (v : Z)
    (* validate.Positive(name, v) for v <= 0; it wraps ErrNotPositive *)
| Named (name : string) (e : goError)
    (* the error that validate.Append adds for the value name *)
| AtIndex (name : string) (i : nat) (e : goError)
    (* the error that validate.AppendSlice adds for the index i of name *)
| BadFormat (s : string)
    (* slogutil.NewFormat(s) for an unknown s; it wraps ErrBadEnumValue *)
| DeferredError (e : goError)
    (* errors.WithDeferred(nil, e) *)
| ErrorPair (returned deferred : goError).
    (* errors.WithDeferred(returned, deferred), both non-nil *)

(** A line written to a standard stream: the format and its arguments. *)
Inductive msgArg : Type :=
| MsgString (s : string)
| MsgAddr (a : netip.Addr)
| MsgError (e : goError).

Record line : Type := Line { line_format : string; line_args : list msgArg }.

(** A call that returns or panics. *)
Inductive outcome (A : Type) : Type :=
| Returned (a : A)
| Panicked (e : goError).
Arguments Returned {A} a.
Arguments Panicked {A} e.

(** [github.com/AdguardTeam/golibs/errors] on [goError] *)
Module goerrors.

Definition Join (errs : list goError) : option goError :=
  match errs with
  | [] => None
  | _ :: _ => Some (Joined errs)
  end.

Definition Annotate (err : option goError) (format : string)
    (args : list fmtArg) : option goError :=
  match err with
  | None => None
  | Some e => Some (Annotated format args e)
  end.

(** [errors.WithDeferred(returned, deferred)] *)
Definition WithDeferred (returned deferred : option goError)
    : option goError :=
  match deferred with
  | None => returned
  | Some d =>
      match returned with
      | None => Some (DeferredError d)
      | Some r => Some (ErrorPair r (DeferredError d))
      end
  end.

End goerrors.

(** [github.com/AdguardTeam/golibs/validate] *)
Module validate.

(** [validate.Positive(name, v)] *)
Definition Positive (name : string) (v : Z) : option goError :=
  if (0 <? v)%Z then None else Some (NotPositive name v).

(** [validate.Append(errs, name, v)], given the result of [v.Validate()]. *)
Definition Append (errs : list goError) (name : string)
    (validated : option goError) : list goError :=
  match validated with
  | None => errs
  | Some e => errs ++ [Named name e]
  end.

(** The loop of [validate.AppendSlice], from the index [i] on. *)
Fixpoint AppendSlice_from {T : Type} (Validate : T → option goError)
    (errs : list goError) (name : string) (i : nat) (values : list T)
    : list goError :=
  match values with
  | [] => errs
  | v :: values' =>
      AppendSlice_from Validate
        (match Validate v with
         | None => errs
         | Some e => errs ++ [AtIndex name i e]
         end) name (S i) values'
  end.

(** [validate.AppendSlice(errs, name, values)] *)
Definition AppendSlice {T : Type} (Validate : T → option goError)
    (errs : list goError) (name : string) (values : list T)
    : list goError :=
  AppendSlice_from Validate errs name 0 values.

End validate.

(** [github.com/AdguardTeam/golibs/logutil/slogutil] and [log/slog] *)
Module slogutil.

(** [slogutil.Format] is a string type. *)
Definition Format : Type := string.

Definition FormatAdGuardLegacy : Format := "adguard_legacy".
Definition FormatDefault : Format := "default".
Definition FormatJSON : Format := "json".
Definition FormatJSONHybrid : Format := "jsonhybrid".
Definition FormatText : Format := "text".

Definition formats : list Format :=
  [FormatAdGuardLegacy; FormatDefault; FormatJSON; FormatJSONHybrid;
   FormatText].

(** [slogutil.NewFormat(s)]: the error, if any. *)
Definition NewFormat (s : string) : option goError :=
  if decide (s ∈ formats) then None else Some (BadFormat s).

(** [slog.LevelDebug] and [slog.LevelInfo] *)
Definition LevelDebug : Z := -4.
Definition LevelInfo : Z := 0.

(** An [*os.File] that the loggers write to. *)
Inductive File : Type :=
| Stderr
| Stdout
| OpenedFile (path : string).

(** [slogutil.Config], the fields that the code sets; [Output] is a
    pointer. *)
Record Config : Type := mkConfig {
  Output : option File;
  Format_of : Format;
  AddTimestamp : bool;
  Level : Z;
}.

(** A [*slog.Logger] that is not [nil]: the one that [newSystemLogger]
    makes for a level, or the one that [slogutil.New] makes for a
    configuration. *)
Inductive Logger : Type :=
| SystemLogger (level : Z)
| ConfigLogger (c : Config).

(** The level that a logger was made with. *)
Definition levelOf (l : Logger) : Z :=
  match l with
  | SystemLogger level => level
  | ConfigLogger c => Level c
  end.

End slogutil.

(** [github.com/kardianos/service] *)
Module osservice.

(** [service.Status], a byte. *)
Definition Status : Type := N.
Definition StatusUnknown : Status := 0%N.
Definition StatusRunning : Status := 1%N.
Definition StatusStopped : Status := 2%N.

(** What the methods of a [service.Service] answer; [control] calls each
    of them at most once. *)
Record Service : Type := mkService {
  Logger : option goError;
  Install : option goError;
  Restart : option goError;
  Start : option goError;
  Status_of : Status * option goError;
  Stop : option goError;
  Uninstall : option goError;
}.

End osservice.

(** ** [serverConfig], [bindRetryConfig]: validation *)
Module cmd_server.

(** [ipPortConfig], as [filterInterfaceAddrs] fills it. *)
Record ipPortConfig : Type := mkipPortConfig { Address : netip.AddrPort }.

(** [serverConfig]; both fields hold pointers. *)
Record serverConfig : Type := mkserverConfig {
  BindRetry : option cmd.bindRetryConfig;
  ListenAddresses : list (option ipPortConfig);
}.

(** [Validate] of [*bindRetryConfig] *)
Definition bindRetryConfig_Validate (c : option cmd.bindRetryConfig)
    : option goError :=
  match c with
  | None => Some ErrNoValue
  | Some c =>
      if negb (cmd.Enabled c) then None
      else validate.Positive "interval" (cmd.Interval c)
  end.

(** [Validate] of [*serverConfig].  [Validate] of [*ipPortConfig] is not
    among the sources and is the parameter [ipPortConfig_Validate]. *)
Definition serverConfig_Validate
    (ipPortConfig_Validate : option ipPortConfig → option goError)
    (c : option serverConfig) : option goError :=
  match c with
  | None => Some ErrNoValue
  | Some c =>
      let errs :=
        validate.AppendSlice ipPortConfig_Validate [] "listen_addresses"
          (ListenAddresses c) in
      let errs :=
        validate.Append errs "bind_retry"
          (bindRetryConfig_Validate (BindRetry c)) in
      goerrors.Join errs
  end.

End cmd_server.

(** ** [serviceAction], [control], [shutdown] *)
Module cmd_service.

(** [serviceAction] is a string type. *)
Definition serviceAction : Type := string.

Definition serviceActionInstall : serviceAction := "install".
Definition serviceActionRestart : serviceAction := "restart".
Definition serviceActionStart : serviceAction := "start".
Definition serviceActionStatus : serviceAction := "status".
Definition serviceActionStop : serviceAction := "stop".
Definition serviceActionUninstall : serviceAction := "uninstall".

(** The values of the [case] of [Set]. *)
Definition serviceActions : list serviceAction :=
  [serviceActionInstall; serviceActionRestart; serviceActionStart;
   serviceActionStatus; serviceActionStop; serviceActionUninstall].

(** [Set] of [*serviceAction]: the value of the receiver afterwards, and
    the error. *)
Definition serviceAction_Set (a : serviceAction) (value : string)
    : serviceAction * option goError :=
  if decide (value ∈ serviceActions) then (value, None)
  else (a, Some errUnknownAction).

(** [String] of [serviceAction] *)
Definition serviceAction_String (a : serviceAction) : string := a.

(** What [control] does that can be observed. *)
Inductive event : Type :=
| CallLogger | CallInstall | CallRestart | CallStart | CallStatus
| CallStop | CallUninstall
| CallWriteDefaultConfig (confPath : string)
| PrintStdout (msg : string).

(** [controlInstall].  The [writeDefaultConfig] that it calls with the
    logger and the path is not among the sources in that form; its result
    is the parameter [written]. *)
Definition controlInstall (written : option goError)
    (svc : osservice.Service) (confPath : string)
    : option goError * list event :=
  match written with
  | Some e => (Some e, [CallWriteDefaultConfig confPath])
  | None =>
      (osservice.Install svc, [CallWriteDefaultConfig confPath; CallInstall])
  end.

(** [controlStatus] *)
Definition controlStatus (svc : osservice.Service)
    : option goError * list event :=
  match osservice.Status_of svc with
  | (_, Some e) => (Some (Errorf "retrieving status: %w" [] (Some e)),
                    [CallStatus])
  | (status, None) =>
      if decide (status = osservice.StatusRunning) then
        (None, [CallStatus; PrintStdout "running"])
      else if decide (status = osservice.StatusStopped) then
        (None, [CallStatus; PrintStdout "stopped"])
      else
        (Some (Errorf "unexpected status %d" [ArgNat (N.to_nat status)] None),
         [CallStatus])
  end.

(** [control]; the deferred [errors.Annotate] is applied to the error that
    is returned. *)
Definition control (written : option goError) (svc : osservice.Service)
    (confPath : string) (action : serviceAction)
    : outcome (option goError) * list event :=
  let annotate (r : option goError * list event) :=
    (Returned (goerrors.Annotate r.1 "performing %q: %w" [ArgString action]),
     CallLogger :: r.2) in
  match osservice.Logger svc with
  | Some e => annotate (Some (Errorf "getting logger: %w" [] (Some e)), [])
  | None =>
      if decide (action = serviceActionInstall) then
        annotate (controlInstall written svc confPath)
      else if decide (action = serviceActionRestart) then
        annotate (osservice.Restart svc, [CallRestart])
      else if decide (action = serviceActionStart) then
        annotate (osservice.Start svc, [CallStart])
      else if decide (action = serviceActionStatus) then
        annotate (controlStatus svc)
      else if decide (action = serviceActionStop) then
        annotate (osservice.Stop svc, [CallStop])
      else if decide (action = serviceActionUninstall) then
        annotate (osservice.Uninstall svc, [CallUninstall])
      else (Panicked errUnknownAction, [CallLogger])
  end.

(** The loop of [shutdown], from the index [i] on.  A service is [nil]
    ([None]) or answers [Shutdown] with an error or [nil]; [calls] are the
    indices of the services whose [Shutdown] was called. *)
Fixpoint shutdown_loop (i : nat) (svcs : list (option (option goError)))
    (errs : list goError) (calls : list nat) : list goError * list nat :=
  match svcs with
  | [] => (errs, calls)
  | None :: svcs' => shutdown_loop (S i) svcs' errs calls
  | Some r :: svcs' =>
      shutdown_loop (S i) svcs'
        (match r with
         | None => errs
         | Some e =>
             errs ++ [Errorf "service at index %d: %w" [ArgNat i] (Some e)]
         end)
        (calls ++ [i])
  end.

(** [shutdown]: the indices of the services that were shut down, and the
    error that is logged, if any. *)
Definition shutdown (svcs : list (option (option goError)))
    : list nat * option goError :=
  let '(errs, calls) := shutdown_loop 0 svcs [] [] in
  (calls, goerrors.Join errs).

End cmd_service.

(** ** The default configuration *)
Module cmd_default.


(** [netip.AddrPortFrom] *)
Definition AddrPortFrom (ip : netip.Addr) (port : N) : netip.AddrPort :=
  netip.mkAddrPort ip port.

(** The body of the loop of [filterInterfaceAddrs] for the text [addrStr]
    of an address: the configuration that is appended, if any, and the line
    written to the standard error.  [netip.ParsePrefix] is the parameter
    [ParsePrefix]; [set] answers [set.Contains]. *)
Definition filterStep (ParsePrefix : string → netip.Prefix + goError)
    (set : netip.Addr → bool) (p : N) (addrStr : string)
    : option (option cmd_server.ipPortConfig) * line :=
  match ParsePrefix addrStr with
  | inr err =>
      (None, Line "unexpected %q format: %s\n"
               [MsgString addrStr; MsgError err])
  | inl pref =>
      let addr := netip.ip pref in
      if set addr then
        (Some (Some (cmd_server.mkipPortConfig (AddrPortFrom addr p))),
         Line "adding %s to default listening addresses\n" [MsgAddr addr])
      else (None, Line "can not listen on %s\n" [MsgAddr addr])
  end.

(** [filterInterfaceAddrs]: the configurations and the lines written to the
    standard error.  A [net.Addr] is known by its [String()]. *)
Fixpoint filterInterfaceAddrs
    (ParsePrefix : string → netip.Prefix + goError)
    (addrs : list string) (set : netip.Addr → bool) (p : N)
    : list (option cmd_server.ipPortConfig) * list line :=
  match addrs with
  | [] => ([], [])
  | a :: addrs' =>
      let '(c, msg) := filterStep ParsePrefix set p a in
      let '(confs, msgs) := filterInterfaceAddrs ParsePrefix addrs' set p in
      (match c with Some c => c :: confs | None => confs end, msg :: msgs)
  end.

(** [isListenable]; [netip.Addr.IsPrivate] and [netip.Addr.IsLoopback] are
    parameters. *)
Definition isListenable (IsPrivate IsLoopback : netip.Addr → bool)
    (addr : netip.Addr) : bool :=
  IsPrivate addr || IsLoopback addr.



(** What [writeDefaultConfig] does that can be observed. *)
Inductive fileEvent (Conf : Type) : Type :=
| OpenExclusive (path : string)
| WriteStderr (l : line)
| BuildDefault
| Encode (conf : Conf)
| CloseFile.
Arguments OpenExclusive {Conf} path.
Arguments WriteStderr {Conf} l.
Arguments BuildDefault {Conf}.
Arguments Encode {Conf} conf.
Arguments CloseFile {Conf}.

(** The result of [os.OpenFile] with [O_CREATE|O_EXCL|O_WRONLY]: an error for
    which [errors.Is(err, os.ErrExist)] holds, another error, or the
    file. *)
Inductive openResult : Type :=
| OpenExists (e : goError)
| OpenFails (e : goError)
| Opened.

(** [writeDefaultConfig].  The parameters are the results of the calls it
    makes: [open] of [os.OpenFile], [defaultConfig] of [newDefaultConfig],
    [encode] of [yaml.NewEncoder(f).Encode] and [closed] of [f.Close].  The
    two deferred functions run in the reverse order of their [defer]. *)
Definition writeDefaultConfig {Conf : Type} (open : string → openResult)
    (defaultConfig : Conf + goError) (encode : Conf → option goError)
    (closed : option goError) (path : string)
    : option goError * list (fileEvent Conf) :=
  let annotate (err : option goError) :=
    goerrors.Annotate err "writing default configuration: %w" [] in
  match open path with
  | OpenExists _ =>
      (annotate None,
       [OpenExclusive path;
        WriteStderr (Line "using configuration file %q\n" [MsgString path])])
  | OpenFails e =>
      (annotate (Some (Errorf "creating configuration file: %w" [] (Some e))),
       [OpenExclusive path])
  | Opened =>
      let '(err, events) :=
        match defaultConfig with
        | inr e => (Some e, [BuildDefault])
        | inl conf =>
            (encode conf,
             [BuildDefault;
              WriteStderr (Line "writing default configuration\n" []);
              Encode conf])
        end in
      (annotate (goerrors.WithDeferred err closed),
       OpenExclusive path
         :: WriteStderr (Line "creating default configuration\n" [])
         :: events ++ [CloseFile])
  end.

End cmd_default.

(** ** Logging *)
Module cmd_log.

Definition outputSyslog : string := "syslog".
Definition outputStdout : string := "stdout".
Definition outputStderr : string := "stderr".

(** [logConfig] *)
Record logConfig : Type := mklogConfig {
  Output : string;
  Format : slogutil.Format;
  Timestamp : bool;
  Verbose : bool;
}.

(** [options], the field that the code reads. *)
Record options : Type := mkoptions { opt_verbose : bool }.

(** [logEnvs], the fields that the code reads. *)
Record logEnvs : Type := mklogEnvs {
  output : string;
  format : slogutil.Format;
  timestamp : bool;
  timestampSet : bool;
  verbose : bool;
  verboseSet : bool;
}.

(** [configuration], the field that the code reads; a pointer. *)
Record configuration : Type := mkconfiguration { Log : option logConfig }.

(** [cmp.Or] on strings: the first argument that is not empty. *)
Definition Or (a b : string) : string := if decide (a = "") then b else a.

(** [Validate] of [*logConfig]; [filepath.IsAbs] is the parameter
    [IsAbs]. *)
Definition logConfig_Validate (IsAbs : string → bool)
    (c : option logConfig) : option goError :=
  match c with
  | None => Some ErrNoValue
  | Some c =>
      let errs :=
        if decide (Output c = outputSyslog ∨ Output c = outputStdout
                   ∨ Output c = outputStderr) then []
        else if IsAbs (Output c) then []
        else [Errorf "output: %w: %q" [ArgString (Output c)]
                (Some ErrBadEnumValue)] in
      let errs :=
        match slogutil.NewFormat (Format c) with
        | Some err => errs ++ [err]
        | None => errs
        end in
      goerrors.Join errs
  end.

(** What the system answers: to [agdcslog.NewSystemLogger] and to
    [os.OpenFile] of a log file. *)
Record system : Type := mksystem {
  syslogError : option goError;
  openError : string → option goError;
}.

(** [newSystemLogger] *)
Definition newSystemLogger (os : system) (level : Z)
    : option slogutil.Logger * option goError :=
  match syslogError os with
  | Some err => (None, Some err)
  | None => (Some (slogutil.SystemLogger level), None)
  end.

(** [outputFromStr] *)
Definition outputFromStr (os : system) (s : string)
    : option slogutil.File * bool * option goError :=
  if decide (s = outputStderr) then (Some slogutil.Stderr, false, None)
  else if decide (s = outputStdout) then (Some slogutil.Stdout, false, None)
  else
    match openError os s with
    | Some err =>
        (Some slogutil.Stderr, false,
         Some (Errorf "opening config output: %w" [] (Some err)))
    | None => (Some (slogutil.OpenedFile s), true, None)
    end.

(** [newLogger] *)
Definition newLogger (os : system) (outputStr : string)
    (f : slogutil.Format) (addTimestamp : bool) (level : Z)
    : option slogutil.Logger * option slogutil.File * option goError :=
  let new (output : option slogutil.File) :=
    Some (slogutil.ConfigLogger
            (slogutil.mkConfig output f addTimestamp level)) in
  if decide (outputStr = outputSyslog) then
    match newSystemLogger os level with
    | (l, None) => (l, None, None)
    | (_, Some err) =>
        (new (Some slogutil.Stderr), None,
         Some (Errorf "opening syslog: %w" [] (Some err)))
    end
  else
    match outputFromStr os outputStr with
    | (output, _, Some err) =>
        (new output, None, Some (Errorf "opening log file: %w" [] (Some err)))
    | (output, needsClose, None) =>
        (new output, if needsClose then output else None, None)
    end.

(** The level that [newEnvLogger] chooses. *)
Definition envLevel (opts : options) (envs : logEnvs) : Z :=
  if opt_verbose opts || (verboseSet envs && verbose envs)
  then slogutil.LevelDebug else slogutil.LevelInfo.

(** [newEnvLogger] *)
Definition newEnvLogger (os : system) (opts : options) (envs : logEnvs)
    : option slogutil.Logger * option slogutil.File * option goError :=
  newLogger os (Or (output envs) outputSyslog)
    (Or (format envs) slogutil.FormatDefault)
    (timestampSet envs && timestamp envs) (envLevel opts envs).

(** [overridenLogConf] *)
Definition overridenLogConf (opts : options) (envs : logEnvs)
    (c : logConfig) : string * slogutil.Format * bool * Z :=
  (Or (output envs) (Output c),
   Or (format envs) (Format c),
   (if timestampSet envs then timestamp envs else Timestamp c),
   (if opt_verbose opts || (verboseSet envs && verbose envs) || Verbose c
    then slogutil.LevelDebug else slogutil.LevelInfo)).

(** [closeEnv]: whether the previous logger is to be used, the error of
    closing it, and whether [Close] was called.  [closer] answers
    [envLogger.Handler().(io.Closer)]: [None] when the handler is no
    closer, the result of [Close()] otherwise. *)
Definition closeEnv (closer : slogutil.Logger → option (option goError))
    (envLogger : slogutil.Logger) (opts : options) (envs : logEnvs)
    (c : logConfig) : bool * option goError * bool :=
  let verboseIsSame :=
    if opt_verbose opts || verboseSet envs then true
    else negb (Verbose c) in
  if bool_decide (Output c = outputSyslog) && verboseIsSame then
    (true, None, false)
  else
    match closer envLogger with
    | Some closeErr => (false, closeErr, true)
    | None => (false, None, false)
    end.

(** [newConfigLogger]: the logger, the log file, the errors, and whether
    the previous logger was closed.  The loggers are not [nil]; [conf.Log]
    that is [nil] is dereferenced, which panics. *)
Definition newConfigLogger (os : system)
    (closer : slogutil.Logger → option (option goError))
    (envLogger : slogutil.Logger) (envLogFile : option slogutil.File)
    (opts : options) (envs : logEnvs) (conf : option configuration)
    : outcome (option slogutil.Logger * option slogutil.File
               * list goError * bool) :=
  match conf with
  | None => Returned (Some envLogger, envLogFile, [], false)
  | Some conf =>
      match Log conf with
      | None => Panicked (Foreign "nil pointer dereference")
      | Some c =>
          let '(outputStr, format, addTimestamp, level) :=
            overridenLogConf opts envs c in
          let create (errs : list goError) (closed : bool) :=
            match newLogger os outputStr format addTimestamp level with
            | (l, logFile, Some err) =>
                Returned
                  (l, logFile,
                   errs ++ [Errorf "creating conf log: %w" [] (Some err)],
                   closed)
            | (l, logFile, None) => Returned (l, logFile, errs, closed)
            end in
          if decide (output envs = "") then
            match closeEnv closer envLogger opts envs c with
            | (true, _, closed) => Returned (Some envLogger, None, [], closed)
            | (false, Some err, closed) =>
                create [Errorf "closing env syslog: %w" [] (Some err)] closed
            | (false, None, closed) => create [] closed
            end
          else
            match envLogFile with
            | Some file =>
                Returned
                  (Some (slogutil.ConfigLogger
                           (slogutil.mkConfig (Some file) format
                              addTimestamp level)),
                   Some file, [], false)
            | None => create [] false
            end
      end
  end.

End cmd_log.


(* ===================================================================== *)
(** * Concrete inputs of package [cmd]                                     *)
(* ===================================================================== *)

(** A [Validate] of the listen addresses that refuses a [nil] address. *)
Definition sampleAddressValidate (a : option cmd_server.ipPortConfig)
    : option goError :=
  match a with
  | None => Some ErrNoValue
  | Some _ => None
  end.

(** The listen address [127.0.0.1:53]. *)
Definition sampleListen : option cmd_server.ipPortConfig :=
  Some (cmd_server.mkipPortConfig
          (netip.mkAddrPort (netip.AddrV4 2130706433) 53)).

(** [netip.ParsePrefix] on the texts used below: [192.168.1.5/24],
    [127.0.0.1/8] and [8.8.8.8/32] parse, everything else does not. *)
Definition sampleParsePrefix (s : string) : netip.Prefix + goError :=
  if decide (s = "192.168.1.5/24")
  then inl (netip.mkPrefix (netip.AddrV4 3232235781) 25)
  else if decide (s = "127.0.0.1/8")
  then inl (netip.mkPrefix (netip.AddrV4 2130706433) 9)
  else if decide (s = "8.8.8.8/32")
  then inl (netip.mkPrefix (netip.AddrV4 134744072) 33)
  else inr (Foreign "no '/'").

(** [IsPrivate] and [IsLoopback] on these addresses. *)
Definition sampleIsPrivate (a : netip.Addr) : bool :=
  bool_decide (a = netip.AddrV4 3232235781).
Definition sampleIsLoopback (a : netip.Addr) : bool :=
  bool_decide (a = netip.AddrV4 2130706433).

(** Interface addresses: a loopback one, one without a prefix length, a
    public one and a private one. *)
Definition sampleInterfaceAddrs : list string :=
  ["127.0.0.1/8"; "fe80::1"; "8.8.8.8/32"; "192.168.1.5/24"].

(** A service that is running and whose operations succeed, and one whose
    logger cannot be had. *)
Definition sampleService : osservice.Service :=
  osservice.mkService None None None None (osservice.StatusRunning, None)
    None None.
Definition brokenService : osservice.Service :=
  osservice.mkService (Some (Foreign "no logger")) None None None
    (osservice.StatusRunning, None) None None.

(** Opening a configuration file: [existing.yaml] exists, nothing can be
    created under [/proc], every other file is created. *)
Definition sampleOpen (path : string) : cmd_default.openResult :=
  if decide (path = "existing.yaml")
  then cmd_default.OpenExists (Foreign "file exists")
  else if decide (path = "/proc/new.yaml")
  then cmd_default.OpenFails (Foreign "permission denied")
  else cmd_default.Opened.

(** [filepath.IsAbs] on a Unix system. *)
Definition sampleIsAbs (s : string) : bool :=
  match s with
  | String "/" _ => true
  | _ => false
  end.

(** A system with a system log where only [/var/log/dns.log] can be opened,
    and one without a system log where no file can be opened. *)
Definition sampleSystem : cmd_log.system :=
  cmd_log.mksystem None
    (λ path, if decide (path = "/var/log/dns.log") then None
             else Some (Foreign "permission denied")).
Definition noSyslog : cmd_log.system :=
  cmd_log.mksystem (Some (Foreign "no system log"))
    (λ _, Some (Foreign "permission denied")).

(** The handler of a system logger is a closer and closes without error;
    the handler of the other loggers is no closer. *)
Definition sampleCloser (l : slogutil.Logger) : option (option goError) :=
  match l with
  | slogutil.SystemLogger _ => Some None
  | slogutil.ConfigLogger _ => None
  end.
(* ===================================================================== *)
(** * Concrete inputs                                                      *)
(* ===================================================================== *)

(** A constructor that refuses the scheme [ftp] and accepts every other
    address. *)
Definition sampleAddressToUpstream (addr : string) (opts : upstream.Options)
    : option error :=
  if decide (addr = "ftp://example.org")
  then Some (ErrExternal "unsupported url scheme: ftp")
  else None.

(** A resolver constructor that refuses the text of the zero [AddrPort]. *)
Definition sampleNewUpstreamResolver (addr : string) (opts : upstream.Options)
    : option error :=
  if decide (addr = "invalid AddrPort")
  then Some (ErrExternal "invalid address") else None.

(** [netip.AddrPort.String] on the zero [AddrPort] and on the bootstrap
    address used below. *)
Definition sampleAddrPortString (a : netip.AddrPort) : string :=
  if decide (netip.ap_ip a = netip.AddrZero) then "invalid AddrPort"
  else "8.8.4.4:53".

(** Stand-ins for the two Unicode functions; the inputs below are ASCII. *)
Definition sampleUnicodeLower (s : string) : string := s.
Definition sampleRuneSize (s : string) : nat := 1.

Definition sampleLogger : slog.Logger := slog.mkLogger [].

Definition clientA : netip.Prefix := netip.mkPrefix (netip.AddrV4 3232235777) 33.
Definition clientB : netip.Prefix := netip.mkPrefix (netip.AddrV4 3232236032) 25.

(** Two named groups on one address, a default group and a private group on
    the same address. *)
Definition sharedGroups : list UpstreamGroupConfig :=
  [ mkUpstreamGroupConfig "default" "tls://dns.example" [];
    mkUpstreamGroupConfig "private" "192.168.12.34" [];
    mkUpstreamGroupConfig "office" "192.168.12.34"
      [mkMatchCriteria netip.zeroPrefix "MyCompany.LOCAL"];
    mkUpstreamGroupConfig "lab" "192.168.12.34"
      [mkMatchCriteria clientA ""; mkMatchCriteria clientB "mycompany.local."] ].

(** Two groups on one address that the constructor refuses. *)
Definition refusedGroups : list UpstreamGroupConfig :=
  [ mkUpstreamGroupConfig "office" "ftp://example.org"
      [mkMatchCriteria clientA ""];
    mkUpstreamGroupConfig "lab" "ftp://example.org"
      [mkMatchCriteria clientB ""] ].

(** A refused group between two accepted ones. *)
Definition mixedGroups : list UpstreamGroupConfig :=
  [ mkUpstreamGroupConfig "default" "tls://dns.example" [];
    mkUpstreamGroupConfig "office" "ftp://example.org"
      [mkMatchCriteria clientA ""];
    mkUpstreamGroupConfig "lab" "192.168.12.34"
      [mkMatchCriteria clientB "lab.example"] ].

Definition sampleConf (gs : list UpstreamGroupConfig) : UpstreamConfig :=
  mkUpstreamConfig gs 2000000000.

(** The address shared by three groups of [sharedGroups], and the refused
    address. *)
Definition sharedAddress : string := "192.168.12.34".
Definition refusedAddress : string := "ftp://example.org".

(** The zero [AddrPort], which the constructor refuses, and a bootstrap
    server. *)
Definition sampleBootstrap : bootstrap.BootstrapConfig :=
  bootstrap.mkBootstrapConfig
    [netip.mkAddrPort netip.AddrZero 0;
     netip.mkAddrPort (netip.AddrV4 134743044) 53] 2000000000.

(** Only the zero [AddrPort]. *)
Definition refusedBootstrap : bootstrap.BootstrapConfig :=
  bootstrap.mkBootstrapConfig [netip.mkAddrPort netip.AddrZero 0] 2000000000.

(** [enabled: true, interval: 1s, count: 4], as in [config.dist.yaml], and the
    same with retry disabled. *)
Definition retryOn : cmd.bindRetryConfig :=
  cmd.mkbindRetryConfig true 1000000000 4.
Definition retryOff : cmd.bindRetryConfig :=
  cmd.mkbindRetryConfig false 1000000000 4.

(** A bind function that fails at every call, with an error that tells the
    calls apart. *)
Definition bindAlwaysFails (n : nat) : option error :=
  Some (ErrIndex n (ErrExternal "address already in use")).

(** A bind function that fails twice and then succeeds. *)
Definition bindThirdSucceeds (n : nat) : option error :=
  if decide (n < 2) then Some (ErrExternal "network is unreachable") else None.

(* ===================================================================== *)
(** * Package [dnssvc]: the functions                                      *)
(* ===================================================================== *)

Section dnssvc.

(** What the embedded code calls and the sources do not contain. *)

(** [strings.Map(unicode.ToLower, s)], which [strings.ToLower] computes for
    a string with a byte outside ASCII. *)
Variable unicodeToLower : string → string.

(** The size in bytes of the last rune of a string whose last byte is
    outside ASCII ([utf8.DecodeLastRuneInString]). *)
Variable utf8LastRuneSize : string → nat.

(** Whether [upstream.AddressToUpstream(addr, opts)] fails, and with which
    error. *)
Variable AddressToUpstream_err : string → upstream.Options → option error.

(** Whether [upstream.NewUpstreamResolver(addr, opts)] fails, and with
    which error. *)
Variable NewUpstreamResolver_err : string → upstream.Options → option error.

(** [netip.AddrPort.String] *)
Variable AddrPort_String : netip.AddrPort → string.

(** ** [strings.ToLower] *)
Definition ToLower (s : string) : string :=
  if isASCII s then
    if noUpper s then s else mapBytes lowerByte s
  else unicodeToLower s.

(** ** [dns.IsFqdn] and [dns.Fqdn] of [github.com/miekg/dns]

    [IsFqdn]: a name is fully qualified when it ends with a dot that is not
    escaped, that is, when the dot is not preceded by an odd number of
    backslashes.  The library computes [i], the index of the last rune that
    is not a backslash in the name without its last dot ([-1] if there is
    none), and answers [(len(s)-i)%2 != 0]; [len(s)-i] is the number of
    backslashes plus the size of that rune (plus one if there is none). *)
Definition lastRuneSize (r : list ascii) : nat :=
  match r with
  | [] => 1
  | c :: _ =>
      if byte_lt c 128 then 1
      else utf8LastRuneSize (String.string_of_list_ascii (rev r))
  end.

Definition IsFqdn (s : string) : bool :=
  match revBytes s with
  | [] => false
  | c :: r =>
      if decide (c = dot) then
        match r with
        | [] => true
        | c' :: _ =>
            if decide (c' = backslash) then
              Nat.odd (leadingBackslashes r + lastRuneSize (dropBackslashes r))
            else true
        end
      else false
  end.

Definition Fqdn (s : string) : string :=
  if IsFqdn s then s else s +:+ ".".

(** ** [upstream.AddressToUpstream]

    The call is logged; when the constructor does not fail, a new object is
    put into the store and its handle is returned. *)
Definition AddressToUpstream (addr : string) (opts : upstream.Options)
    (w : upstream.World) : (upstream.Upstream + error) * upstream.World :=
  let log := upstream.calls w ++ [(addr, opts)] in
  match AddressToUpstream_err addr opts with
  | Some e => (inr e, upstream.mkWorld (upstream.constructed w) log)
  | None =>
      (inl (length (upstream.constructed w)),
       upstream.mkWorld
         (upstream.constructed w ++ [upstream.mkObject addr opts]) log)
  end.

(** ** [newUpstreamOrCached]

    The map [addrToUps] is updated in place by the Go code; here the
    updated map is returned next to the result. *)
Definition newUpstreamOrCached (addr : string)
    (addrToUps : gmap string upstream.Upstream) (opts : upstream.Options)
    (w : upstream.World)
    : (upstream.Upstream + error) * gmap string upstream.Upstream
      * upstream.World :=
  match addrToUps !! addr with
  | Some u => (inl u, addrToUps, w)
  | None =>
      match AddressToUpstream addr opts w with
      | (inr err, w') => (inr err, addrToUps, w')
      | (inl u, w') => (inl u, <[addr := u]> addrToUps, w')
      end
  end.

(** ** [addGroup] *)

(** The key of the domain maps: [dns.Fqdn(strings.ToLower(domain))]. *)
Definition domainKey (domain : string) : string := Fqdn (ToLower domain).

(** [m[k] = append(m[k], u)] on a map field, after the field was given a
    map if it was [nil]. *)
Definition appendAt (m : option (gmap string (list upstream.Upstream)))
    (k : string) (u : upstream.Upstream)
    : option (gmap string (list upstream.Upstream)) :=
  Some (<[k := proxy.read m k ++ [u]]> (default ∅ m)).

(** The body of the loop of [addGroup], for the criterion [m]. *)
Definition addMatch (u : upstream.Upstream) (configs : upstreamConfigs)
    (m : MatchCriteria) : upstreamConfigs :=
  let conf := default proxy.empty (configs !! Client m) in
  let domain := QuestionDomain m in
  if decide (domain = "") then
    <[Client m :=
        proxy.mkUpstreamConfig
          (proxy.Upstreams conf ++ [u])
          (proxy.DomainReservedUpstreams conf)
          (proxy.SpecifiedDomainUpstreams conf)]> configs
  else
    <[Client m :=
        proxy.mkUpstreamConfig
          (proxy.Upstreams conf)
          (appendAt (proxy.DomainReservedUpstreams conf) (domainKey domain) u)
          (appendAt (proxy.SpecifiedDomainUpstreams conf) (domainKey domain) u)]>
      configs.

Definition addGroup (ugc : UpstreamGroupConfig) (configs : upstreamConfigs)
    (u : upstream.Upstream) : upstreamConfigs :=
  foldl (addMatch u) configs (Match ugc).

(** ** [newUpstreams] *)

(** The variables of [newUpstreams] that its loop updates, and the state of
    the library. *)
Record build : Type := mkBuild {
  ups : upstreamConfigs;
  private : option proxy.UpstreamConfig;
  errs : list error;
  upstreams : gmap string upstream.Upstream;
  world : upstream.World;
}.

(** The options that the loop builds for the group [g]. *)
Definition groupOptions (conf : UpstreamConfig) (l : slog.Logger)
    (boot : upstream.Resolver) (g : UpstreamGroupConfig) : upstream.Options :=
  upstream.mkOptions
    (slog.With l [(agdcslog.KeyUpstreamType, agdcslog.UpstreamTypeMain);
                  (agdcslog.KeyUpstreamGroup, Name g)])
    (Timeout conf) boot.

(** [append(c.Upstreams, u)] on the configuration [c]. *)
Definition appendUpstream (c : proxy.UpstreamConfig) (u : upstream.Upstream)
    : proxy.UpstreamConfig :=
  proxy.mkUpstreamConfig (proxy.Upstreams c ++ [u])
    (proxy.DomainReservedUpstreams c) (proxy.SpecifiedDomainUpstreams c).

(** The [switch g.Name] of the loop, for a group whose upstream is [u]. *)
Definition route (g : UpstreamGroupConfig) (u : upstream.Upstream)
    (t : upstreamConfigs * option proxy.UpstreamConfig)
    : upstreamConfigs * option proxy.UpstreamConfig :=
  if decide (Name g = agdc.UpstreamGroupNameDefault) then
    (* [ups[netip.Prefix{}]] is never [nil], see [route_default_present] *)
    (<[netip.zeroPrefix :=
         appendUpstream (default proxy.empty (t.1 !! netip.zeroPrefix)) u]> t.1,
     t.2)
  else if decide (Name g = agdc.UpstreamGroupNamePrivate) then
    (t.1, Some (appendUpstream (default proxy.empty t.2) u))
  else (addGroup g t.1 u, t.2).

(** The body of the loop of [newUpstreams], for the group [g]. *)
Definition groupStep (conf : UpstreamConfig) (l : slog.Logger)
    (boot : upstream.Resolver) (st : build) (g : UpstreamGroupConfig) : build :=
  let opts := groupOptions conf l boot g in
  match newUpstreamOrCached (Address g) (upstreams st) opts (world st) with
  | (inr err, cache, w) =>
      mkBuild (ups st) (private st) (errs st ++ [ErrGroup (Name g) err]) cache w
  | (inl u, cache, w) =>
      let t := route g u (ups st, private st) in
      mkBuild t.1 t.2 (errs st) cache w
  end.

(** The variables before the loop. *)
Definition initBuild (w : upstream.World) : build :=
  mkBuild {[ netip.zeroPrefix := proxy.empty ]} None [] ∅ w.

(** The variables after the loop over [conf.Groups]. *)
Definition newUpstreams_loop (conf : UpstreamConfig) (l : slog.Logger)
    (boot : upstream.Resolver) (w : upstream.World) : build :=
  foldl (groupStep conf l boot) (initBuild w) (Groups conf).

(** [newUpstreams]: the three results, the deferred [errors.Annotate]
    applied to the error. *)
Definition newUpstreams (conf : UpstreamConfig) (l : slog.Logger)
    (boot : upstream.Resolver) (w : upstream.World)
    : upstreamConfigs * option proxy.UpstreamConfig * option error :=
  let st := newUpstreams_loop conf l boot w in
  (ups st, private st,
   errors.Annotate (errors.Join (errs st)) "creating upstreams: %w").

(** ** [upstream.NewUpstreamResolver]

    The call is logged; when the constructor does not fail, the upstream of
    the new resolver is put into the store. *)
Definition NewUpstreamResolver (addr : string) (opts : upstream.Options)
    (w : upstream.World)
    : (upstream.UpstreamResolver + error) * upstream.World :=
  let log := upstream.calls w ++ [(addr, opts)] in
  match NewUpstreamResolver_err addr opts with
  | Some e => (inr e, upstream.mkWorld (upstream.constructed w) log)
  | None =>
      (inl (upstream.mkUpstreamResolver (length (upstream.constructed w))),
       upstream.mkWorld
         (upstream.constructed w ++ [upstream.mkObject addr opts]) log)
  end.

(** ** [newResolvers] *)

(** The variables of [newResolvers] that its loop updates, and the state of
    the library.  A closer is the upstream that is to be closed. *)
Record chain : Type := mkChain {
  resolvers : list upstream.Resolver;
  closers : list upstream.Upstream;
  rerrs : list error;
  rworld : upstream.World;
}.

(** The options that [newResolvers] builds; [Bootstrap] is left [nil]. *)
Definition bootstrapOptions (conf : bootstrap.BootstrapConfig)
    (l : slog.Logger) : upstream.Options :=
  upstream.mkOptions
    (slog.With l [(agdcslog.KeyUpstreamType, agdcslog.UpstreamTypeBootstrap)])
    (bootstrap.Timeout conf) upstream.NilResolver.

(** The body of the loop of [newResolvers], for the address [addr] at
    index [i]. *)
Definition resolverStep (opts : upstream.Options) (st : chain) (i : nat)
    (addr : netip.AddrPort) : chain :=
  match NewUpstreamResolver (AddrPort_String addr) opts (rworld st) with
  | (inr err, w) =>
      mkChain (resolvers st) (closers st) (rerrs st ++ [ErrIndex i err]) w
  | (inl b, w) =>
      mkChain (resolvers st ++ [upstream.CachingResolver b])
              (closers st ++ [upstream.Upstream_of b]) (rerrs st) w
  end.

(** The loop [for i, addr := range conf.Addresses], from index [i] on. *)
Fixpoint resolversLoop (opts : upstream.Options) (i : nat)
    (addrs : list netip.AddrPort) (st : chain) : chain :=
  match addrs with
  | [] => st
  | addr :: addrs' =>
      resolversLoop opts (S i) addrs' (resolverStep opts st i addr)
  end.

Definition newResolvers_loop (conf : bootstrap.BootstrapConfig)
    (l : slog.Logger) (w : upstream.World) : chain :=
  resolversLoop (bootstrapOptions conf l) 0 (bootstrap.Addresses conf)
    (mkChain [] [] [] w).

(** [newResolvers]: the three results, the deferred [errors.Annotate]
    applied to the error. *)
Definition newResolvers (conf : bootstrap.BootstrapConfig) (l : slog.Logger)
    (w : upstream.World)
    : upstream.Resolver * list upstream.Upstream * option error :=
  let st := newResolvers_loop conf l w in
  (upstream.ConsequentResolver (resolvers st), closers st,
   errors.Annotate (errors.Join (rerrs st)) "creating bootstraps: %w").

(** ** What the properties speak about *)

(** The addresses of [addrs], each with its index, that the resolver
    constructor accepts, and those that it refuses, with the error. *)
Fixpoint accepted (opts : upstream.Options) (i : nat)
    (addrs : list netip.AddrPort) : list (nat * netip.AddrPort) :=
  match addrs with
  | [] => []
  | a :: addrs' =>
      match NewUpstreamResolver_err (AddrPort_String a) opts with
      | None => (i, a) :: accepted opts (S i) addrs'
      | Some _ => accepted opts (S i) addrs'
      end
  end.

Fixpoint refused (opts : upstream.Options) (i : nat)
    (addrs : list netip.AddrPort) : list (nat * error) :=
  match addrs with
  | [] => []
  | a :: addrs' =>
      match NewUpstreamResolver_err (AddrPort_String a) opts with
      | None => refused opts (S i) addrs'
      | Some e => (i, e) :: refused opts (S i) addrs'
      end
  end.

(** The pool alone: what [newUpstreamOrCached] answers for each group of
    [gs] in turn, from the cache [cache] and the state [w] on. *)
Fixpoint poolPass (conf : UpstreamConfig) (l : slog.Logger)
    (boot : upstream.Resolver) (gs : list UpstreamGroupConfig)
    (cache : gmap string upstream.Upstream) (w : upstream.World)
    : list (UpstreamGroupConfig * (upstream.Upstream + error)) :=
  match gs with
  | [] => []
  | g :: gs' =>
      let '(r, cache', w') :=
        newUpstreamOrCached (Address g) cache (groupOptions conf l boot g) w in
      (g, r) :: poolPass conf l boot gs' cache' w'
  end.

(** The groups whose construction did not fail, with their upstream, and
    the groups whose construction failed, with the error. *)
Definition routedOf (o : list (UpstreamGroupConfig * (upstream.Upstream + error)))
    : list (UpstreamGroupConfig * upstream.Upstream) :=
  omap (λ p, match p.2 with inl u => Some (p.1, u) | inr _ => None end) o.

Definition failedOf (o : list (UpstreamGroupConfig * (upstream.Upstream + error)))
    : list (UpstreamGroupConfig * error) :=
  omap (λ p, match p.2 with inl _ => None | inr e => Some (p.1, e) end) o.

(** The handles that a client configuration holds: in its catch-all list
    and in the lists of its two domain maps. *)
Definition holds (c : proxy.UpstreamConfig) (u : upstream.Upstream) : Prop :=
  u ∈ proxy.Upstreams c
  ∨ (∃ k, u ∈ proxy.read (proxy.DomainReservedUpstreams c) k)
  ∨ (∃ k, u ∈ proxy.read (proxy.SpecifiedDomainUpstreams c) k).

(** The handles reachable from a table and a private configuration. *)
Definition reachableIn (t : upstreamConfigs * option proxy.UpstreamConfig)
    (u : upstream.Upstream) : Prop :=
  (∃ p c, t.1 !! p = Some c ∧ holds c u)
  ∨ (∃ c, t.2 = Some c ∧ holds c u).

(** The handles reachable from the results of [newUpstreams]. *)
Definition reachable (st : build) (u : upstream.Upstream) : Prop :=
  reachableIn (ups st, private st) u.

(** The objects constructed between the state [w] and the later state
    [w']. *)
Definition constructedDuring (w w' : upstream.World) : list upstream.Object :=
  drop (length (upstream.constructed w)) (upstream.constructed w').

(** The number of objects of [objs] constructed for the address [addr]. *)
Definition constructedFor (addr : string) (objs : list upstream.Object) : nat :=
  length (filter (λ o, upstream.obj_addr o = addr) objs).

(** The number of groups of [gs] that reference the address [addr]. *)
Definition referencing (addr : string) (gs : list UpstreamGroupConfig) : nat :=
  length (filter (λ g, Address g = addr) gs).

(** The upstream [u] is in the entry [c] at the place that the criterion
    [m] selects: the catch-all list, or the lists of the two domain maps
    under the normalized key. *)
Definition placed (c : proxy.UpstreamConfig) (m : MatchCriteria)
    (u : upstream.Upstream) : Prop :=
  if decide (QuestionDomain m = "") then u ∈ proxy.Upstreams c
  else u ∈ proxy.read (proxy.DomainReservedUpstreams c)
             (domainKey (QuestionDomain m))
       ∧ u ∈ proxy.read (proxy.SpecifiedDomainUpstreams c)
             (domainKey (QuestionDomain m)).

(** The upstream [u] is in the routing entries that the name and the
    criteria of the group [g] select. *)
Definition routedIn (t : upstreamConfigs * option proxy.UpstreamConfig)
    (g : UpstreamGroupConfig) (u : upstream.Upstream) : Prop :=
  if decide (Name g = agdc.UpstreamGroupNameDefault) then
    ∃ c, t.1 !! netip.zeroPrefix = Some c ∧ u ∈ proxy.Upstreams c
  else if decide (Name g = agdc.UpstreamGroupNamePrivate) then
    ∃ c, t.2 = Some c ∧ u ∈ proxy.Upstreams c
  else
    ∀ m, m ∈ Match g → ∃ c, t.1 !! Client m = Some c ∧ placed c m u.

Definition routedTo (st : build) (g : UpstreamGroupConfig)
    (u : upstream.Upstream) : Prop :=
  routedIn (ups st, private st) g u.

(** [c'] is [c] with upstreams appended: each list of [c] is the beginning
    of the list of [c'] at the same place. *)
Definition grows (c c' : proxy.UpstreamConfig) : Prop :=
  proxy.Upstreams c `prefix_of` proxy.Upstreams c'
  ∧ (∀ k, proxy.read (proxy.DomainReservedUpstreams c) k
          `prefix_of` proxy.read (proxy.DomainReservedUpstreams c') k)
  ∧ (∀ k, proxy.read (proxy.SpecifiedDomainUpstreams c) k
          `prefix_of` proxy.read (proxy.SpecifiedDomainUpstreams c') k).

(** Every entry of [t] is still in [t'], possibly grown. *)
Definition tableLe (t t' : upstreamConfigs) : Prop :=
  ∀ p c, t !! p = Some c → ∃ c', t' !! p = Some c' ∧ grows c c'.

Definition privateLe (o o' : option proxy.UpstreamConfig) : Prop :=
  ∀ c, o = Some c → ∃ c', o' = Some c' ∧ grows c c'.

(** The two domain maps of [c] are the same map. *)
Definition balanced (c : proxy.UpstreamConfig) : Prop :=
  proxy.DomainReservedUpstreams c = proxy.SpecifiedDomainUpstreams c.

(** What the loop of [newUpstreams] keeps true of the cache, the store and
    the table; [n0] is the size of the store before the loop. *)
Definition poolInv (n0 : nat) (st : build) : Prop :=
  (∀ a h, upstreams st !! a = Some h →
     n0 ≤ h ∧ ∃ o, upstream.constructed (world st) !! h = Some o
                   ∧ upstream.obj_addr o = a)
  ∧ (∀ a, constructedFor a (drop n0 (upstream.constructed (world st)))
          = match upstreams st !! a with Some _ => 1 | None => 0 end)
  ∧ (∀ u, reachable st u → ∃ a, upstreams st !! a = Some u)
  ∧ n0 ≤ length (upstream.constructed (world st)).

(** The constructor decides on the address, the timeout and the bootstrap
    resolver; the logger only receives messages. *)
Definition ignoresLogger : Prop :=
  ∀ a o o',
    upstream.Timeout o = upstream.Timeout o' →
    upstream.Bootstrap o = upstream.Bootstrap o' →
    AddressToUpstream_err a o = AddressToUpstream_err a o'.

(** What the loop keeps true of the cache and the groups [done] that it has
    processed: a cached handle was constructed for the first processed
    group of its address whose construction did not fail, with the options
    of that group. *)
Definition firstInv (conf : UpstreamConfig) (l : slog.Logger)
    (boot : upstream.Resolver) (done : list UpstreamGroupConfig)
    (st : build) : Prop :=
  (∀ a h, upstreams st !! a = Some h →
     ∃ pre g0 post,
       done = pre ++ g0 :: post ∧ Address g0 = a
       ∧ upstream.constructed (world st) !! h
         = Some (upstream.mkObject a (groupOptions conf l boot g0))
       ∧ AddressToUpstream_err a (groupOptions conf l boot g0) = None
       ∧ ∀ g', g' ∈ pre → Address g' = a →
           AddressToUpstream_err a (groupOptions conf l boot g') ≠ None)
  ∧ (∀ g', g' ∈ done → upstreams st !! Address g' = None →
       AddressToUpstream_err (Address g') (groupOptions conf l boot g') ≠ None).

(** ** What the further properties speak about *)

(** The catch-all list and the lists of the two domain maps that the table
    [t] has for the client prefix [p]; a prefix without an entry reads as
    the empty configuration. *)
Definition catchAll (t : upstreamConfigs) (p : netip.Prefix)
    : list upstream.Upstream :=
  proxy.Upstreams (default proxy.empty (t !! p)).

Definition reservedAt (t : upstreamConfigs) (p : netip.Prefix) (k : string)
    : list upstream.Upstream :=
  proxy.read (proxy.DomainReservedUpstreams (default proxy.empty (t !! p))) k.

Definition specifiedAt (t : upstreamConfigs) (p : netip.Prefix) (k : string)
    : list upstream.Upstream :=
  proxy.read (proxy.SpecifiedDomainUpstreams (default proxy.empty (t !! p))) k.

(** What a group with its upstream adds to the catch-all list of [p]: the
    upstream once for a default group when [p] is the zero prefix, nothing
    for a private group, and the upstream once for each criterion of
    another group that has the client [p] and no domain suffix. *)
Definition catchAllOf (p : netip.Prefix)
    (r : UpstreamGroupConfig * upstream.Upstream) : list upstream.Upstream :=
  if decide (Name r.1 = agdc.UpstreamGroupNameDefault) then
    if decide (p = netip.zeroPrefix) then [r.2] else []
  else if decide (Name r.1 = agdc.UpstreamGroupNamePrivate) then []
  else
    flat_map
      (λ m, if decide (Client m = p ∧ QuestionDomain m = "")
            then [r.2] else [])
      (Match r.1).

(** What a group with its upstream adds to the list under the key [k] of a
    domain map of [p]: the upstream once for each criterion of a group,
    neither default nor private, that has the client [p] and a domain suffix
    with the key [k]. *)
Definition domainOf (p : netip.Prefix) (k : string)
    (r : UpstreamGroupConfig * upstream.Upstream) : list upstream.Upstream :=
  if decide (Name r.1 = agdc.UpstreamGroupNameDefault) then []
  else if decide (Name r.1 = agdc.UpstreamGroupNamePrivate) then []
  else
    flat_map
      (λ m, if decide (Client m = p ∧ QuestionDomain m ≠ ""
                       ∧ domainKey (QuestionDomain m) = k)
            then [r.2] else [])
      (Match r.1).

(** What a group with its upstream adds to the private list. *)
Definition privateOf (r : UpstreamGroupConfig * upstream.Upstream)
    : list upstream.Upstream :=
  if decide (Name r.1 = agdc.UpstreamGroupNameDefault) then []
  else if decide (Name r.1 = agdc.UpstreamGroupNamePrivate) then [r.2]
  else [].

(** The client prefixes for which a group asks for an entry. *)
Definition clientsOf (r : UpstreamGroupConfig * upstream.Upstream)
    : list netip.Prefix :=
  if decide (Name r.1 = agdc.UpstreamGroupNameDefault) then []
  else if decide (Name r.1 = agdc.UpstreamGroupNamePrivate) then []
  else map Client (Match r.1).

(** The loop of [newUpstreams] on the table and the private configuration
    alone, for groups given with their upstream. *)
Definition routeAll (rs : list (UpstreamGroupConfig * upstream.Upstream))
    (t : upstreamConfigs * option proxy.UpstreamConfig)
    : upstreamConfigs * option proxy.UpstreamConfig :=
  foldl (λ t r, route r.1 r.2 t) t rs.

(** A private configuration, if there is one, has no domain map. *)
Definition balancedNone (o : option proxy.UpstreamConfig) : Prop :=
  match o with
  | None => True
  | Some c => proxy.DomainReservedUpstreams c = None
              ∧ proxy.SpecifiedDomainUpstreams c = None
  end.


(* =================================================================== *)
(** * Properties                                                        *)
(* =================================================================== *)

(** ** The pool: [newUpstreamOrCached] *)

Lemma newUpstreamOrCached_hit addr cache opts w u :
  cache !! addr = Some u →
  newUpstreamOrCached addr cache opts w = (inl u, cache, w).
Proof. intros Hu. unfold newUpstreamOrCached. by rewrite Hu. Qed.

Lemma newUpstreamOrCached_new addr cache opts w :
  cache !! addr = None →
  AddressToUpstream_err addr opts = None →
  newUpstreamOrCached addr cache opts w =
    (inl (length (upstream.constructed w)),
     <[addr := length (upstream.constructed w)]> cache,
     upstream.mkWorld
       (upstream.constructed w ++ [upstream.mkObject addr opts])
       (upstream.calls w ++ [(addr, opts)])).
Proof.
  intros Hc He. unfold newUpstreamOrCached, AddressToUpstream.
  by rewrite Hc, He.
Qed.

Lemma newUpstreamOrCached_fail addr cache opts w e :
  cache !! addr = None →
  AddressToUpstream_err addr opts = Some e →
  newUpstreamOrCached addr cache opts w =
    (inr e, cache,
     upstream.mkWorld (upstream.constructed w)
       (upstream.calls w ++ [(addr, opts)])).
Proof.
  intros Hc He. unfold newUpstreamOrCached, AddressToUpstream.
  by rewrite Hc, He.
Qed.

(** C5.  The three cases of the pool lookup.  (1) An address that the cache
    maps to [u]: [u] is returned, the cache is unchanged, nothing is
    constructed and the constructor is not called.  (2) An address that is
    absent and that the constructor accepts: the new handle is returned and
    stored under exactly that address, the other keys of the cache keep
    their value.  (3) An address that is absent and that the constructor
    refuses: the error is returned, the cache and the store are unchanged,
    and a later call with the same address calls the constructor again. *)
Theorem newUpstreamOrCached_spec addr cache opts w :
  (∀ u, cache !! addr = Some u →
     newUpstreamOrCached addr cache opts w = (inl u, cache, w))
  ∧ (cache !! addr = None → AddressToUpstream_err addr opts = None →
     ∃ u cache' w',
       newUpstreamOrCached addr cache opts w = (inl u, cache', w')
       ∧ upstream.constructed w' !! u = Some (upstream.mkObject addr opts)
       ∧ upstream.constructed w !! u = None
       ∧ cache' !! addr = Some u
       ∧ (∀ a, a ≠ addr → cache' !! a = cache !! a))
  ∧ (∀ e, cache !! addr = None → AddressToUpstream_err addr opts = Some e →
     ∃ w',
       newUpstreamOrCached addr cache opts w = (inr e, cache, w')
       ∧ upstream.constructed w' = upstream.constructed w
       ∧ upstream.calls w' = upstream.calls w ++ [(addr, opts)]
       ∧ ∀ opts2,
           upstream.calls (newUpstreamOrCached addr cache opts2 w').2
           = upstream.calls w' ++ [(addr, opts2)]).
Proof.
  split; [|split].
  - intros u Hu. by apply newUpstreamOrCached_hit.
  - intros Hc He. eexists _, _, _.
    split; [by apply newUpstreamOrCached_new|]. simpl.
    split; [|split; [|split]].
    + rewrite lookup_app_r by lia. by rewrite Nat.sub_diag.
    + by apply lookup_ge_None_2.
    + by rewrite lookup_insert_eq.
    + intros a Ha. by rewrite lookup_insert_ne.
  - intros e Hc He. eexists.
    split; [by apply newUpstreamOrCached_fail|]. simpl.
    split; [done|]. split; [done|].
    intros opts2. unfold newUpstreamOrCached, AddressToUpstream.
    rewrite Hc. simpl. by destruct (AddressToUpstream_err addr opts2).
Qed.

(** ** Strings: [ToLower], [IsFqdn], [Fqdn] *)

Lemma lowerByte_not_upper c : isUpperByte (lowerByte c) = false.
Proof. by destruct c as [[] [] [] [] [] [] [] []]. Qed.




Lemma lowerByte_idemp c : lowerByte (lowerByte c) = lowerByte c.
Proof. unfold lowerByte at 1. by rewrite lowerByte_not_upper. Qed.





























(** ** The routing step: [addMatch], [addGroup], [route] *)

Lemma read_appendAt m k u k' :
  proxy.read (appendAt m k u) k' =
    if decide (k' = k) then proxy.read m k ++ [u] else proxy.read m k'.
Proof.
  unfold appendAt. simpl. destruct (decide (k' = k)) as [->|Hk].
  - by rewrite lookup_insert_eq.
  - rewrite lookup_insert_ne by done. destruct m; simpl; [done|].
    by rewrite lookup_empty.
Qed.

Lemma addMatch_other u configs m p :
  p ≠ Client m → addMatch u configs m !! p = configs !! p.
Proof.
  intros Hp. unfold addMatch.
  destruct (decide (QuestionDomain m = "")); by rewrite lookup_insert_ne.
Qed.

Lemma addMatch_catch_all u configs m :
  QuestionDomain m = "" →
  addMatch u configs m !! Client m =
    Some (appendUpstream (default proxy.empty (configs !! Client m)) u).
Proof.
  intros Hd. unfold addMatch. rewrite decide_True by done.
  by rewrite lookup_insert_eq.
Qed.

Lemma addMatch_domain u configs m :
  QuestionDomain m ≠ "" →
  let conf := default proxy.empty (configs !! Client m) in
  addMatch u configs m !! Client m =
    Some (proxy.mkUpstreamConfig (proxy.Upstreams conf)
            (appendAt (proxy.DomainReservedUpstreams conf)
               (domainKey (QuestionDomain m)) u)
            (appendAt (proxy.SpecifiedDomainUpstreams conf)
               (domainKey (QuestionDomain m)) u)).
Proof.
  intros Hd. unfold addMatch. rewrite decide_False by done.
  by rewrite lookup_insert_eq.
Qed.





(** ** The lists of the two domain maps, key by key *)

Lemma addMatch_domainAt u t m p k :
  reservedAt (addMatch u t m) p k
  = reservedAt t p k
    ++ (if decide (Client m = p ∧ QuestionDomain m ≠ ""
                   ∧ domainKey (QuestionDomain m) = k)
        then [u] else [])
  ∧ specifiedAt (addMatch u t m) p k
    = specifiedAt t p k
      ++ (if decide (Client m = p ∧ QuestionDomain m ≠ ""
                     ∧ domainKey (QuestionDomain m) = k)
          then [u] else []).
Proof.
  unfold reservedAt, specifiedAt. destruct (decide (p = Client m)) as [->|Hp].
  - destruct (decide (QuestionDomain m = "")) as [Hd|Hd].
    + rewrite addMatch_catch_all by done.
      rewrite decide_False by (by intros (_ & ? & _)). simpl.
      by rewrite !app_nil_r.
    + rewrite addMatch_domain by done.
      cbn [from_option id proxy.DomainReservedUpstreams
           proxy.SpecifiedDomainUpstreams].
      rewrite !read_appendAt.
      destruct (decide (k = domainKey (QuestionDomain m))) as [->|Hk].
      * by rewrite decide_True.
      * rewrite decide_False by (by intros (_ & _ & ?)).
        by rewrite !app_nil_r.
  - rewrite addMatch_other by done.
    rewrite decide_False by (by intros (? & _)). by rewrite !app_nil_r.
Qed.

Lemma foldl_addMatch_domainAt u ms t p k :
  reservedAt (foldl (addMatch u) t ms) p k
  = reservedAt t p k
    ++ flat_map (λ m, if decide (Client m = p ∧ QuestionDomain m ≠ ""
                                 ∧ domainKey (QuestionDomain m) = k)
                      then [u] else []) ms
  ∧ specifiedAt (foldl (addMatch u) t ms) p k
    = specifiedAt t p k
      ++ flat_map (λ m, if decide (Client m = p ∧ QuestionDomain m ≠ ""
                                   ∧ domainKey (QuestionDomain m) = k)
                        then [u] else []) ms.
Proof.
  revert t. induction ms as [|m ms IH]; intros t; simpl.
  { by rewrite !app_nil_r. }
  destruct (IH (addMatch u t m)) as [-> ->].
  destruct (addMatch_domainAt u t m p k) as [-> ->].
  by rewrite <-!app_assoc.
Qed.


(** ** The table only grows *)

Lemma grows_refl c : grows c c.
Proof. by split; [|split]. Qed.

Lemma grows_trans c1 c2 c3 : grows c1 c2 → grows c2 c3 → grows c1 c3.
Proof.
  intros (Ha & Hb & Hc) (Ha' & Hb' & Hc'). split; [|split].
  - by etrans.
  - intros k. etrans; [apply Hb|apply Hb'].
  - intros k. etrans; [apply Hc|apply Hc'].
Qed.

Lemma tableLe_refl t : tableLe t t.
Proof. intros p c Hc. exists c. split; [done|apply grows_refl]. Qed.

Lemma tableLe_trans t1 t2 t3 : tableLe t1 t2 → tableLe t2 t3 → tableLe t1 t3.
Proof.
  intros H12 H23 p c Hc.
  destruct (H12 p c Hc) as (c2 & Hc2 & Hg2).
  destruct (H23 p c2 Hc2) as (c3 & Hc3 & Hg3).
  exists c3. split; [done|]. by eapply grows_trans.
Qed.

Lemma privateLe_refl o : privateLe o o.
Proof. intros c Hc. exists c. split; [done|apply grows_refl]. Qed.

Lemma privateLe_trans o1 o2 o3 :
  privateLe o1 o2 → privateLe o2 o3 → privateLe o1 o3.
Proof.
  intros H12 H23 c Hc.
  destruct (H12 c Hc) as (c2 & Hc2 & Hg2).
  destruct (H23 c2 Hc2) as (c3 & Hc3 & Hg3).
  exists c3. split; [done|]. by eapply grows_trans.
Qed.

Lemma grows_appendUpstream c u : grows c (appendUpstream c u).
Proof. split; [|split]; simpl; try done. by apply prefix_app_r. Qed.

Lemma grows_appendAt c k u :
  grows c (proxy.mkUpstreamConfig (proxy.Upstreams c)
             (appendAt (proxy.DomainReservedUpstreams c) k u)
             (appendAt (proxy.SpecifiedDomainUpstreams c) k u)).
Proof.
  split; [done|split];
    intros k'; cbn [proxy.DomainReservedUpstreams proxy.SpecifiedDomainUpstreams];
    rewrite read_appendAt; destruct (decide (k' = k)) as [->|]; try done;
    by apply prefix_app_r.
Qed.

Lemma addMatch_le u t m : tableLe t (addMatch u t m).
Proof.
  intros p c Hc. destruct (decide (p = Client m)) as [->|Hp].
  - destruct (decide (QuestionDomain m = "")) as [Hd|Hd].
    + rewrite addMatch_catch_all by done. rewrite Hc. simpl.
      eexists. split; [done|]. apply grows_appendUpstream.
    + rewrite addMatch_domain by done. rewrite Hc. simpl.
      eexists. split; [done|]. apply grows_appendAt.
  - rewrite addMatch_other by done. exists c. split; [done|apply grows_refl].
Qed.

Lemma addGroup_le g t u : tableLe t (addGroup g t u).
Proof.
  unfold addGroup. generalize (Match g). intros ms. revert t.
  induction ms as [|m ms IH]; intros t; [apply tableLe_refl|]. simpl.
  eapply tableLe_trans; [apply addMatch_le|apply IH].
Qed.

Lemma route_le g u t :
  tableLe t.1 (route g u t).1 ∧ privateLe t.2 (route g u t).2.
Proof.
  unfold route.
  destruct (decide (Name g = agdc.UpstreamGroupNameDefault)); simpl.
  { split; [|apply privateLe_refl].
    intros p c Hc. destruct (decide (p = netip.zeroPrefix)) as [->|Hp].
    - rewrite lookup_insert_eq, Hc. simpl.
      eexists. split; [done|]. apply grows_appendUpstream.
    - rewrite lookup_insert_ne by done.
      exists c. split; [done|apply grows_refl]. }
  destruct (decide (Name g = agdc.UpstreamGroupNamePrivate)); simpl.
  { split; [apply tableLe_refl|].
    intros c ->. simpl. eexists. split; [done|]. apply grows_appendUpstream. }
  split; [apply addGroup_le|apply privateLe_refl].
Qed.

Lemma groupStep_le conf l boot st g :
  tableLe (ups st) (ups (groupStep conf l boot st g))
  ∧ privateLe (private st) (private (groupStep conf l boot st g)).
Proof.
  unfold groupStep.
  destruct (newUpstreamOrCached _ _ _ _) as [[[u|e] cache] w']; simpl.
  - apply (route_le g u (ups st, private st)).
  - split; [apply tableLe_refl|apply privateLe_refl].
Qed.

Lemma loop_le conf l boot gs st :
  tableLe (ups st) (ups (foldl (groupStep conf l boot) st gs))
  ∧ privateLe (private st) (private (foldl (groupStep conf l boot) st gs)).
Proof.
  revert st. induction gs as [|g gs IH]; intros st; simpl.
  - split; [apply tableLe_refl|apply privateLe_refl].
  - destruct (groupStep_le conf l boot st g) as [H1 H2].
    destruct (IH (groupStep conf l boot st g)) as [H3 H4].
    split; [by eapply tableLe_trans|by eapply privateLe_trans].
Qed.

(** The entry of the zero prefix, read by [route] for the default group, is
    never [nil]. *)
Lemma route_default_present conf l boot w gs :
  is_Some (ups (foldl (groupStep conf l boot) (initBuild w) gs)
             !! netip.zeroPrefix).
Proof.
  destruct (loop_le conf l boot gs (initBuild w)) as [Hle _].
  destruct (Hle netip.zeroPrefix proxy.empty) as (c & Hc & _).
  - simpl. by rewrite lookup_singleton_eq.
  - by exists c.
Qed.

(** C7.  The table that [newUpstreams] returns has an entry under the
    zero-value client prefix, for every configuration (an empty list of
    groups and a list whose groups all fail included): the entry is there
    before the loop, and no step of the loop removes it or takes anything
    away from it; a step only appends to its lists. *)
Theorem default_entry_always_present conf l boot w :
  is_Some ((newUpstreams conf l boot w).1.1 !! netip.zeroPrefix)
  ∧ ups (initBuild w) !! netip.zeroPrefix = Some proxy.empty
  ∧ (∀ st g c, ups st !! netip.zeroPrefix = Some c →
       ∃ c', ups (groupStep conf l boot st g) !! netip.zeroPrefix = Some c'
             ∧ grows c c')
  ∧ (∀ gs c,
       ups (foldl (groupStep conf l boot) (initBuild w) gs) !! netip.zeroPrefix
         = Some c →
       ∀ gs', ∃ c',
         ups (foldl (groupStep conf l boot) (initBuild w) (gs ++ gs'))
           !! netip.zeroPrefix = Some c' ∧ grows c c').
Proof.
  split; [|split; [|split]].
  - apply route_default_present.
  - simpl. by rewrite lookup_singleton_eq.
  - intros st g c Hc.
    destruct (groupStep_le conf l boot st g) as [Hle _]. by apply Hle.
  - intros gs c Hc gs'. rewrite foldl_app.
    destruct (loop_le conf l boot gs'
                (foldl (groupStep conf l boot) (initBuild w) gs)) as [Hle _].
    by apply Hle.
Qed.

(** ** The two domain maps are one *)

Lemma addMatch_balanced u t m :
  map_Forall (λ _ c, balanced c) t →
  map_Forall (λ _ c, balanced c) (addMatch u t m).
Proof.
  intros Ht p c Hc.
  assert (balanced (default proxy.empty (t !! Client m))) as Hb.
  { destruct (t !! Client m) as [c0|] eqn:H0; simpl; [by eapply Ht|done]. }
  destruct (decide (p = Client m)) as [->|Hp].
  - destruct (decide (QuestionDomain m = "")) as [Hd|Hd].
    + rewrite addMatch_catch_all in Hc by done. by injection Hc as <-.
    + rewrite addMatch_domain in Hc by done. injection Hc as <-.
      unfold balanced in *. simpl. by rewrite Hb.
  - rewrite addMatch_other in Hc by done. by eapply Ht.
Qed.

Lemma addGroup_balanced g t u :
  map_Forall (λ _ c, balanced c) t →
  map_Forall (λ _ c, balanced c) (addGroup g t u).
Proof.
  unfold addGroup. generalize (Match g). intros ms. revert t.
  induction ms as [|m ms IH]; intros t Ht; [done|]. simpl.
  by apply IH, addMatch_balanced.
Qed.

Lemma groupStep_balanced conf l boot st g :
  map_Forall (λ _ c, balanced c) (ups st) →
  map_Forall (λ _ c, balanced c) (ups (groupStep conf l boot st g)).
Proof.
  intros Hst. unfold groupStep.
  destruct (newUpstreamOrCached _ _ _ _) as [[[u|e] cache] w']; simpl; [|done].
  unfold route.
  destruct (decide (Name g = agdc.UpstreamGroupNameDefault)); simpl.
  { apply map_Forall_insert_2; [|done].
    destruct (ups st !! netip.zeroPrefix) as [c0|] eqn:H0; simpl; [|done].
    by apply (Hst _ _ H0). }
  destruct (decide (Name g = agdc.UpstreamGroupNamePrivate)); simpl; [done|].
  by apply addGroup_balanced.
Qed.

Lemma loop_balanced conf l boot gs st :
  map_Forall (λ _ c, balanced c) (ups st) →
  map_Forall (λ _ c, balanced c) (ups (foldl (groupStep conf l boot) st gs)).
Proof.
  revert st. induction gs as [|g gs IH]; intros st Hst; [done|]. simpl.
  by apply IH, groupStep_balanced.
Qed.

(** C3.  In every client entry of the table that [newUpstreams] builds, the
    reserved-domain map and the specified-domain map are equal.  A step of
    [addGroup] on a criterion with a non-empty suffix appends the same
    upstream under the same normalized key to both maps of the entry of
    the client: in each of the two maps, the list under the normalized key
    is the list that was there followed by the upstream, and the list
    under every other key is the one that was there.  The whole of
    [addGroup] does this for every criterion of the group, in order: under
    every client prefix and key, each of the two maps has the list that
    was there, followed by the upstream once for each criterion with this
    client and a non-empty suffix of this key.  A step on any criterion
    keeps the two maps of every entry equal. *)
Theorem domain_maps_equal conf l boot w :
  map_Forall (λ _ c, proxy.DomainReservedUpstreams c
                     = proxy.SpecifiedDomainUpstreams c)
    (newUpstreams conf l boot w).1.1
  ∧ (∀ u t m, QuestionDomain m ≠ "" →
       let c := default proxy.empty (t !! Client m) in
       let key := domainKey (QuestionDomain m) in
       ∃ c', addMatch u t m !! Client m = Some c'
         ∧ proxy.DomainReservedUpstreams c'
           = appendAt (proxy.DomainReservedUpstreams c) key u
         ∧ proxy.SpecifiedDomainUpstreams c'
           = appendAt (proxy.SpecifiedDomainUpstreams c) key u
         ∧ proxy.read (proxy.DomainReservedUpstreams c') key
           = proxy.read (proxy.DomainReservedUpstreams c) key ++ [u]
         ∧ proxy.read (proxy.SpecifiedDomainUpstreams c') key
           = proxy.read (proxy.SpecifiedDomainUpstreams c) key ++ [u]
         ∧ (∀ k, k ≠ key →
              proxy.read (proxy.DomainReservedUpstreams c') k
              = proxy.read (proxy.DomainReservedUpstreams c) k
              ∧ proxy.read (proxy.SpecifiedDomainUpstreams c') k
                = proxy.read (proxy.SpecifiedDomainUpstreams c) k))
  ∧ (∀ g t u p k,
       let added :=
         flat_map (λ m, if decide (Client m = p ∧ QuestionDomain m ≠ ""
                                   ∧ domainKey (QuestionDomain m) = k)
                        then [u] else []) (Match g) in
       reservedAt (addGroup g t u) p k = reservedAt t p k ++ added
       ∧ specifiedAt (addGroup g t u) p k = specifiedAt t p k ++ added)
  ∧ (∀ u t m,
       map_Forall (λ _ c, proxy.DomainReservedUpstreams c
                          = proxy.SpecifiedDomainUpstreams c) t →
       map_Forall (λ _ c, proxy.DomainReservedUpstreams c
                          = proxy.SpecifiedDomainUpstreams c) (addMatch u t m)).
Proof.
  split; [|split; [|split]].
  - apply (loop_balanced conf l boot (Groups conf) (initBuild w)).
    simpl. by apply map_Forall_singleton.
  - intros u t m Hd c key. eexists. split; [by apply addMatch_domain|].
    cbn [proxy.DomainReservedUpstreams proxy.SpecifiedDomainUpstreams].
    split; [done|]. split; [done|].
    rewrite !read_appendAt, !decide_True by done.
    split; [done|]. split; [done|].
    intros k Hk. rewrite !read_appendAt, !decide_False by done. done.
  - intros g t u p k added. apply foldl_addMatch_domainAt.
  - intros u t m. apply addMatch_balanced.
Qed.

(** ** The loop of [newUpstreams]: pool pass and routing pass *)

Lemma loop_fission conf l boot gs st :
  let o := poolPass conf l boot gs (upstreams st) (world st) in
  let st' := foldl (groupStep conf l boot) st gs in
  errs st' = errs st ++ map (λ p, ErrGroup (Name p.1) p.2) (failedOf o)
  ∧ (ups st', private st')
    = foldl (λ t p, route p.1 p.2 t) (ups st, private st) (routedOf o).
Proof.
  revert st. induction gs as [|g gs IH]; intros st; simpl.
  { by rewrite app_nil_r. }
  unfold groupStep at 2 4 6.
  destruct (newUpstreamOrCached _ _ _ _) as [[[u|e] cache] w'] eqn:Hn.
  - specialize (IH (mkBuild (route g u (ups st, private st)).1
                      (route g u (ups st, private st)).2 (errs st) cache w')).
    simpl in IH. destruct IH as [IH1 IH2].
    unfold routedOf, failedOf in *. simpl. split; [done|].
    rewrite IH2. by destruct (route g u (ups st, private st)).
  - specialize (IH (mkBuild (ups st) (private st)
                      (errs st ++ [ErrGroup (Name g) e]) cache w')).
    simpl in IH. destruct IH as [IH1 IH2].
    unfold routedOf, failedOf in *. simpl. split; [|done].
    by rewrite IH1, <-app_assoc.
Qed.

Lemma poolPass_groups conf l boot gs cache w :
  map fst (poolPass conf l boot gs cache w) = gs.
Proof.
  revert cache w. induction gs as [|g gs IH]; intros cache w; [done|]. simpl.
  destruct (newUpstreamOrCached _ _ _ _) as [[r cache'] w']. simpl.
  by rewrite IH.
Qed.

Lemma poolPass_failed conf l boot gs cache w g e :
  (g, inr e) ∈ poolPass conf l boot gs cache w →
  AddressToUpstream_err (Address g) (groupOptions conf l boot g) = Some e.
Proof.
  revert cache w. induction gs as [|g0 gs IH]; intros cache w; simpl.
  { by intros ?%elem_of_nil. }
  destruct (newUpstreamOrCached _ _ _ _) as [[r cache'] w'] eqn:Hn.
  intros [Heq|Hin]%elem_of_cons; [|by eapply IH].
  simplify_eq.
  unfold newUpstreamOrCached, AddressToUpstream in Hn.
  destruct (cache !! _); [done|].
  by destruct (AddressToUpstream_err _ _); simplify_eq.
Qed.

Lemma elem_of_failedOf o g e : (g, e) ∈ failedOf o ↔ (g, inr e) ∈ o.
Proof.
  unfold failedOf. rewrite list_elem_of_omap. split.
  - intros ([g' [u|e']] & Hin & Heq); simplify_eq/=. done.
  - intros Hin. exists (g, inr e). by split.
Qed.

Lemma elem_of_routedOf o g u : (g, u) ∈ routedOf o ↔ (g, inl u) ∈ o.
Proof.
  unfold routedOf. rewrite list_elem_of_omap. split.
  - intros ([g' [u'|e']] & Hin & Heq); simplify_eq/=. done.
  - intros Hin. exists (g, inl u). by split.
Qed.

Lemma outcomes_length o :
  length (routedOf o) + length (failedOf o) = length o.
Proof.
  unfold routedOf, failedOf.
  induction o as [|[g [u|e]] o IH]; [done| |]; cbn in *; lia.
Qed.


(** ** What the table holds comes from the pool *)

Lemma holds_empty u : ¬ holds proxy.empty u.
Proof.
  intros [H|[[k H]|[k H]]]; simpl in H; by apply elem_of_nil in H.
Qed.

Lemma holds_appendUpstream c u u' :
  holds (appendUpstream c u) u' → holds c u' ∨ u' = u.
Proof.
  intros [H|[H|H]]; simpl in H.
  - apply elem_of_app in H as [H|H%list_elem_of_singleton]; [|by right].
    left. by left.
  - left. right. by left.
  - left. right. by right.
Qed.

Lemma holds_appendAt c k u u' :
  holds (proxy.mkUpstreamConfig (proxy.Upstreams c)
           (appendAt (proxy.DomainReservedUpstreams c) k u)
           (appendAt (proxy.SpecifiedDomainUpstreams c) k u)) u' →
  holds c u' ∨ u' = u.
Proof.
  intros [H|[[k' H]|[k' H]]];
    cbn [proxy.Upstreams proxy.DomainReservedUpstreams
         proxy.SpecifiedDomainUpstreams] in H.
  - left. by left.
  - rewrite read_appendAt in H. destruct (decide (k' = k)) as [->|].
    + apply elem_of_app in H as [H|H%list_elem_of_singleton]; [|by right].
      left. right. left. by exists k.
    + left. right. left. by exists k'.
  - rewrite read_appendAt in H. destruct (decide (k' = k)) as [->|].
    + apply elem_of_app in H as [H|H%list_elem_of_singleton]; [|by right].
      left. right. right. by exists k.
    + left. right. right. by exists k'.
Qed.

Lemma holds_default (t : upstreamConfigs) p u :
  holds (default proxy.empty (t !! p)) u →
  ∃ c, t !! p = Some c ∧ holds c u.
Proof.
  destruct (t !! p) as [c|]; simpl; [by exists c|].
  intros H. by apply holds_empty in H.
Qed.

Lemma addMatch_holds u t m p c u' :
  addMatch u t m !! p = Some c → holds c u' →
  (∃ p' c', t !! p' = Some c' ∧ holds c' u') ∨ u' = u.
Proof.
  intros Hc Hh. destruct (decide (p = Client m)) as [->|Hp].
  - destruct (decide (QuestionDomain m = "")) as [Hd|Hd].
    + rewrite addMatch_catch_all in Hc by done. injection Hc as <-.
      apply holds_appendUpstream in Hh as [Hh|]; [|by right].
      apply holds_default in Hh as (c' & ? & ?). left. by exists (Client m), c'.
    + rewrite addMatch_domain in Hc by done. injection Hc as <-.
      apply holds_appendAt in Hh as [Hh|]; [|by right].
      apply holds_default in Hh as (c' & ? & ?). left. by exists (Client m), c'.
  - rewrite addMatch_other in Hc by done. left. by exists p, c.
Qed.

Lemma foldl_addMatch_holds u ms t p c u' :
  foldl (addMatch u) t ms !! p = Some c → holds c u' →
  (∃ p' c', t !! p' = Some c' ∧ holds c' u') ∨ u' = u.
Proof.
  revert t p c. induction ms as [|m ms IH]; intros t p c Hc Hh; simpl in Hc.
  { left. by exists p, c. }
  destruct (IH _ _ _ Hc Hh) as [(p' & c' & Hc' & Hh')|]; [|by right].
  by eapply addMatch_holds.
Qed.

Lemma route_reachable g u t u' :
  reachableIn (route g u t) u' → reachableIn t u' ∨ u' = u.
Proof.
  unfold route.
  destruct (decide (Name g = agdc.UpstreamGroupNameDefault)).
  { intros [(p & c & Hc & Hh)|Hp]; simpl in *; [|left; by right].
    destruct (decide (p = netip.zeroPrefix)) as [->|Hne].
    - rewrite lookup_insert_eq in Hc. injection Hc as <-.
      apply holds_appendUpstream in Hh as [Hh|]; [|by right].
      apply holds_default in Hh as (c' & ? & ?).
      left. left. by exists netip.zeroPrefix, c'.
    - rewrite lookup_insert_ne in Hc by done. left. left. by exists p, c. }
  destruct (decide (Name g = agdc.UpstreamGroupNamePrivate)).
  { intros [Ht|(c & Hc & Hh)]; simpl in *; [left; by left|].
    injection Hc as <-.
    apply holds_appendUpstream in Hh as [Hh|]; [|by right].
    destruct (t.2) as [c'|] eqn:Hp; simpl in Hh.
    - left. right. by exists c'.
    - by apply holds_empty in Hh. }
  intros [(p & c & Hc & Hh)|Hp]; simpl in *; [|left; by right].
  destruct (foldl_addMatch_holds _ _ _ _ _ _ Hc Hh) as [?|]; [|by right].
  left. by left.
Qed.

(** ** A routed group is in its entries *)

Lemma placed_grows c c' m u : grows c c' → placed c m u → placed c' m u.
Proof.
  intros (Ha & Hb & Hc). unfold placed.
  destruct (decide (QuestionDomain m = "")).
  - intros H. by eapply elem_of_prefix.
  - intros [H1 H2]. split.
    + eapply elem_of_prefix; [apply H1|apply Hb].
    + eapply elem_of_prefix; [apply H2|apply Hc].
Qed.

Lemma foldl_addMatch_le u ms t : tableLe t (foldl (addMatch u) t ms).
Proof.
  revert t. induction ms as [|m ms IH]; intros t; [apply tableLe_refl|].
  simpl. eapply tableLe_trans; [apply addMatch_le|apply IH].
Qed.

Lemma addMatch_placed u t m :
  ∃ c, addMatch u t m !! Client m = Some c ∧ placed c m u.
Proof.
  unfold placed. destruct (decide (QuestionDomain m = "")) as [Hd|Hd].
  - rewrite addMatch_catch_all by done. eexists. split; [done|]. simpl.
    apply elem_of_app. right. by apply list_elem_of_singleton.
  - rewrite addMatch_domain by done. eexists. split; [done|].
    cbn [proxy.DomainReservedUpstreams proxy.SpecifiedDomainUpstreams].
    rewrite !read_appendAt, !decide_True by done.
    split; apply elem_of_app; right; by apply list_elem_of_singleton.
Qed.

Lemma foldl_addMatch_placed u ms t m :
  m ∈ ms → ∃ c, foldl (addMatch u) t ms !! Client m = Some c ∧ placed c m u.
Proof.
  revert t. induction ms as [|m0 ms IH]; intros t Hin.
  { by apply elem_of_nil in Hin. }
  simpl. apply elem_of_cons in Hin as [->|Hin]; [|by apply IH].
  destruct (addMatch_placed u t m0) as (c & Hc & Hp).
  destruct (foldl_addMatch_le u ms (addMatch u t m0) _ _ Hc) as (c' & Hc' & Hg).
  exists c'. split; [done|]. by eapply placed_grows.
Qed.

Lemma route_routedIn g u t : routedIn (route g u t) g u.
Proof.
  unfold route, routedIn.
  destruct (decide (Name g = agdc.UpstreamGroupNameDefault)); simpl.
  { eexists. rewrite lookup_insert_eq. split; [done|]. simpl.
    apply elem_of_app. right. by apply list_elem_of_singleton. }
  destruct (decide (Name g = agdc.UpstreamGroupNamePrivate)); simpl.
  { eexists. split; [done|]. simpl.
    apply elem_of_app. right. by apply list_elem_of_singleton. }
  intros m Hm. by apply foldl_addMatch_placed.
Qed.

Lemma routedIn_mono t t' g u :
  tableLe t.1 t'.1 → privateLe t.2 t'.2 → routedIn t g u → routedIn t' g u.
Proof.
  intros Ht Hp. unfold routedIn.
  destruct (decide (Name g = agdc.UpstreamGroupNameDefault)).
  { intros (c & Hc & Hu). destruct (Ht _ _ Hc) as (c' & Hc' & Hg & _).
    exists c'. split; [done|]. by eapply elem_of_prefix. }
  destruct (decide (Name g = agdc.UpstreamGroupNamePrivate)).
  { intros (c & Hc & Hu). destruct (Hp _ Hc) as (c' & Hc' & Hg & _).
    exists c'. split; [done|]. by eapply elem_of_prefix. }
  intros H m Hm. destruct (H m Hm) as (c & Hc & Hpl).
  destruct (Ht _ _ Hc) as (c' & Hc' & Hg).
  exists c'. split; [done|]. by eapply placed_grows.
Qed.

(** ** One upstream for each address *)

Lemma groupStep_pool conf l boot st g :
  ∃ r cache' w',
    newUpstreamOrCached (Address g) (upstreams st)
      (groupOptions conf l boot g) (world st) = (r, cache', w')
    ∧ upstreams (groupStep conf l boot st g) = cache'
    ∧ world (groupStep conf l boot st g) = w'
    ∧ (∀ a h, upstreams st !! a = Some h → cache' !! a = Some h)
    ∧ (∀ a h, cache' !! a = Some h →
         upstreams st !! a = Some h ∨ (r = inl h ∧ a = Address g))
    ∧ match r with
      | inl u => cache' !! Address g = Some u
                 ∧ routedTo (groupStep conf l boot st g) g u
      | inr _ => True
      end.
Proof.
  unfold groupStep.
  destruct (newUpstreamOrCached _ _ _ _) as [[r cache'] w'] eqn:Hn.
  exists r, cache', w'. split; [done|].
  unfold newUpstreamOrCached, AddressToUpstream in Hn.
  destruct (upstreams st !! Address g) as [u0|] eqn:Hc.
  { simplify_eq. simpl. repeat split; try done; [by left|].
    apply (route_routedIn g u0 (ups st, private st)). }
  destruct (AddressToUpstream_err _ _) eqn:He; simplify_eq; simpl.
  { repeat split; try done. by left. }
  repeat split; try done.
  - intros a h Hh. rewrite lookup_insert_ne; [done|]. by intros <-; simplify_eq.
  - intros a h Hh. destruct (decide (a = Address g)) as [->|Hne].
    + rewrite lookup_insert_eq in Hh. simplify_eq. by right.
    + rewrite lookup_insert_ne in Hh by done. by left.
  - by rewrite lookup_insert_eq.
  - apply (route_routedIn g _ (ups st, private st)).
Qed.

Lemma constructedFor_snoc a objs o :
  constructedFor a (objs ++ [o])
  = constructedFor a objs + (if decide (upstream.obj_addr o = a) then 1 else 0).
Proof.
  unfold constructedFor. rewrite filter_app, length_app. f_equal.
  rewrite filter_cons, filter_nil. by destruct (decide _).
Qed.

Lemma groupStep_poolInv n0 conf l boot st g :
  poolInv n0 st → poolInv n0 (groupStep conf l boot st g).
Proof.
  intros (H1 & H2 & H3 & H4). unfold groupStep.
  destruct (newUpstreamOrCached _ _ _ _) as [[r cache'] w'] eqn:Hn.
  unfold newUpstreamOrCached, AddressToUpstream in Hn.
  destruct (upstreams st !! Address g) as [u0|] eqn:Hc.
  { simplify_eq. split; [done|]. split; [done|]. split; [|done].
    intros u Hu. unfold reachable in Hu. simpl in Hu.
    rewrite <-surjective_pairing in Hu.
    apply route_reachable in Hu as [Hu| ->]; [by apply H3|].
    by exists (Address g). }
  destruct (AddressToUpstream_err _ _) eqn:He; simplify_eq.
  { by split; [|split; [|split]]. }
  split; [|split; [|split]]; simpl.
  - intros a h Hh. destruct (decide (a = Address g)) as [->|Hne].
    + rewrite lookup_insert_eq in Hh. simplify_eq. split; [done|].
      eexists. rewrite lookup_app_r, Nat.sub_diag by lia. done.
    + rewrite lookup_insert_ne in Hh by done.
      destruct (H1 _ _ Hh) as (Hle & o & Ho & Ha).
      split; [done|]. exists o. split; [|done]. by apply lookup_app_l_Some.
  - intros a. rewrite drop_app_le by done. rewrite constructedFor_snoc, H2.
    simpl. destruct (decide (Address g = a)) as [<-|Hne].
    + by rewrite Hc, lookup_insert_eq.
    + rewrite lookup_insert_ne by done. lia.
  - intros u Hu. unfold reachable in Hu. simpl in Hu.
    rewrite <-surjective_pairing in Hu.
    apply route_reachable in Hu as [Hu| ->].
    + destruct (H3 _ Hu) as (a & Ha). exists a.
      rewrite lookup_insert_ne; [done|]. by intros <-; simplify_eq.
    + exists (Address g). by rewrite lookup_insert_eq.
  - rewrite length_app. lia.
Qed.

Lemma routedTo_loop conf l boot gs st g u :
  routedTo st g u → routedTo (foldl (groupStep conf l boot) st gs) g u.
Proof.
  destruct (loop_le conf l boot gs st) as [Ht Hp].
  by apply routedIn_mono.
Qed.

Lemma loop_pool n0 conf l boot gs st :
  poolInv n0 st →
  let st' := foldl (groupStep conf l boot) st gs in
  let o := poolPass conf l boot gs (upstreams st) (world st) in
  poolInv n0 st'
  ∧ (∀ a h, upstreams st !! a = Some h → upstreams st' !! a = Some h)
  ∧ (∀ g u, (g, inl u) ∈ o →
       upstreams st' !! Address g = Some u ∧ routedTo st' g u)
  ∧ (∀ a h, upstreams st' !! a = Some h →
       upstreams st !! a = Some h ∨ ∃ g, (g, inl h) ∈ o ∧ Address g = a).
Proof.
  revert st. induction gs as [|g gs IH]; intros st Hinv; simpl.
  { split; [done|]. split; [done|]. split; [|by left].
    by intros g u ?%elem_of_nil. }
  destruct (groupStep_pool conf l boot st g)
    as (r & cache' & w' & Hn & Hcache & Hworld & Hmono & Horig & Hr).
  rewrite Hn.
  destruct (IH (groupStep conf l boot st g)) as (I1 & I2 & I3 & I4).
  { by apply groupStep_poolInv. }
  rewrite Hcache in I2, I3, I4. rewrite Hworld in I3, I4.
  split; [done|]. split; [by auto|]. split.
  - intros g' u [Heq|Hin]%elem_of_cons; [|by apply I3].
    simplify_eq. destruct Hr as [Hc Hrt]. split; [by apply I2|].
    by apply routedTo_loop.
  - intros a h Hh. destruct (I4 _ _ Hh) as [Hc|(g' & Hin & Ha)].
    + destruct (Horig _ _ Hc) as [?|[-> ->]]; [by left|].
      right. exists g. split; [|done]. by apply elem_of_cons; left.
    + right. exists g'. split; [|done]. by apply elem_of_cons; right.
Qed.

Lemma initBuild_poolInv w :
  poolInv (length (upstream.constructed w)) (initBuild w).
Proof.
  split; [|split; [|split]]; simpl; try done.
  - intros a. rewrite drop_all. by rewrite lookup_empty.
  - intros u [(p & c & Hc & Hh)|(c & Hc & _)]; simpl in *; [|done].
    apply lookup_singleton_Some in Hc as [_ <-]. by apply holds_empty in Hh.
Qed.

(** C1, amended.  During [newUpstreams], for every address at most one
    upstream is constructed: exactly one when the construction did not fail
    for some group that references the address, and none when it failed for
    every group that references it.  Every group whose construction did not
    fail is routed, with the upstream that the cache holds for its address,
    into the entries that its name and criteria select (the default
    catch-all list, the private list, the catch-all list or the two domain
    maps of a client entry); two such groups with the same address are
    routed with the same handle, and two handles reachable from the table
    or the private configuration that belong to objects of the same address
    are equal. *)
Theorem one_upstream_per_address conf l boot w :
  let st := newUpstreams_loop conf l boot w in
  let o := poolPass conf l boot (Groups conf) ∅ w in
  let new := constructedDuring w (world st) in
  (∀ a, constructedFor a new ≤ 1)
  ∧ (∀ a, (∃ g u, (g, inl u) ∈ o ∧ Address g = a) → constructedFor a new = 1)
  ∧ (∀ a, (∀ g r, (g, r) ∈ o → Address g = a → ∃ e, r = inr e) →
       constructedFor a new = 0)
  ∧ (∀ g u, (g, inl u) ∈ o →
       upstreams st !! Address g = Some u
       ∧ routedTo st g u
       ∧ ∃ ob, upstream.constructed (world st) !! u = Some ob
               ∧ upstream.obj_addr ob = Address g)
  ∧ (∀ g1 u1 g2 u2, (g1, inl u1) ∈ o → (g2, inl u2) ∈ o →
       Address g1 = Address g2 → u1 = u2)
  ∧ (∀ u1 u2 o1 o2, reachable st u1 → reachable st u2 →
       upstream.constructed (world st) !! u1 = Some o1 →
       upstream.constructed (world st) !! u2 = Some o2 →
       upstream.obj_addr o1 = upstream.obj_addr o2 → u1 = u2).
Proof.
  intros st o new.
  pose proof (loop_pool (length (upstream.constructed w)) conf l boot
                (Groups conf) (initBuild w) (initBuild_poolInv w)) as Hloop.
  change (foldl (groupStep conf l boot) (initBuild w) (Groups conf))
    with st in Hloop.
  change (poolPass conf l boot (Groups conf) (upstreams (initBuild w))
            (world (initBuild w))) with o in Hloop.
  destruct Hloop as ((H1 & H2 & H3 & H4) & _ & Hrouted & Horig).
  assert (∀ a, constructedFor a new
               = match upstreams st !! a with Some _ => 1 | None => 0 end)
    as Hcount by apply H2.
  split; [|split; [|split; [|split; [|split]]]].
  - intros a. rewrite Hcount. destruct (upstreams st !! a); lia.
  - intros a (g & u & Hin & <-). rewrite Hcount.
    by destruct (Hrouted _ _ Hin) as [-> _].
  - intros a Hall. rewrite Hcount.
    destruct (upstreams st !! a) as [h|] eqn:Hh; [|done].
    destruct (Horig _ _ Hh) as [Hc|(g & Hin & Ha)].
    + simpl in Hc. by rewrite lookup_empty in Hc.
    + by destruct (Hall _ _ Hin Ha) as [e ?].
  - intros g u Hin. destruct (Hrouted _ _ Hin) as [Hc Hrt].
    split; [done|]. split; [done|].
    by destruct (H1 _ _ Hc) as (_ & ob & ? & ?); exists ob.
  - intros g1 u1 g2 u2 Hin1 Hin2 Ha.
    destruct (Hrouted _ _ Hin1) as [Hc1 _].
    destruct (Hrouted _ _ Hin2) as [Hc2 _].
    rewrite Ha in Hc1. by simplify_eq.
  - intros u1 u2 o1 o2 Hr1 Hr2 Ho1 Ho2 Ha.
    destruct (H3 _ Hr1) as (a1 & Hc1). destruct (H3 _ Hr2) as (a2 & Hc2).
    destruct (H1 _ _ Hc1) as (_ & o1' & Ho1' & Ha1).
    destruct (H1 _ _ Hc2) as (_ & o2' & Ho2' & Ha2).
    pose proof (eq_trans (eq_sym Ho1') Ho1) as [= ->].
    pose proof (eq_trans (eq_sym Ho2') Ho2) as [= ->].
    subst a1 a2. rewrite Ha in Hc1.
    by pose proof (eq_trans (eq_sym Hc1) Hc2) as [= ->].
Qed.

(** C4.  [newUpstreams] goes through all the groups, whatever fails.  With
    [o] the answers of the pool for the groups of the configuration, in
    order: the table and the private configuration returned are those that
    routing the groups whose construction did not fail, in order and with
    their upstream, builds from the initial table, and each of these groups
    is in the entries that its name and criteria select; a group is in the
    error
    exactly when the constructor refused it, with the error of the
    constructor under the name of the group; the error returned is the
    annotated join of these errors, one for each failed group, in order;
    it is [nil] exactly when no construction failed. *)
Theorem newUpstreams_collects_errors conf l boot w :
  let o := poolPass conf l boot (Groups conf) ∅ w in
  map fst o = Groups conf
  ∧ length (routedOf o) + length (failedOf o) = length (Groups conf)
  ∧ (∀ g e, (g, e) ∈ failedOf o →
       AddressToUpstream_err (Address g) (groupOptions conf l boot g) = Some e)
  ∧ newUpstreams conf l boot w
    = (let t := foldl (λ t p, route p.1 p.2 t)
                  ({[ netip.zeroPrefix := proxy.empty ]}, None) (routedOf o) in
       (t.1, t.2,
        errors.Annotate
          (errors.Join (map (λ p, ErrGroup (Name p.1) p.2) (failedOf o)))
          "creating upstreams: %w"))
  ∧ (∀ g u, (g, u) ∈ routedOf o →
       routedTo (newUpstreams_loop conf l boot w) g u)
  ∧ ((newUpstreams conf l boot w).2 = None ↔ failedOf o = [])
  ∧ (failedOf o ≠ [] →
       (newUpstreams conf l boot w).2
       = Some (ErrAnnotate "creating upstreams: %w"
                 (ErrJoin (map (λ p, ErrGroup (Name p.1) p.2) (failedOf o))))).
Proof.
  intros o.
  destruct (loop_fission conf l boot (Groups conf) (initBuild w)) as [He Ht].
  simpl in He, Ht. fold o in He, Ht.
  assert (newUpstreams conf l boot w
    = (let t := foldl (λ t p, route p.1 p.2 t)
                  ({[ netip.zeroPrefix := proxy.empty ]}, None) (routedOf o) in
       (t.1, t.2,
        errors.Annotate
          (errors.Join (map (λ p, ErrGroup (Name p.1) p.2) (failedOf o)))
          "creating upstreams: %w"))) as Hnew.
  { unfold newUpstreams, newUpstreams_loop. rewrite He. simpl.
    by rewrite <-Ht. }
  split; [apply poolPass_groups|].
  split.
  { rewrite outcomes_length. unfold o.
    by rewrite <-(poolPass_groups conf l boot (Groups conf) ∅ w) at 2;
      rewrite length_map. }
  split.
  { intros g e Hin%elem_of_failedOf. by eapply poolPass_failed. }
  split; [done|]. split.
  { intros g u Hin%elem_of_routedOf.
    pose proof (loop_pool (length (upstream.constructed w)) conf l boot
                  (Groups conf) (initBuild w) (initBuild_poolInv w))
      as (_ & _ & Hrouted & _).
    by destruct (Hrouted g u Hin). }
  rewrite Hnew. simpl. split.
  - destruct (failedOf o); simpl; split; done.
  - destruct (failedOf o); [done|]. done.
Qed.

(** ** A cached upstream has the options of the group that constructed it *)

Lemma firstInv_hit conf l boot done st g errs' calls' t' :
  firstInv conf l boot done st →
  (upstreams st !! Address g = None →
   AddressToUpstream_err (Address g) (groupOptions conf l boot g) ≠ None) →
  firstInv conf l boot (done ++ [g])
    (mkBuild t'.1 t'.2 errs' (upstreams st)
       (upstream.mkWorld (upstream.constructed (world st)) calls')).
Proof.
  intros [J K] Hg. split; simpl.
  - intros a h Hh.
    destruct (J _ _ Hh) as (pre & g0 & post & -> & Ha & Ho & He & Hpre).
    exists pre, g0, (post ++ [g]). by rewrite <-app_assoc.
  - intros g' [Hin| ->%list_elem_of_singleton]%elem_of_app; [by apply K|done].
Qed.

Lemma groupStep_firstInv conf l boot done st g :
  firstInv conf l boot done st →
  firstInv conf l boot (done ++ [g]) (groupStep conf l boot st g).
Proof.
  intros HJK. unfold groupStep.
  destruct (newUpstreamOrCached _ _ _ _) as [[r cache'] w'] eqn:Hn.
  unfold newUpstreamOrCached, AddressToUpstream in Hn.
  destruct (upstreams st !! Address g) as [u0|] eqn:Hc.
  { simplify_eq. destruct (world st) as [cs cl] eqn:Hw.
    pose proof (firstInv_hit conf l boot done st g (errs st) cl
                  (route g u0 (ups st, private st)) HJK) as H.
    rewrite Hw in H. apply H. by rewrite Hc. }
  destruct (AddressToUpstream_err _ _) as [e|] eqn:He; simplify_eq.
  { apply (firstInv_hit conf l boot done st g _ _ (ups st, private st) HJK).
    intros _. by rewrite He. }
  destruct HJK as [J K]. split; simpl.
  - intros a h Hh. destruct (decide (a = Address g)) as [->|Hne].
    + rewrite lookup_insert_eq in Hh. simplify_eq.
      exists done, g, []. split; [done|]. split; [done|].
      split; [by rewrite lookup_app_r, Nat.sub_diag by lia|].
      split; [done|]. intros g' Hin Ha. rewrite <-Ha. apply K; [done|].
      by rewrite Ha.
    + rewrite lookup_insert_ne in Hh by done.
      destruct (J _ _ Hh) as (pre & g0 & post & -> & Ha & Ho & He0 & Hpre).
      exists pre, g0, (post ++ [g]). rewrite <-app_assoc.
      split; [done|]. split; [done|].
      split; [by apply lookup_app_l_Some|]. by split.
  - intros g' [Hin| ->%list_elem_of_singleton]%elem_of_app Hnone.
    + apply K; [done|]. destruct (decide (Address g' = Address g)) as [Heq|Hne].
      * by rewrite Heq, lookup_insert_eq in Hnone.
      * by rewrite lookup_insert_ne in Hnone.
    + by rewrite lookup_insert_eq in Hnone.
Qed.

Lemma loop_firstInv conf l boot gs done st :
  firstInv conf l boot done st →
  firstInv conf l boot (done ++ gs) (foldl (groupStep conf l boot) st gs).
Proof.
  revert done st. induction gs as [|g gs IH]; intros done st H; simpl.
  { by rewrite app_nil_r. }
  replace (done ++ g :: gs) with ((done ++ [g]) ++ gs)
    by (by rewrite <-app_assoc).
  by apply IH, groupStep_firstInv.
Qed.

Lemma initBuild_firstInv conf l boot w :
  firstInv conf l boot [] (initBuild w).
Proof.
  split; simpl.
  - intros a h Hh. by rewrite lookup_empty in Hh.
  - by intros g' ?%elem_of_nil.
Qed.

(** C10.  When the cache has an upstream for the address, the lookup
    returns it whatever options it is given: the answers for two different
    options are equal, and nothing is constructed.  In [newUpstreams], the
    handle that a group gets was constructed with the options (logger
    context of the group name, timeout, bootstrap resolver) of an earlier or
    the same group [g0] of that address, and the construction failed for
    every group of that address before [g0]; when the constructor does not
    look at the logger, no group before [g0] has that address, so [g0] is
    the first group that references the address. *)
Theorem cached_upstream_has_first_options :
  (∀ addr cache u opts1 opts2 w, cache !! addr = Some u →
     newUpstreamOrCached addr cache opts1 w = (inl u, cache, w)
     ∧ newUpstreamOrCached addr cache opts2 w
       = newUpstreamOrCached addr cache opts1 w)
  ∧ (∀ conf l boot w g u,
       (g, inl u) ∈ poolPass conf l boot (Groups conf) ∅ w →
       ∃ pre g0 post,
         Groups conf = pre ++ g0 :: post
         ∧ Address g0 = Address g
         ∧ upstream.constructed (world (newUpstreams_loop conf l boot w)) !! u
           = Some (upstream.mkObject (Address g) (groupOptions conf l boot g0))
         ∧ (∀ g', g' ∈ pre → Address g' = Address g →
              AddressToUpstream_err (Address g) (groupOptions conf l boot g')
              ≠ None)
         ∧ (ignoresLogger → ∀ g', g' ∈ pre → Address g' ≠ Address g)).
Proof.
  split.
  - intros addr cache u opts1 opts2 w Hu.
    by rewrite !(newUpstreamOrCached_hit addr cache _ w u Hu).
  - intros conf l boot w g u Hin.
    pose proof (loop_pool (length (upstream.constructed w)) conf l boot
                  (Groups conf) (initBuild w) (initBuild_poolInv w))
      as (_ & _ & Hrouted & _).
    destruct (Hrouted _ _ Hin) as [Hc _].
    destruct (loop_firstInv conf l boot (Groups conf) [] (initBuild w)
                (initBuild_firstInv conf l boot w)) as [J _].
    destruct (J _ _ Hc) as (pre & g0 & post & Hgs & Ha & Ho & He & Hpre).
    exists pre, g0, post. simpl in Hgs.
    split; [done|]. split; [done|]. split; [done|]. split; [done|].
    intros Hlog g' Hg' Hag'. apply (Hpre g' Hg' Hag').
    by rewrite <-He; apply Hlog.
Qed.

(** ** The bootstrap chain: [newResolvers] *)

Lemma accepted_elem opts i addrs j a :
  (j, a) ∈ accepted opts i addrs ↔
  i ≤ j ∧ addrs !! (j - i) = Some a
  ∧ NewUpstreamResolver_err (AddrPort_String a) opts = None.
Proof.
  revert i. induction addrs as [|a0 addrs IH]; intros i; simpl.
  { split; [by intros ?%elem_of_nil|]. by intros (_ & ? & _). }
  assert ((j, a) ∈ accepted opts (S i) addrs ↔
          i < j ∧ (a0 :: addrs) !! (j - i) = Some a
          ∧ NewUpstreamResolver_err (AddrPort_String a) opts = None) as Htl.
  { rewrite IH. split.
    - intros (Hle & Hl & He). split; [lia|]. split; [|done].
      by replace (j - i) with (S (j - S i)) by lia.
    - intros (Hlt & Hl & He). split; [lia|]. split; [|done].
      by replace (j - i) with (S (j - S i)) in Hl by lia. }
  destruct (NewUpstreamResolver_err (AddrPort_String a0) opts) eqn:He0.
  - rewrite Htl. split; [intros (? & ? & ?); split; [lia|done]|].
    intros (Hle & Hl & He). split; [|done].
    destruct (decide (j = i)) as [->|]; [|lia].
    rewrite Nat.sub_diag in Hl. simpl in Hl. simplify_eq; congruence.
  - rewrite elem_of_cons, Htl. split.
    + intros [Heq|(? & ? & ?)]; [|split; [lia|done]].
      simplify_eq. by rewrite Nat.sub_diag.
    + intros (Hle & Hl & He). destruct (decide (j = i)) as [->|].
      * left. rewrite Nat.sub_diag in Hl. simpl in Hl. by simplify_eq.
      * right. split; [lia|done].
Qed.

Lemma refused_elem opts i addrs j e :
  (j, e) ∈ refused opts i addrs ↔
  i ≤ j ∧ ∃ a, addrs !! (j - i) = Some a
               ∧ NewUpstreamResolver_err (AddrPort_String a) opts = Some e.
Proof.
  revert i. induction addrs as [|a0 addrs IH]; intros i; simpl.
  { split; [by intros ?%elem_of_nil|]. by intros (_ & ? & ? & _). }
  assert ((j, e) ∈ refused opts (S i) addrs ↔
          i < j ∧ ∃ a, (a0 :: addrs) !! (j - i) = Some a
          ∧ NewUpstreamResolver_err (AddrPort_String a) opts = Some e) as Htl.
  { rewrite IH. split.
    - intros (Hle & a & Hl & He). split; [lia|]. exists a. split; [|done].
      by replace (j - i) with (S (j - S i)) by lia.
    - intros (Hlt & a & Hl & He). split; [lia|]. exists a. split; [|done].
      by replace (j - i) with (S (j - S i)) in Hl by lia. }
  destruct (NewUpstreamResolver_err (AddrPort_String a0) opts) as [e0|] eqn:He0.
  - rewrite elem_of_cons, Htl. split.
    + intros [Heq|(? & ?)]; [|split; [lia|done]].
      simplify_eq. split; [done|]. exists a0. by rewrite Nat.sub_diag.
    + intros (Hle & a & Hl & He). destruct (decide (j = i)) as [->|].
      * left. rewrite Nat.sub_diag in Hl. simpl in Hl. simplify_eq; congruence.
      * right. split; [lia|]. by exists a.
  - rewrite Htl. split; [intros (? & ?); split; [lia|done]|].
    intros (Hle & a & Hl & He). split; [|by exists a].
    destruct (decide (j = i)) as [->|]; [|lia].
    rewrite Nat.sub_diag in Hl. simpl in Hl. simplify_eq; congruence.
Qed.

(** The accepted addresses are the input without the refused ones, in the
    order of the input. *)
Lemma accepted_filter opts i addrs :
  map snd (accepted opts i addrs)
  = filter (λ a, NewUpstreamResolver_err (AddrPort_String a) opts = None) addrs.
Proof.
  revert i. induction addrs as [|a addrs IH]; intros i; [done|]. simpl.
  rewrite filter_cons.
  destruct (NewUpstreamResolver_err (AddrPort_String a) opts) eqn:He.
  - rewrite decide_False by done. apply IH.
  - rewrite decide_True by done. simpl. by rewrite IH.
Qed.

Lemma accepted_none opts i addrs :
  (∀ a, a ∈ addrs → NewUpstreamResolver_err (AddrPort_String a) opts ≠ None) →
  accepted opts i addrs = [].
Proof.
  revert i. induction addrs as [|a addrs IH]; intros i Hall; [done|]. simpl.
  destruct (NewUpstreamResolver_err (AddrPort_String a) opts) eqn:He.
  - apply IH. intros a' Ha'. apply Hall. by apply elem_of_cons; right.
  - exfalso. apply (Hall a); [by apply elem_of_cons; left|done].
Qed.

Lemma resolversLoop_spec opts i addrs st :
  let st' := resolversLoop opts i addrs st in
  let acc := accepted opts i addrs in
  let handles := seq (length (upstream.constructed (rworld st))) (length acc) in
  closers st' = closers st ++ handles
  ∧ resolvers st'
    = resolvers st
      ++ map (λ h, upstream.CachingResolver (upstream.mkUpstreamResolver h))
           handles
  ∧ rerrs st'
    = rerrs st ++ map (λ p, ErrIndex p.1 p.2) (refused opts i addrs)
  ∧ upstream.constructed (rworld st')
    = upstream.constructed (rworld st)
      ++ map (λ p, upstream.mkObject (AddrPort_String p.2) opts) acc
  ∧ upstream.calls (rworld st')
    = upstream.calls (rworld st)
      ++ map (λ a, (AddrPort_String a, opts)) addrs.
Proof.
  revert i st. induction addrs as [|a addrs IH]; intros i st; simpl.
  { by rewrite !app_nil_r. }
  destruct (IH (S i) (resolverStep opts st i a)) as (I1 & I2 & I3 & I4 & I5).
  rewrite I1, I2, I3, I4, I5. clear I1 I2 I3 I4 I5 IH.
  unfold resolverStep, NewUpstreamResolver.
  destruct (NewUpstreamResolver_err (AddrPort_String a) opts) eqn:He; simpl.
  - by rewrite <-!app_assoc.
  - rewrite length_app, Nat.add_1_r. simpl. by rewrite <-!app_assoc.
Qed.

(** C6.  With [acc] the addresses that the resolver constructor accepts and
    [rej] those that it refuses, each with its index in the input and both
    in the order of the input: [newResolvers] constructs one upstream for
    each accepted address, in order; the chain is the list of the caching
    resolvers of these upstreams, in order, and the closers are these
    upstreams, in order, so both lists have the length of [acc]; the error
    is the annotated join of the errors of the refused addresses, each under
    its index; a refused address leaves nothing else.  When every address
    is refused, the chain and the list of closers are empty. *)
Theorem newResolvers_spec conf l w :
  let opts := bootstrapOptions conf l in
  let addrs := bootstrap.Addresses conf in
  let acc := accepted opts 0 addrs in
  let rej := refused opts 0 addrs in
  let handles := seq (length (upstream.constructed w)) (length acc) in
  newResolvers conf l w
  = (upstream.ConsequentResolver
       (map (λ h, upstream.CachingResolver (upstream.mkUpstreamResolver h))
          handles),
     handles,
     errors.Annotate (errors.Join (map (λ p, ErrIndex p.1 p.2) rej))
       "creating bootstraps: %w")
  ∧ upstream.constructed (rworld (newResolvers_loop conf l w))
    = upstream.constructed w
      ++ map (λ p, upstream.mkObject (AddrPort_String p.2) opts) acc
  ∧ map snd acc
    = filter (λ a, NewUpstreamResolver_err (AddrPort_String a) opts = None)
        addrs
  ∧ (∀ i a, (i, a) ∈ acc ↔
       addrs !! i = Some a
       ∧ NewUpstreamResolver_err (AddrPort_String a) opts = None)
  ∧ (∀ i e, (i, e) ∈ rej ↔
       ∃ a, addrs !! i = Some a
            ∧ NewUpstreamResolver_err (AddrPort_String a) opts = Some e)
  ∧ length (resolvers (newResolvers_loop conf l w))
    = length (closers (newResolvers_loop conf l w))
  ∧ ((∀ a, a ∈ addrs →
        NewUpstreamResolver_err (AddrPort_String a) opts ≠ None) →
     (newResolvers conf l w).1 = (upstream.ConsequentResolver [], [])).
Proof.
  intros opts addrs acc rej handles.
  destruct (resolversLoop_spec opts 0 addrs (mkChain [] [] [] w))
    as (H1 & H2 & H3 & H4 & _).
  simpl in H1, H2, H3, H4. fold acc rej handles in H1, H2, H3, H4.
  assert (newResolvers conf l w
    = (upstream.ConsequentResolver
         (map (λ h, upstream.CachingResolver (upstream.mkUpstreamResolver h))
            handles),
       handles,
       errors.Annotate (errors.Join (map (λ p, ErrIndex p.1 p.2) rej))
         "creating bootstraps: %w")) as Hnew.
  { unfold newResolvers, newResolvers_loop. fold opts addrs.
    by rewrite H1, H2, H3. }
  split; [done|]. split; [done|]. split; [apply accepted_filter|].
  split.
  { intros i a. unfold acc. rewrite accepted_elem, Nat.sub_0_r.
    split; [by intros (_ & ? & ?)|]. intros [? ?]. split; [lia|done]. }
  split.
  { intros i e. unfold rej. rewrite refused_elem, Nat.sub_0_r.
    split; [by intros (_ & ?)|]. intros ?. split; [lia|done]. }
  split.
  { unfold newResolvers_loop. fold opts addrs.
    by rewrite H1, H2, length_map. }
  intros Hall. rewrite Hnew. simpl. unfold handles, acc.
  by rewrite accepted_none.
Qed.

(** ** The bind retry executor *)

Lemma bindCount_retries interval n k :
  bindCount (flat_map (λ i, [Sleep interval; Bind i]) (seq n k)) = k.
Proof. revert n. induction k as [|k IH]; intros n; simpl; [done|]. by rewrite IH. Qed.

Lemma bindCount_attemptsUpTo interval k :
  bindCount (attemptsUpTo interval k) = k + 1.
Proof. unfold attemptsUpTo. simpl. rewrite bindCount_retries. lia. Qed.

Lemma retryLoop_all_fail bind interval left n lastErr :
  (∀ j, n < j ≤ n + left → bind j ≠ None) →
  retryLoop bind interval left n lastErr
  = (match left with 0 => Some lastErr | S _ => bind (n + left) end,
     flat_map (λ i, [Sleep interval; Bind i]) (seq (S n) left)).
Proof.
  revert n lastErr. induction left as [|left IH]; intros n lastErr Hall; [done|].
  simpl. destruct (bind (S n)) as [e|] eqn:He.
  - rewrite IH by (intros j Hj; apply Hall; lia).
    destruct left as [|left'].
    + by rewrite Nat.add_1_r, He.
    + by replace (S n + S left') with (n + S (S left')) by lia.
  - exfalso. apply (Hall (S n)); [lia|done].
Qed.

Lemma retryLoop_success bind interval left n lastErr k :
  n < k ≤ n + left →
  bind k = None →
  (∀ j, n < j < k → bind j ≠ None) →
  retryLoop bind interval left n lastErr
  = (None, flat_map (λ i, [Sleep interval; Bind i]) (seq (S n) (k - n))).
Proof.
  revert n lastErr. induction left as [|left IH]; intros n lastErr Hk Hok Hbefore.
  { lia. }
  simpl. destruct (decide (k = S n)) as [->|Hne].
  - rewrite Hok. by replace (S n - n) with 1 by lia.
  - destruct (bind (S n)) as [e|] eqn:He.
    + rewrite (IH (S n) e) by (try done; try lia; intros j Hj; apply Hbefore; lia).
      by replace (k - n) with (S (k - S n)) by lia.
    + exfalso. apply (Hbefore (S n)); [lia|done].
Qed.

(** C8.  The bind retry executor.  With retry disabled, [bind] is called
    once and its result is returned as it is, whatever the count.  With
    retry enabled and a [bind] that fails at every call, [bind] is called
    [count + 1] times, with one sleep of the configured interval before
    each call but the first, and the error returned is that of the last
    call.  If the call number [k] is the first to succeed (and it is made:
    [k] is [0], or retry is enabled and [k] is at most [count]), success is
    returned and the call number [k] is the last one.  [toInternal] hands
    the three settings over unchanged. *)
Theorem bindWithRetry_spec bind conf :
  (dnssvc.Enabled conf = false →
     bindWithRetry bind conf = (bind 0, [Bind 0]))
  ∧ (dnssvc.Enabled conf = true → (∀ n, bind n ≠ None) →
       bindWithRetry bind conf
       = (bind (dnssvc.Count conf),
          attemptsUpTo (dnssvc.Interval conf) (dnssvc.Count conf))
       ∧ bindCount (bindWithRetry bind conf).2 = dnssvc.Count conf + 1)
  ∧ (∀ k, bind k = None → (∀ j, j < k → bind j ≠ None) →
       k = 0 ∨ (dnssvc.Enabled conf = true ∧ k ≤ dnssvc.Count conf) →
       bindWithRetry bind conf = (None, attemptsUpTo (dnssvc.Interval conf) k)
       ∧ bindCount (bindWithRetry bind conf).2 = k + 1)
  ∧ (∀ c, dnssvc.Enabled (cmd.toInternal c) = cmd.Enabled c
          ∧ dnssvc.Interval (cmd.toInternal c) = cmd.Interval c
          ∧ dnssvc.Count (cmd.toInternal c) = cmd.Count c).
Proof.
  split; [|split; [|split]].
  - intros Hoff. unfold bindWithRetry. rewrite Hoff. by destruct (bind 0).
  - intros Hon Hall.
    assert (bindWithRetry bind conf
            = (bind (dnssvc.Count conf),
               attemptsUpTo (dnssvc.Interval conf) (dnssvc.Count conf))) as Heq.
    { unfold bindWithRetry. rewrite Hon.
      destruct (bind 0) as [e|] eqn:He; [|by destruct (Hall 0)].
      rewrite retryLoop_all_fail by (intros; apply Hall).
      unfold attemptsUpTo. destruct (dnssvc.Count conf); [by rewrite He|done]. }
    split; [done|]. rewrite Heq. apply bindCount_attemptsUpTo.
  - intros k Hok Hbefore Hk.
    assert (bindWithRetry bind conf
            = (None, attemptsUpTo (dnssvc.Interval conf) k)) as Heq.
    { unfold bindWithRetry. destruct (decide (k = 0)) as [->|Hne].
      { by rewrite Hok. }
      destruct Hk as [?|[Hon Hle]]; [done|]. rewrite Hon.
      destruct (bind 0) as [e|] eqn:He.
      - rewrite (retryLoop_success _ _ _ _ _ k) by (try done; try lia;
          intros j Hj; apply Hbefore; lia).
        unfold attemptsUpTo. by rewrite Nat.sub_0_r.
      - exfalso. apply (Hbefore 0); [lia|done]. }
    split; [done|]. rewrite Heq. apply bindCount_attemptsUpTo.
  - by intros [].
Qed.

(* =================================================================== *)
(** * Further properties of [newUpstreams] and [newResolvers]           *)
(* =================================================================== *)

(** ** The lists of the table, entry by entry *)

Lemma addMatch_catchAll u t m p :
  catchAll (addMatch u t m) p
  = catchAll t p
    ++ (if decide (Client m = p ∧ QuestionDomain m = "") then [u] else []).
Proof.
  unfold catchAll. destruct (decide (p = Client m)) as [->|Hp].
  - destruct (decide (QuestionDomain m = "")) as [Hd|Hd].
    + rewrite addMatch_catch_all by done. by rewrite decide_True.
    + rewrite addMatch_domain by done.
      rewrite decide_False by (by intros [_ ?]). simpl. by rewrite app_nil_r.
  - rewrite addMatch_other by done.
    rewrite decide_False by (by intros [? _]). by rewrite app_nil_r.
Qed.

Lemma foldl_addMatch_catchAll u ms t p :
  catchAll (foldl (addMatch u) t ms) p
  = catchAll t p
    ++ flat_map (λ m, if decide (Client m = p ∧ QuestionDomain m = "")
                      then [u] else []) ms.
Proof.
  revert t. induction ms as [|m ms IH]; intros t; simpl.
  { by rewrite app_nil_r. }
  by rewrite IH, addMatch_catchAll, <-app_assoc.
Qed.

Lemma foldl_addMatch_dom u ms (t : upstreamConfigs) :
  dom (foldl (addMatch u) t ms) = dom t ∪ list_to_set (map Client ms).
Proof.
  revert t. induction ms as [|m ms IH]; intros t; simpl.
  { by rewrite (right_id_L ∅ (∪)). }
  rewrite IH.
  assert (dom (addMatch u t m) = dom t ∪ {[Client m]}) as ->.
  { unfold addMatch.
    destruct (decide (QuestionDomain m = "")); rewrite dom_insert_L;
      apply (comm_L (∪)). }
  by rewrite (assoc_L (∪)).
Qed.

Lemma route_catchAll g u t p :
  catchAll (route g u t).1 p = catchAll t.1 p ++ catchAllOf p (g, u).
Proof.
  unfold route, catchAllOf. simpl.
  destruct (decide (Name g = agdc.UpstreamGroupNameDefault)); simpl.
  { unfold catchAll. destruct (decide (p = netip.zeroPrefix)) as [->|Hp].
    - by rewrite lookup_insert_eq.
    - rewrite lookup_insert_ne by done. by rewrite app_nil_r. }
  destruct (decide (Name g = agdc.UpstreamGroupNamePrivate)); simpl.
  { by rewrite app_nil_r. }
  apply foldl_addMatch_catchAll.
Qed.

Lemma route_domainAt g u t p k :
  reservedAt (route g u t).1 p k = reservedAt t.1 p k ++ domainOf p k (g, u)
  ∧ specifiedAt (route g u t).1 p k
    = specifiedAt t.1 p k ++ domainOf p k (g, u).
Proof.
  unfold route, domainOf. simpl.
  destruct (decide (Name g = agdc.UpstreamGroupNameDefault)); simpl.
  { unfold reservedAt, specifiedAt.
    destruct (decide (p = netip.zeroPrefix)) as [->|Hp].
    - rewrite lookup_insert_eq. simpl. by rewrite !app_nil_r.
    - rewrite lookup_insert_ne by done. by rewrite !app_nil_r. }
  destruct (decide (Name g = agdc.UpstreamGroupNamePrivate)); simpl.
  { by rewrite !app_nil_r. }
  apply foldl_addMatch_domainAt.
Qed.

Lemma route_private g u t :
  proxy.Upstreams (default proxy.empty (route g u t).2)
  = proxy.Upstreams (default proxy.empty t.2) ++ privateOf (g, u)
  ∧ ((route g u t).2 = None ↔ t.2 = None ∧ privateOf (g, u) = [])
  ∧ (balancedNone t.2 → balancedNone (route g u t).2).
Proof.
  unfold route, privateOf, balancedNone. simpl.
  destruct (decide (Name g = agdc.UpstreamGroupNameDefault)); simpl.
  { rewrite app_nil_r. split; [done|]. split; [|done].
    split; [by intros ->|by intros [-> _]]. }
  destruct (decide (Name g = agdc.UpstreamGroupNamePrivate)); simpl.
  { split; [done|]. split; [by split; [|intros [_ ?]]|].
    intros H. destruct t.2 as [c|]; simpl; [apply H|done]. }
  rewrite app_nil_r. split; [done|]. split; [|done].
  split; [by intros ->|by intros [-> _]].
Qed.

Lemma route_dom g u t :
  netip.zeroPrefix ∈ dom t.1 →
  dom (route g u t).1 = dom t.1 ∪ list_to_set (clientsOf (g, u)).
Proof.
  intros Hz. unfold route, clientsOf. simpl.
  destruct (decide (Name g = agdc.UpstreamGroupNameDefault)); simpl.
  { rewrite dom_insert_L, (right_id_L ∅ (∪)).
    apply (anti_symm (⊆)); [|apply union_subseteq_r].
    apply union_least; [by apply singleton_subseteq_l|done]. }
  destruct (decide (Name g = agdc.UpstreamGroupNamePrivate)); simpl.
  { by rewrite (right_id_L ∅ (∪)). }
  apply foldl_addMatch_dom.
Qed.

Lemma routeAll_lists rs t p k :
  catchAll (routeAll rs t).1 p = catchAll t.1 p ++ flat_map (catchAllOf p) rs
  ∧ reservedAt (routeAll rs t).1 p k
    = reservedAt t.1 p k ++ flat_map (domainOf p k) rs
  ∧ specifiedAt (routeAll rs t).1 p k
    = specifiedAt t.1 p k ++ flat_map (domainOf p k) rs.
Proof.
  unfold routeAll. revert t. induction rs as [|[g u] rs IH]; intros t; simpl.
  { by rewrite !app_nil_r. }
  destruct (IH (route g u t)) as (-> & -> & ->).
  rewrite route_catchAll.
  destruct (route_domainAt g u t p k) as [-> ->].
  by rewrite <-!app_assoc.
Qed.

Lemma routeAll_private rs t :
  proxy.Upstreams (default proxy.empty (routeAll rs t).2)
  = proxy.Upstreams (default proxy.empty t.2) ++ flat_map privateOf rs
  ∧ ((routeAll rs t).2 = None ↔ t.2 = None ∧ flat_map privateOf rs = [])
  ∧ (balancedNone t.2 → balancedNone (routeAll rs t).2).
Proof.
  unfold routeAll. revert t. induction rs as [|[g u] rs IH]; intros t; simpl.
  { rewrite app_nil_r. split; [done|]. split; [|done].
    split; [by intros ->|by intros [-> _]]. }
  destruct (IH (route g u t)) as (-> & -> & Hb).
  destruct (route_private g u t) as (-> & Hn & Hb').
  split; [by rewrite <-app_assoc|]. split; [|by auto].
  rewrite Hn. split.
  - intros [[? Hp] Hrs]. split; [done|]. by rewrite Hp.
  - intros [? [Hp Hrs]%app_eq_nil]. by split; [split|].
Qed.

Lemma routeAll_dom rs t :
  netip.zeroPrefix ∈ dom t.1 →
  dom (routeAll rs t).1 = dom t.1 ∪ list_to_set (flat_map clientsOf rs).
Proof.
  unfold routeAll. revert t. induction rs as [|[g u] rs IH]; intros t Hz; simpl.
  { by rewrite (right_id_L ∅ (∪)). }
  rewrite IH.
  - rewrite route_dom by done. rewrite list_to_set_app_L.
    by rewrite (assoc_L (∪)).
  - rewrite route_dom by done. by apply elem_of_union_l.
Qed.

Lemma newUpstreams_routeAll conf l boot w :
  (ups (newUpstreams_loop conf l boot w),
   private (newUpstreams_loop conf l boot w))
  = routeAll (routedOf (poolPass conf l boot (Groups conf) ∅ w))
      ({[ netip.zeroPrefix := proxy.empty ]}, None).
Proof.
  destruct (loop_fission conf l boot (Groups conf) (initBuild w)) as [_ Ht].
  exact Ht.
Qed.

Lemma catchAll_init p k :
  catchAll {[ netip.zeroPrefix := proxy.empty ]} p = []
  ∧ reservedAt {[ netip.zeroPrefix := proxy.empty ]} p k = []
  ∧ specifiedAt {[ netip.zeroPrefix := proxy.empty ]} p k = [].
Proof.
  unfold catchAll, reservedAt, specifiedAt.
  destruct (decide (p = netip.zeroPrefix)) as [->|Hp].
  - by rewrite lookup_singleton_eq.
  - by rewrite lookup_singleton_ne.
Qed.

(** X1.  The catch-all list that the table of [newUpstreams] has for a
    client prefix is the list, in the order of the configuration, of what
    the groups whose construction did not fail add to it: the upstream of a
    default group (for the zero prefix), and the upstream of another
    non-private group once for each of its criteria with that client and
    without a domain suffix.  Nothing is left out, reordered or merged: an
    upstream that is added twice is in the list twice. *)
Theorem catch_all_lists_in_order conf l boot w p :
  catchAll (ups (newUpstreams_loop conf l boot w)) p
  = flat_map (catchAllOf p)
      (routedOf (poolPass conf l boot (Groups conf) ∅ w)).
Proof.
  pose proof (newUpstreams_routeAll conf l boot w) as Heq.
  apply (f_equal fst) in Heq. simpl in Heq. rewrite Heq.
  destruct (routeAll_lists
              (routedOf (poolPass conf l boot (Groups conf) ∅ w))
              ({[ netip.zeroPrefix := proxy.empty ]}, None) p "")
    as (-> & _ & _).
  simpl. by destruct (catchAll_init p "") as (-> & _ & _).
Qed.

(** X2.  The list that each of the two domain maps of the table has for a
    client prefix and a key is the list, in the order of the configuration,
    of the upstreams of the groups, neither default nor private, whose
    construction did not fail, once for each criterion with that client and
    a domain suffix that normalizes to the key.  The criteria of a default
    or private group are never looked at. *)
Theorem domain_lists_in_order conf l boot w p k :
  reservedAt (ups (newUpstreams_loop conf l boot w)) p k
  = flat_map (domainOf p k)
      (routedOf (poolPass conf l boot (Groups conf) ∅ w))
  ∧ specifiedAt (ups (newUpstreams_loop conf l boot w)) p k
    = flat_map (domainOf p k)
        (routedOf (poolPass conf l boot (Groups conf) ∅ w)).
Proof.
  pose proof (newUpstreams_routeAll conf l boot w) as Heq.
  apply (f_equal fst) in Heq. simpl in Heq. rewrite Heq.
  destruct (routeAll_lists
              (routedOf (poolPass conf l boot (Groups conf) ∅ w))
              ({[ netip.zeroPrefix := proxy.empty ]}, None) p k)
    as (_ & -> & ->).
  simpl. by destruct (catchAll_init p k) as (_ & -> & ->).
Qed.

(** X3.  The client prefixes that have an entry in the table of
    [newUpstreams] are the zero prefix and the clients of the criteria of
    the groups, neither default nor private, whose construction did not
    fail; a failed group creates no entry. *)
Theorem table_keys conf l boot w :
  dom (ups (newUpstreams_loop conf l boot w))
  = {[ netip.zeroPrefix ]}
    ∪ list_to_set
        (flat_map clientsOf
           (routedOf (poolPass conf l boot (Groups conf) ∅ w))).
Proof.
  pose proof (newUpstreams_routeAll conf l boot w) as Heq.
  apply (f_equal fst) in Heq. simpl in Heq. rewrite Heq.
  rewrite routeAll_dom; simpl.
  - by rewrite dom_singleton_L.
  - rewrite dom_singleton_L. by apply elem_of_singleton.
Qed.

(** X4.  The private configuration that [newUpstreams] returns is [nil]
    exactly when no private group was constructed; otherwise its list is the
    upstreams of the private groups whose construction did not fail, in the
    order of the configuration, and its two domain maps are [nil]. *)
Theorem private_configuration conf l boot w :
  let st := newUpstreams_loop conf l boot w in
  let routed := routedOf (poolPass conf l boot (Groups conf) ∅ w) in
  (private st = None ↔ flat_map privateOf routed = [])
  ∧ (∀ c, private st = Some c →
       proxy.Upstreams c = flat_map privateOf routed
       ∧ proxy.DomainReservedUpstreams c = None
       ∧ proxy.SpecifiedDomainUpstreams c = None).
Proof.
  intros st routed.
  pose proof (newUpstreams_routeAll conf l boot w) as Heq.
  apply (f_equal snd) in Heq. simpl in Heq. fold st routed in Heq.
  destruct (routeAll_private routed
              ({[ netip.zeroPrefix := proxy.empty ]}, None))
    as (Hlist & Hnone & Hbal).
  rewrite <-Heq in Hlist, Hnone, Hbal. simpl in Hlist, Hnone, Hbal.
  split.
  - rewrite Hnone. by split; [intros [_ ?]|].
  - intros c Hc. rewrite Hc in Hlist, Hbal. simpl in Hlist.
    split; [done|]. by apply Hbal.
Qed.

(** ** The calls of the constructor *)

Lemma groupStep_counts conf l boot st g :
  let st' := groupStep conf l boot st g in
  length (upstream.calls (world st')) + length (errs st)
    + length (upstream.constructed (world st))
  = length (upstream.calls (world st)) + length (errs st')
    + length (upstream.constructed (world st'))
  ∧ size (upstreams st') + length (upstream.constructed (world st))
    = size (upstreams st) + length (upstream.constructed (world st'))
  ∧ length (upstream.calls (world st'))
    ≤ S (length (upstream.calls (world st))).
Proof.
  unfold groupStep.
  destruct (newUpstreamOrCached _ _ _ _) as [[r cache'] w'] eqn:Hn.
  unfold newUpstreamOrCached, AddressToUpstream in Hn.
  destruct (upstreams st !! Address g) as [u0|] eqn:Hc.
  { simplify_eq. simpl. lia. }
  destruct (AddressToUpstream_err _ _) eqn:He; simplify_eq; simpl.
  - rewrite !length_app. simpl. lia.
  - rewrite !length_app, map_size_insert_None by done. simpl. lia.
Qed.

Lemma loop_counts conf l boot gs st :
  let st' := foldl (groupStep conf l boot) st gs in
  length (upstream.calls (world st')) + length (errs st)
    + length (upstream.constructed (world st))
  = length (upstream.calls (world st)) + length (errs st')
    + length (upstream.constructed (world st'))
  ∧ size (upstreams st') + length (upstream.constructed (world st))
    = size (upstreams st) + length (upstream.constructed (world st'))
  ∧ length (upstream.calls (world st'))
    ≤ length (upstream.calls (world st)) + length gs.
Proof.
  revert st. induction gs as [|g gs IH]; intros st; simpl.
  { lia. }
  destruct (IH (groupStep conf l boot st g)) as (I1 & I2 & I3).
  destruct (groupStep_counts conf l boot st g) as (S1 & S2 & S3).
  simpl in S1, S2, S3. lia.
Qed.

(** X5.  During [newUpstreams] the constructor is called once for each
    group whose construction fails and once for each upstream that is
    constructed, and never otherwise: a group that finds its address in the
    cache makes no call, and an address that the constructor refuses is
    tried again for every group that references it.  The upstreams
    constructed are as many as the addresses in the cache, and the calls are
    at most as many as the groups. *)
Theorem constructor_calls conf l boot w :
  let st := newUpstreams_loop conf l boot w in
  let o := poolPass conf l boot (Groups conf) ∅ w in
  length (upstream.calls (world st))
  = length (upstream.calls w) + length (failedOf o)
    + length (constructedDuring w (world st))
  ∧ length (constructedDuring w (world st)) = size (upstreams st)
  ∧ length (upstream.calls (world st))
    ≤ length (upstream.calls w) + length (Groups conf).
Proof.
  intros st o.
  destruct (loop_counts conf l boot (Groups conf) (initBuild w))
    as (H1 & H2 & H3).
  destruct (loop_fission conf l boot (Groups conf) (initBuild w)) as [He _].
  apply (f_equal length) in He. simpl in He, H1, H2, H3.
  rewrite length_map in He. rewrite map_size_empty in H2.
  change (foldl (groupStep conf l boot) (initBuild w) (Groups conf))
    with st in He, H1, H2, H3. fold o in He.
  unfold constructedDuring. rewrite length_drop. lia.
Qed.

(** ** The closers of [newResolvers] *)

Lemma accepted_refused_length opts i addrs :
  length (accepted opts i addrs) + length (refused opts i addrs)
  = length addrs.
Proof.
  revert i. induction addrs as [|a addrs IH]; intros i; simpl; [done|].
  specialize (IH (S i)).
  destruct (NewUpstreamResolver_err (AddrPort_String a) opts); simpl; lia.
Qed.

Lemma refused_nil opts i addrs :
  refused opts i addrs = [] ↔
  ∀ a, a ∈ addrs → NewUpstreamResolver_err (AddrPort_String a) opts = None.
Proof.
  revert i. induction addrs as [|a addrs IH]; intros i; simpl.
  { split; [by intros _ a ?%elem_of_nil|done]. }
  destruct (NewUpstreamResolver_err (AddrPort_String a) opts) eqn:He.
  - split; [done|]. intros Hall.
    specialize (Hall a (list_elem_of_here _ _)). congruence.
  - rewrite IH. split.
    + intros Hall a' [->|Hin]%elem_of_cons; [done|by apply Hall].
    + intros Hall a' Hin. apply Hall. by apply list_elem_of_further.
Qed.

(** X6.  The closers that [newResolvers] returns are pairwise different
    upstreams, all constructed during the call, one for each accepted
    address in the order of the input: the closer number [j] is the
    upstream constructed for the accepted address number [j].  Unlike
    [newUpstreams], nothing is shared: an address that is listed twice gets
    two upstreams.  The constructor is called exactly once for each address
    of the input, in order, always with the same options. *)
Theorem closers_distinct conf l w :
  let st := newResolvers_loop conf l w in
  let opts := bootstrapOptions conf l in
  let ok :=
    filter (λ a, NewUpstreamResolver_err (AddrPort_String a) opts = None)
      (bootstrap.Addresses conf) in
  NoDup (closers st)
  ∧ length (closers st) = length ok
  ∧ (∀ j h, closers st !! j = Some h →
       length (upstream.constructed w) ≤ h
       ∧ ∃ a, ok !! j = Some a
              ∧ upstream.constructed (rworld st) !! h
                = Some (upstream.mkObject (AddrPort_String a) opts))
  ∧ upstream.calls (rworld st)
    = upstream.calls w
      ++ map (λ a, (AddrPort_String a, opts)) (bootstrap.Addresses conf).
Proof.
  intros st opts ok.
  destruct (resolversLoop_spec opts 0 (bootstrap.Addresses conf)
              (mkChain [] [] [] w)) as (H1 & _ & _ & H4 & H5).
  simpl in H1, H4, H5.
  change (resolversLoop opts 0 (bootstrap.Addresses conf) (mkChain [] [] [] w))
    with st in H1, H4, H5.
  pose proof (accepted_filter opts 0 (bootstrap.Addresses conf)) as Hok.
  fold ok in Hok.
  assert (length (accepted opts 0 (bootstrap.Addresses conf)) = length ok)
    as Hlen by (by rewrite <-Hok, length_map).
  split; [rewrite H1; apply NoDup_seq|].
  split; [by rewrite H1, length_seq|].
  split; [|done].
  intros j h Hj. rewrite H1 in Hj. apply lookup_seq in Hj as [-> Hlt].
  split; [lia|].
  destruct (lookup_lt_is_Some_2 (accepted opts 0 (bootstrap.Addresses conf)) j Hlt)
    as [[i a] Hacc].
  exists a. split.
  - rewrite <-Hok, list_lookup_fmap, Hacc. done.
  - rewrite H4, lookup_app_r by lia.
    replace (length (upstream.constructed w) + j
             - length (upstream.constructed w)) with j by lia.
    by rewrite list_lookup_fmap, Hacc.
Qed.

(** X7.  [newResolvers] returns a [nil] error exactly when the constructor
    accepts every address; the resolvers of the chain and the errors
    collected are together as many as the addresses, so every address gives
    either a resolver or an error, never both and never neither. *)
Theorem newResolvers_error conf l w :
  let st := newResolvers_loop conf l w in
  ((newResolvers conf l w).2 = None ↔
     ∀ a, a ∈ bootstrap.Addresses conf →
       NewUpstreamResolver_err (AddrPort_String a) (bootstrapOptions conf l)
       = None)
  ∧ length (resolvers st) + length (rerrs st)
    = length (bootstrap.Addresses conf).
Proof.
  intros st.
  destruct (resolversLoop_spec (bootstrapOptions conf l) 0
              (bootstrap.Addresses conf) (mkChain [] [] [] w))
    as (_ & H2 & H3 & _).
  simpl in H2, H3.
  change (resolversLoop (bootstrapOptions conf l) 0 (bootstrap.Addresses conf)
            (mkChain [] [] [] w)) with st in H2, H3.
  split.
  - rewrite <-refused_nil with (i := 0).
    unfold newResolvers. fold st. simpl. rewrite H3.
    destruct (refused _ _ _); simpl; by split.
  - rewrite H2, H3, !length_map, length_seq.
    apply accepted_refused_length.
Qed.

End dnssvc.

(* ===================================================================== *)
(** * Properties of package [cmd]                                          *)
(* ===================================================================== *)

(** ** Validation of the server configuration *)

Lemma AppendSlice_from_spec {T : Type} (V : T → option goError) errs name i vs :
  ∃ new,
    validate.AppendSlice_from V errs name i vs = errs ++ new
    ∧ (∀ e, e ∈ new ↔
         ∃ j v e', vs !! j = Some v ∧ V v = Some e'
                   ∧ e = AtIndex name (i + j) e')
    ∧ (new = [] ↔ ∀ v, v ∈ vs → V v = None).
Proof.
  revert errs i. induction vs as [|v vs IH]; intros errs i; simpl.
  { exists []. rewrite app_nil_r. split; [done|]. split.
    - intros e. split; [by intros ?%elem_of_nil|]. by intros (j & ? & ? & ? & _).
    - split; [by intros _ ? ?%elem_of_nil|done]. }
  destruct (V v) as [e0|] eqn:Hv.
  - destruct (IH (errs ++ [AtIndex name i e0]) (S i)) as (new & Heq & Hin & Hnil).
    exists (AtIndex name i e0 :: new). rewrite Heq, <-app_assoc.
    split; [done|]. split.
    + intros e. rewrite elem_of_cons, Hin. split.
      * intros [->|(j & v' & e' & Hj & Hv' & ->)].
        -- exists 0, v, e0. by rewrite Nat.add_0_r.
        -- exists (S j), v', e'. split; [done|]. split; [done|].
           f_equal. lia.
      * intros ([|j] & v' & e' & Hj & Hv' & ->); simpl in Hj.
        -- left. simplify_eq. by rewrite Nat.add_0_r.
        -- right. exists j, v', e'. split; [done|]. split; [done|].
           f_equal. lia.
    + split; [done|]. intros Hall.
      specialize (Hall v (list_elem_of_here _ _)). congruence.
  - destruct (IH errs (S i)) as (new & Heq & Hin & Hnil).
    exists new. split; [done|]. split.
    + intros e. rewrite Hin. split.
      * intros (j & v' & e' & Hj & Hv' & ->).
        exists (S j), v', e'. split; [done|]. split; [done|]. f_equal. lia.
      * intros ([|j] & v' & e' & Hj & Hv' & ->); simpl in Hj.
        -- simplify_eq.
        -- exists j, v', e'. split; [done|]. split; [done|]. f_equal. lia.
    + rewrite Hnil. split.
      * intros Hall v' [->|Hin']%elem_of_cons; [done|by apply Hall].
      * intros Hall v' Hin'. apply Hall. by apply list_elem_of_further.
Qed.

Lemma bindRetryConfig_Validate_None c :
  cmd_server.bindRetryConfig_Validate c = None ↔
  ∃ r, c = Some r ∧ (cmd.Enabled r = false ∨ (0 < cmd.Interval r)%Z).
Proof.
  unfold cmd_server.bindRetryConfig_Validate, validate.Positive.
  destruct c as [r|]; [|split; [done|by intros (? & ? & _)]].
  destruct (cmd.Enabled r) eqn:He; simpl.
  - destruct (0 <? cmd.Interval r)%Z eqn:Hi.
    + apply Z.ltb_lt in Hi. split; [|done]. intros _. exists r. by split; [|right].
    + apply Z.ltb_ge in Hi. split; [done|].
      intros (r' & [= <-] & [?|?]); [congruence|lia].
  - split; [|done]. intros _. exists r. by split; [|left].
Qed.

(** X8.  [Validate] of a server configuration that is not [nil] returns
    [nil] exactly when every listen address validates, the retry
    configuration is there and it is disabled or has a positive interval.
    An empty list of listen addresses is accepted, a missing retry
    configuration is not, and the count of retries is never looked at.  When
    it fails, the error joins one error for each listen address that does not
    validate, under the index of the address, and after them the error of the
    retry configuration, if any. *)
Theorem serverConfig_Validate_spec
    (ipPortConfig_Validate : option cmd_server.ipPortConfig → option goError)
    (c : cmd_server.serverConfig) :
  (cmd_server.serverConfig_Validate ipPortConfig_Validate (Some c) = None ↔
     (∀ a, a ∈ cmd_server.ListenAddresses c → ipPortConfig_Validate a = None)
     ∧ ∃ r, cmd_server.BindRetry c = Some r
            ∧ (cmd.Enabled r = false ∨ (0 < cmd.Interval r)%Z))
  ∧ (∀ e, cmd_server.serverConfig_Validate ipPortConfig_Validate (Some c)
          = Some e →
       ∃ addrErrs retryErrs,
         e = Joined (addrErrs ++ retryErrs)
         ∧ (∀ e', e' ∈ addrErrs ↔
              ∃ i a e'', cmd_server.ListenAddresses c !! i = Some a
                         ∧ ipPortConfig_Validate a = Some e''
                         ∧ e' = AtIndex "listen_addresses" i e'')
         ∧ retryErrs
           = match cmd_server.bindRetryConfig_Validate
                     (cmd_server.BindRetry c) with
             | Some e' => [Named "bind_retry" e']
             | None => []
             end)
  ∧ cmd_server.serverConfig_Validate ipPortConfig_Validate None
    = Some ErrNoValue.
Proof.
  unfold cmd_server.serverConfig_Validate, validate.AppendSlice.
  destruct (AppendSlice_from_spec ipPortConfig_Validate [] "listen_addresses" 0
              (cmd_server.ListenAddresses c)) as (new & -> & Hin & Hnil).
  simpl. split; [|split; [|done]].
  - rewrite <-Hnil, <-bindRetryConfig_Validate_None.
    unfold validate.Append.
    destruct (cmd_server.bindRetryConfig_Validate _) as [e|].
    + split; [|by intros [_ ?]]. by destruct new.
    + destruct new; simpl; split; try done. by intros [? _].
  - intros e He. exists new.
    eexists. split; [|split; [exact Hin|reflexivity]].
    unfold validate.Append in He.
    destruct (cmd_server.bindRetryConfig_Validate _) as [e'|].
    + destruct new; simpl in He; by simplify_eq.
    + rewrite app_nil_r. destruct new; simpl in He; by simplify_eq.
Qed.

(** ** The default listen addresses *)

Lemma filterInterfaceAddrs_spec PP addrs set p :
  (cmd_default.filterInterfaceAddrs PP addrs set p).1
  = omap (λ a, (cmd_default.filterStep PP set p a).1) addrs
  ∧ (cmd_default.filterInterfaceAddrs PP addrs set p).2
    = map (λ a, (cmd_default.filterStep PP set p a).2) addrs.
Proof.
  induction addrs as [|a addrs IH]; [done|]. simpl.
  destruct (cmd_default.filterStep PP set p a) as [c msg].
  destruct (cmd_default.filterInterfaceAddrs PP addrs set p) as [confs msgs].
  simpl in *. destruct IH as [-> ->]. by destruct c.
Qed.

Lemma filterStep_Some PP set p a c :
  (cmd_default.filterStep PP set p a).1 = Some c ↔
  ∃ pref, PP a = inl pref ∧ set (netip.ip pref) = true
          ∧ c = Some (cmd_server.mkipPortConfig
                        (netip.mkAddrPort (netip.ip pref) p)).
Proof.
  unfold cmd_default.filterStep, cmd_default.AddrPortFrom.
  destruct (PP a) as [pref|err]; simpl.
  - destruct (set (netip.ip pref)) eqn:Hs; simpl.
    + split; [intros [= <-]; by exists pref|].
      by intros (pref' & [= <-] & _ & ->).
    + split; [done|]. intros (pref' & [= <-] & ? & _). congruence.
  - split; [done|]. by intros (? & ? & _).
Qed.

Lemma omap_length_le {A B : Type} (f : A → option B) (l : list A) :
  length (omap f l) ≤ length l.
Proof. induction l as [|x l IH]; cbn; [done|]. destruct (f x); cbn; lia. Qed.

Lemma filterInterfaceAddrs_elem PP addrs set p c :
  c ∈ (cmd_default.filterInterfaceAddrs PP addrs set p).1 ↔
  ∃ a pref, a ∈ addrs ∧ PP a = inl pref ∧ set (netip.ip pref) = true
            ∧ c = Some (cmd_server.mkipPortConfig
                          (netip.mkAddrPort (netip.ip pref) p)).
Proof.
  destruct (filterInterfaceAddrs_spec PP addrs set p) as [-> _].
  rewrite list_elem_of_omap. split.
  - intros (a & Ha & (pref & ? & ? & ?)%filterStep_Some). by exists a, pref.
  - intros (a & pref & Ha & ? & ? & ?). exists a. split; [done|].
    apply filterStep_Some. by exists pref.
Qed.

(** X9.  [filterInterfaceAddrs] keeps, in the order of the input, the
    addresses whose text parses as a prefix and whose address is in the
    set; each one becomes a configuration that is not [nil], with the address
    of the prefix (its length is dropped) and the port [p].  Every other
    address is skipped, and exactly one line is written to the standard error
    for each address of the input, kept or not. *)
Theorem filterInterfaceAddrs_keeps_listenable
    (ParsePrefix : string → netip.Prefix + goError)
    (addrs : list string) (set : netip.Addr → bool) (p : N) :
  let confs := (cmd_default.filterInterfaceAddrs ParsePrefix addrs set p).1 in
  let lines := (cmd_default.filterInterfaceAddrs ParsePrefix addrs set p).2 in
  confs
  = omap (λ a, match ParsePrefix a with
               | inl pref =>
                   if set (netip.ip pref)
                   then Some (Some (cmd_server.mkipPortConfig
                                      (netip.mkAddrPort (netip.ip pref) p)))
                   else None
               | inr _ => None
               end) addrs
  ∧ (∀ c, c ∈ confs ↔
       ∃ a pref, a ∈ addrs ∧ ParsePrefix a = inl pref
                 ∧ set (netip.ip pref) = true
                 ∧ c = Some (cmd_server.mkipPortConfig
                               (netip.mkAddrPort (netip.ip pref) p)))
  ∧ length lines = length addrs
  ∧ length confs ≤ length addrs.
Proof.
  intros confs lines.
  destruct (filterInterfaceAddrs_spec ParsePrefix addrs set p) as [Hc Hl].
  fold confs in Hc. fold lines in Hl.
  split; [|split; [|split]].
  - rewrite Hc. apply list_omap_ext, Forall2_same_length_lookup_2; [done|].
    intros i a a' Ha Ha'. simplify_eq.
    unfold cmd_default.filterStep, cmd_default.AddrPortFrom.
    destruct (ParsePrefix a) as [pref|]; [|done].
    by destruct (set (netip.ip pref)).
  - intros c. apply filterInterfaceAddrs_elem.
  - by rewrite Hl, length_map.
  - rewrite Hc. apply omap_length_le.
Qed.


(** ** Service actions *)

Lemma control_returns written svc confPath action :
  action ∈ cmd_service.serviceActions →
  ∃ r, (cmd_service.control written svc confPath action).1 = Returned r.
Proof.
  intros Hin. unfold cmd_service.control.
  destruct (osservice.Logger svc); [by eexists|].
  repeat (destruct (decide (action = _)); [by eexists|]).
  exfalso. unfold cmd_service.serviceActions in Hin.
  repeat (apply elem_of_cons in Hin as [Hin|Hin]; [done|]).
  by apply elem_of_nil in Hin.
Qed.

(** X11.  [control] panics exactly when the logger of the service is
    available and the action is none of the six service actions.  So it never
    panics on an action that [Set] has accepted, and for an unknown action
    with a failing logger it returns the error of the logger instead of
    panicking. *)
Theorem control_panics_only_on_unknown_action
    (written : option goError) (svc : osservice.Service) (confPath : string)
    (action : cmd_service.serviceAction) :
  ((∃ e, (cmd_service.control written svc confPath action).1 = Panicked e) ↔
     osservice.Logger svc = None ∧ action ∉ cmd_service.serviceActions)
  ∧ (∀ a value,
       (cmd_service.serviceAction_Set a value).2 = None →
       ∃ r, (cmd_service.control written svc confPath
               (cmd_service.serviceAction_Set a value).1).1 = Returned r).
Proof.
  split.
  - split.
    + intros [e He]. split.
      * unfold cmd_service.control in He.
        by destruct (osservice.Logger svc).
      * intros Hin.
        destruct (control_returns written svc confPath action Hin) as [r Hr].
        congruence.
    + intros [Hl Hnot]. exists errUnknownAction.
      unfold cmd_service.control. rewrite Hl.
      repeat (destruct (decide (action = _)) as [->|];
              [exfalso; apply Hnot; unfold cmd_service.serviceActions;
               repeat (first [apply list_elem_of_here|apply list_elem_of_further])|]).
      done.
  - intros a value Hok. apply control_returns.
    unfold cmd_service.serviceAction_Set in *.
    by destruct (decide (value ∈ cmd_service.serviceActions)).
Qed.

(** X12.  What [control] does and does not do.  When the logger of the
    service cannot be had, no operation of the service is called and the
    error returned wraps the error of the logger.  For the action [install],
    when writing the default configuration fails, the service is not
    installed and that error is returned.  Every error that [control] returns
    is annotated with the action.  A line is printed to the standard output
    only for the action [status], and only when [control] returns [nil]. *)
Theorem control_effects
    (written : option goError) (svc : osservice.Service) (confPath : string)
    (action : cmd_service.serviceAction) :
  (∀ e, osservice.Logger svc = Some e →
     cmd_service.control written svc confPath action
     = (Returned
          (Some (Annotated "performing %q: %w" [ArgString action]
                   (Errorf "getting logger: %w" [] (Some e)))),
        [cmd_service.CallLogger]))
  ∧ (∀ e, osservice.Logger svc = None → written = Some e →
       cmd_service.control written svc confPath cmd_service.serviceActionInstall
       = (Returned
            (Some (Annotated "performing %q: %w"
                     [ArgString cmd_service.serviceActionInstall] e)),
          [cmd_service.CallLogger;
           cmd_service.CallWriteDefaultConfig confPath]))
  ∧ (∀ e, (cmd_service.control written svc confPath action).1
          = Returned (Some e) →
       ∃ e', e = Annotated "performing %q: %w" [ArgString action] e')
  ∧ (∀ msg, cmd_service.PrintStdout msg
            ∈ (cmd_service.control written svc confPath action).2 →
       action = cmd_service.serviceActionStatus
       ∧ (cmd_service.control written svc confPath action).1 = Returned None
       ∧ (msg = "running" ∨ msg = "stopped")).
Proof.
  split; [|split; [|split]].
  - intros e He. unfold cmd_service.control. by rewrite He.
  - intros e Hl ->. unfold cmd_service.control. rewrite Hl. done.
  - intros e. unfold cmd_service.control.
    destruct (osservice.Logger svc); simpl.
    { intros [= <-]. by eexists. }
    repeat (destruct (decide (action = _)); simpl;
            [unfold goerrors.Annotate;
             match goal with
             | |- Returned match ?x with _ => _ end = _ → _ =>
                 destruct x; intros [= <-]; by eexists
             end|]).
    done.
  - intros msg. unfold cmd_service.control.
    destruct (osservice.Logger svc) as [e|]; simpl.
    { intros [?|?%elem_of_nil]%elem_of_cons; done. }
    destruct (decide (action = cmd_service.serviceActionInstall)) as [->|].
    { simpl. unfold cmd_service.controlInstall. destruct written; simpl;
        intros Hin; repeat (apply elem_of_cons in Hin as [Hin|Hin]; [done|]);
        by apply elem_of_nil in Hin. }
    destruct (decide (action = cmd_service.serviceActionRestart)).
    { simpl. intros Hin. repeat (apply elem_of_cons in Hin as [Hin|Hin]; [done|]).
      by apply elem_of_nil in Hin. }
    destruct (decide (action = cmd_service.serviceActionStart)).
    { simpl. intros Hin. repeat (apply elem_of_cons in Hin as [Hin|Hin]; [done|]).
      by apply elem_of_nil in Hin. }
    destruct (decide (action = cmd_service.serviceActionStatus)) as [->|].
    { simpl. unfold cmd_service.controlStatus.
      destruct (osservice.Status_of svc) as [status [e|]]; simpl.
      { intros Hin. repeat (apply elem_of_cons in Hin as [Hin|Hin]; [done|]).
        by apply elem_of_nil in Hin. }
      destruct (decide (status = osservice.StatusRunning)); simpl.
      { intros Hin. repeat (apply elem_of_cons in Hin as [Hin|Hin]; try done).
        - simplify_eq. by split; [|split; [|left]].
        - by apply elem_of_nil in Hin. }
      destruct (decide (status = osservice.StatusStopped)); simpl.
      { intros Hin. repeat (apply elem_of_cons in Hin as [Hin|Hin]; try done).
        - simplify_eq. by split; [|split; [|right]].
        - by apply elem_of_nil in Hin. }
      intros Hin. repeat (apply elem_of_cons in Hin as [Hin|Hin]; [done|]).
      by apply elem_of_nil in Hin. }
    destruct (decide (action = cmd_service.serviceActionStop)).
    { simpl. intros Hin. repeat (apply elem_of_cons in Hin as [Hin|Hin]; [done|]).
      by apply elem_of_nil in Hin. }
    destruct (decide (action = cmd_service.serviceActionUninstall)).
    { simpl. intros Hin. repeat (apply elem_of_cons in Hin as [Hin|Hin]; [done|]).
      by apply elem_of_nil in Hin. }
    simpl. intros Hin. repeat (apply elem_of_cons in Hin as [Hin|Hin]; [done|]).
    by apply elem_of_nil in Hin.
Qed.

(** ** Shutdown *)

Lemma shutdown_loop_spec i svcs errs calls :
  ∃ newErrs newCalls,
    cmd_service.shutdown_loop i svcs errs calls
    = (errs ++ newErrs, calls ++ newCalls)
    ∧ (∀ k, k ∈ newCalls ↔ ∃ j r, svcs !! j = Some (Some r) ∧ k = i + j)
    ∧ (∀ e, e ∈ newErrs ↔
         ∃ j e', svcs !! j = Some (Some (Some e'))
                 ∧ e = Errorf "service at index %d: %w" [ArgNat (i + j)]
                         (Some e'))
    ∧ StronglySorted lt newCalls
    ∧ Forall (λ k, i ≤ k) newCalls.
Proof.
  revert i errs calls. induction svcs as [|s svcs IH]; intros i errs calls.
  { exists [], []. simpl. rewrite !app_nil_r. split; [done|].
    split; [|split; [|split; constructor]].
    - intros k. split; [by intros ?%elem_of_nil|]. by intros (j & r & ? & _).
    - intros e. split; [by intros ?%elem_of_nil|]. by intros (j & r & ? & _). }
  simpl. destruct s as [r|].
  - destruct (IH (S i)
                (match r with
                 | None => errs
                 | Some e =>
                     errs ++ [Errorf "service at index %d: %w" [ArgNat i] (Some e)]
                 end) (calls ++ [i]))
      as (newErrs & newCalls & Heq & Hcalls & Herrs & Hsorted & Hge).
    exists (match r with
            | None => newErrs
            | Some e =>
                Errorf "service at index %d: %w" [ArgNat i] (Some e) :: newErrs
            end), (i :: newCalls).
    split; [|split; [|split; [|split]]].
    + rewrite Heq. destruct r; by rewrite <-?app_assoc.
    + intros k. rewrite elem_of_cons, Hcalls. split.
      * intros [->|(j & r' & Hj & ->)].
        -- exists 0, r. by rewrite Nat.add_0_r.
        -- exists (S j), r'. split; [done|lia].
      * intros ([|j] & r' & Hj & ->); simpl in Hj.
        -- left. lia.
        -- right. exists j, r'. split; [done|lia].
    + intros e. destruct r as [e0|].
      * rewrite elem_of_cons, Herrs. split.
        -- intros [->|(j & e' & Hj & ->)].
           ++ exists 0, e0. by rewrite Nat.add_0_r.
           ++ exists (S j), e'. split; [done|]. do 3 f_equal. lia.
        -- intros ([|j] & e' & Hj & ->); simpl in Hj.
           ++ left. simplify_eq. by rewrite Nat.add_0_r.
           ++ right. exists j, e'. split; [done|]. do 3 f_equal. lia.
      * rewrite Herrs. split.
        -- intros (j & e' & Hj & ->). exists (S j), e'.
           split; [done|]. do 3 f_equal. lia.
        -- intros ([|j] & e' & Hj & ->); simpl in Hj; [simplify_eq|].
           exists j, e'. split; [done|]. do 3 f_equal. lia.
    + constructor; [done|]. eapply Forall_impl; [exact Hge|]. simpl. lia.
    + constructor; [done|]. eapply Forall_impl; [exact Hge|]. simpl. lia.
  - destruct (IH (S i) errs calls)
      as (newErrs & newCalls & Heq & Hcalls & Herrs & Hsorted & Hge).
    exists newErrs, newCalls. split; [done|]. split; [|split; [|split]].
    + intros k. rewrite Hcalls. split.
      * intros (j & r' & Hj & ->). exists (S j), r'. split; [done|lia].
      * intros ([|j] & r' & Hj & ->); simpl in Hj; [done|].
        exists j, r'. split; [done|lia].
    + intros e. rewrite Herrs. split.
      * intros (j & e' & Hj & ->). exists (S j), e'.
        split; [done|]. do 3 f_equal. lia.
      * intros ([|j] & e' & Hj & ->); simpl in Hj; [done|].
        exists j, e'. split; [done|]. do 3 f_equal. lia.
    + done.
    + eapply Forall_impl; [exact Hge|]. simpl. lia.
Qed.

(** X13.  [shutdown] calls [Shutdown] of every service that is not [nil],
    once and in the order of the arguments, whether or not an earlier one has
    failed.  The index in the error of a failed service is the position of
    the service among the arguments, the [nil] ones counted.  An error is
    logged exactly when some [Shutdown] fails, and it joins exactly the
    errors of the failed services. *)
Theorem shutdown_all_services (svcs : list (option (option goError))) :
  let calls := (cmd_service.shutdown svcs).1 in
  let logged := (cmd_service.shutdown svcs).2 in
  (∀ i, i ∈ calls ↔ ∃ r, svcs !! i = Some (Some r))
  ∧ StronglySorted lt calls
  ∧ (logged = None ↔ ∀ i e, svcs !! i ≠ Some (Some (Some e)))
  ∧ (∀ err, logged = Some err →
       ∃ es, err = Joined es
             ∧ ∀ e, e ∈ es ↔
                 ∃ i e', svcs !! i = Some (Some (Some e'))
                         ∧ e = Errorf "service at index %d: %w" [ArgNat i]
                                 (Some e')).
Proof.
  intros calls logged. unfold calls, logged, cmd_service.shutdown.
  destruct (shutdown_loop_spec 0 svcs [] [])
    as (newErrs & newCalls & -> & Hcalls & Herrs & Hsorted & _).
  simpl. split; [|split; [done|split]].
  - intros i. rewrite Hcalls. split.
    + intros (j & r & Hj & ->). by exists r.
    + intros (r & Hi). by exists i, r.
  - split.
    + intros Hnone i e Hi. destruct newErrs as [|e0 ?]; [|done].
      apply (elem_of_nil (Errorf "service at index %d: %w" [ArgNat i] (Some e))).
      apply Herrs. by exists i, e.
    + intros Hall. destruct newErrs as [|e0 rest]; [done|]. exfalso.
      destruct (proj1 (Herrs e0) (list_elem_of_here _ _)) as (j & e' & Hj & _).
      by apply (Hall j e').
  - intros err Herr. destruct newErrs as [|e0 rest]; [done|].
    simpl in Herr. injection Herr as <-. eexists. split; [done|].
    intros e. rewrite Herrs. split.
    + intros (j & e' & Hj & ->). by exists j, e'.
    + intros (i & e' & Hi & ->). by exists i, e'.
Qed.

(** ** Writing the default configuration *)

(** X14.  [writeDefaultConfig] and the file.  When the file exists, nothing
    is built, written or closed and the result is [nil].  When the file was
    opened, it is closed exactly once and last, on every path; the result is
    [nil] exactly when the default configuration was built, encoded and the
    file closed without error, so an error of [Close] is never lost.  When
    the file could not be opened, it is not closed.  The only thing ever
    encoded is the default configuration. *)
Theorem writeDefaultConfig_file {Conf : Type}
    (open : string → cmd_default.openResult)
    (defaultConfig : Conf + goError) (encode : Conf → option goError)
    (closed : option goError) (path : string) :
  let run :=
    cmd_default.writeDefaultConfig open defaultConfig encode closed path in
  (∀ e, open path = cmd_default.OpenExists e →
     run = (None,
            [cmd_default.OpenExclusive path;
             cmd_default.WriteStderr
               (Line "using configuration file %q\n" [MsgString path])]))
  ∧ (open path = cmd_default.Opened →
       last run.2 = Some cmd_default.CloseFile
       ∧ (∃ before, run.2 = before ++ [cmd_default.CloseFile]
                    ∧ cmd_default.CloseFile ∉ before)
       ∧ (run.1 = None ↔
            closed = None
            ∧ ∃ conf, defaultConfig = inl conf ∧ encode conf = None))
  ∧ (open path ≠ cmd_default.Opened → cmd_default.CloseFile ∉ run.2)
  ∧ (∀ conf, cmd_default.Encode conf ∈ run.2 →
       defaultConfig = inl conf ∧ open path = cmd_default.Opened).
Proof.
  intros run. unfold run, cmd_default.writeDefaultConfig.
  split; [|split; [|split]].
  - intros e ->. done.
  - intros ->. destruct defaultConfig as [conf|e]; simpl.
    + split; [done|]. split.
      * eexists [_; _; _; _; _]. split; [done|].
        intros Hin. repeat (apply elem_of_cons in Hin as [Hin|Hin]; [done|]).
        by apply elem_of_nil in Hin.
      * unfold goerrors.WithDeferred, goerrors.Annotate.
        destruct closed as [d|], (encode conf) as [e|] eqn:He; simpl.
        -- split; [done|]. by intros [? _].
        -- split; [done|]. by intros [? _].
        -- split; [done|]. intros [_ (conf' & [= <-] & ?)]. congruence.
        -- split; [|done]. intros _. split; [done|]. by exists conf.
    + split; [done|]. split.
      * eexists [_; _; _]. split; [done|].
        intros Hin. repeat (apply elem_of_cons in Hin as [Hin|Hin]; [done|]).
        by apply elem_of_nil in Hin.
      * unfold goerrors.WithDeferred, goerrors.Annotate.
        destruct closed as [d|]; simpl.
        -- split; [done|]. by intros [? _].
        -- split; [done|]. by intros [_ (conf' & ? & _)].
  - intros Hopen. destruct (open path); try done; simpl;
      intros Hin; repeat (apply elem_of_cons in Hin as [Hin|Hin]; [done|]);
      by apply elem_of_nil in Hin.
  - intros conf. destruct (open path); simpl.
    + intros Hin. repeat (apply elem_of_cons in Hin as [Hin|Hin]; [done|]).
      by apply elem_of_nil in Hin.
    + intros Hin. repeat (apply elem_of_cons in Hin as [Hin|Hin]; [done|]).
      by apply elem_of_nil in Hin.
    + destruct defaultConfig as [conf'|e]; simpl; intros Hin;
        repeat (apply elem_of_cons in Hin as [Hin|Hin]; try done).
      * by simplify_eq.
      * by apply elem_of_nil in Hin.
      * by apply elem_of_nil in Hin.
Qed.

(** ** Logging *)

(** X15.  [Validate] of a log configuration.  A [nil] configuration gives
    [ErrNoValue].  Otherwise the result is [nil] exactly when the output is
    one of the three special values or an absolute path, and the format is
    one that [slogutil.NewFormat] accepts.  At most two errors are joined:
    the one about the output, when there is one, comes first, and the one of
    [slogutil.NewFormat], when there is one, comes last.  An empty format is
    refused. *)
Theorem logConfig_Validate_spec (IsAbs : string → bool)
    (c : cmd_log.logConfig) :
  let okOutput :=
    cmd_log.Output c
      ∈ [cmd_log.outputSyslog; cmd_log.outputStdout; cmd_log.outputStderr]
    ∨ IsAbs (cmd_log.Output c) = true in
  cmd_log.logConfig_Validate IsAbs None = Some ErrNoValue
  ∧ (cmd_log.logConfig_Validate IsAbs (Some c) = None ↔
       okOutput ∧ slogutil.NewFormat (cmd_log.Format c) = None)
  ∧ (∀ err, cmd_log.logConfig_Validate IsAbs (Some c) = Some err →
       ∃ es, err = Joined es ∧ 1 ≤ length es ≤ 2
             ∧ (¬ okOutput →
                  head es
                  = Some (Errorf "output: %w: %q"
                            [ArgString (cmd_log.Output c)]
                            (Some ErrBadEnumValue)))
             ∧ (∀ e, slogutil.NewFormat (cmd_log.Format c) = Some e →
                  last es = Some e))
  ∧ (cmd_log.Format c = "" →
       cmd_log.logConfig_Validate IsAbs (Some c) ≠ None).
Proof.
  intros okOutput.
  assert (Hok : okOutput ↔
                (cmd_log.Output c = cmd_log.outputSyslog
                 ∨ cmd_log.Output c = cmd_log.outputStdout
                 ∨ cmd_log.Output c = cmd_log.outputStderr)
                ∨ IsAbs (cmd_log.Output c) = true).
  { unfold okOutput. rewrite !elem_of_cons, elem_of_nil. tauto. }
  split; [done|]. unfold cmd_log.logConfig_Validate.
  destruct (decide (cmd_log.Output c = cmd_log.outputSyslog
                    ∨ cmd_log.Output c = cmd_log.outputStdout
                    ∨ cmd_log.Output c = cmd_log.outputStderr)) as [Hs|Hs].
  - assert (okOutput) as Ho by (apply Hok; by left).
    destruct (slogutil.NewFormat (cmd_log.Format c)) as [e|] eqn:Hf; simpl.
    + split; [split; [done|by intros [_ ?]]|]. split.
      * intros err [= <-]. eexists. split; [done|]. simpl. split; [lia|].
        split; [done|]. by intros e' [= <-].
      * intros _. done.
    + split; [done|]. split; [done|]. intros Hempty.
      rewrite Hempty in Hf. by vm_compute in Hf.
  - destruct (IsAbs (cmd_log.Output c)) eqn:Habs.
    + assert (okOutput) as Ho by (apply Hok; by right).
      destruct (slogutil.NewFormat (cmd_log.Format c)) as [e|] eqn:Hf; simpl.
      * split; [split; [done|by intros [_ ?]]|]. split.
        -- intros err [= <-]. eexists. split; [done|]. simpl. split; [lia|].
           split; [done|]. by intros e' [= <-].
        -- intros _. done.
      * split; [done|]. split; [done|]. intros Hempty.
        rewrite Hempty in Hf. by vm_compute in Hf.
    + assert (¬ okOutput) as Ho.
      { rewrite Hok. intros [?|?]; [done|congruence]. }
      destruct (slogutil.NewFormat (cmd_log.Format c)) as [e|] eqn:Hf; simpl.
      * split; [split; [done|by intros [? _]]|]. split.
        -- intros err [= <-]. eexists. split; [done|]. simpl. split; [lia|].
           split; [done|]. by intros e' [= <-].
        -- intros _. done.
      * split; [split; [done|by intros [? _]]|]. split.
        -- intros err [= <-]. eexists. split; [done|]. simpl. split; [lia|].
           split; [done|]. done.
        -- intros _. done.
Qed.

Lemma newLogger_level os outputStr f addTimestamp level l :
  (cmd_log.newLogger os outputStr f addTimestamp level).1.1 = Some l →
  slogutil.levelOf l = level.
Proof.
  unfold cmd_log.newLogger, cmd_log.newSystemLogger, cmd_log.outputFromStr.
  destruct (decide (outputStr = cmd_log.outputSyslog)).
  { destruct (cmd_log.syslogError os); simpl; by intros [= <-]. }
  destruct (decide (outputStr = cmd_log.outputStderr)).
  { simpl. by intros [= <-]. }
  destruct (decide (outputStr = cmd_log.outputStdout)).
  { simpl. by intros [= <-]. }
  destruct (cmd_log.openError os outputStr); simpl; by intros [= <-].
Qed.

Lemma newLogger_is_Some os outputStr f addTimestamp level :
  is_Some (cmd_log.newLogger os outputStr f addTimestamp level).1.1.
Proof.
  unfold cmd_log.newLogger, cmd_log.newSystemLogger, cmd_log.outputFromStr.
  destruct (decide (outputStr = cmd_log.outputSyslog)).
  { destruct (cmd_log.syslogError os); simpl; by eexists. }
  destruct (decide (outputStr = cmd_log.outputStderr)); [by eexists|].
  destruct (decide (outputStr = cmd_log.outputStdout)); [by eexists|].
  destruct (cmd_log.openError os outputStr); simpl; by eexists.
Qed.

Lemma newLogger_error os outputStr f addTimestamp level err :
  (cmd_log.newLogger os outputStr f addTimestamp level).2 = Some err →
  (cmd_log.newLogger os outputStr f addTimestamp level).1
  = (Some (slogutil.ConfigLogger
             (slogutil.mkConfig (Some slogutil.Stderr) f addTimestamp level)),
     None).
Proof.
  unfold cmd_log.newLogger, cmd_log.newSystemLogger, cmd_log.outputFromStr.
  destruct (decide (outputStr = cmd_log.outputSyslog)).
  { by destruct (cmd_log.syslogError os). }
  destruct (decide (outputStr = cmd_log.outputStderr)); [done|].
  destruct (decide (outputStr = cmd_log.outputStdout)); [done|].
  by destruct (cmd_log.openError os outputStr).
Qed.

(** X16.  [newLogger] never returns a [nil] logger, and the logger has the
    level asked for.  When it returns an error, the logger writes to the
    standard error and no log file is returned.  It returns no error exactly
    when the system log was asked for and could be opened, or the output is
    the standard error or the standard output, or the file could be opened.
    A log file is returned only for an output that is none of the special
    values: it is the file of that path, the logger writes to it and there
    is no error. *)
Theorem newLogger_spec (os : cmd_log.system) (outputStr : string)
    (f : slogutil.Format) (addTimestamp : bool) (level : Z) :
  let l := (cmd_log.newLogger os outputStr f addTimestamp level).1.1 in
  let logFile := (cmd_log.newLogger os outputStr f addTimestamp level).1.2 in
  let err := (cmd_log.newLogger os outputStr f addTimestamp level).2 in
  (∃ lg, l = Some lg ∧ slogutil.levelOf lg = level)
  ∧ (err ≠ None →
       l = Some (slogutil.ConfigLogger
                   (slogutil.mkConfig (Some slogutil.Stderr) f addTimestamp
                      level))
       ∧ logFile = None)
  ∧ (err = None ↔
       (outputStr = cmd_log.outputSyslog ∧ cmd_log.syslogError os = None)
       ∨ outputStr = cmd_log.outputStderr
       ∨ outputStr = cmd_log.outputStdout
       ∨ (outputStr ≠ cmd_log.outputSyslog
          ∧ cmd_log.openError os outputStr = None))
  ∧ (∀ file, logFile = Some file →
       file = slogutil.OpenedFile outputStr
       ∧ (outputStr ∉ [cmd_log.outputSyslog; cmd_log.outputStdout;
                       cmd_log.outputStderr])
       ∧ err = None
       ∧ l = Some (slogutil.ConfigLogger
                     (slogutil.mkConfig (Some file) f addTimestamp level))).
Proof.
  intros l logFile err. split; [|split; [|split]].
  - destruct (newLogger_is_Some os outputStr f addTimestamp level) as [lg Hlg].
    exists lg. split; [done|]. by eapply newLogger_level.
  - intros Herr. destruct err as [e|] eqn:He; [|done].
    pose proof (newLogger_error _ _ _ _ _ _ He) as H.
    unfold l, logFile. by rewrite H.
  - unfold err, cmd_log.newLogger, cmd_log.newSystemLogger,
      cmd_log.outputFromStr.
    destruct (decide (outputStr = cmd_log.outputSyslog)) as [->|Hsys].
    { destruct (cmd_log.syslogError os); simpl.
      - split; [done|]. intros [[_ ?]|[?|[?|[? _]]]]; done.
      - split; [|done]. intros _. by left. }
    destruct (decide (outputStr = cmd_log.outputStderr)) as [->|Herr'].
    { simpl. split; [|done]. intros _. right. by left. }
    destruct (decide (outputStr = cmd_log.outputStdout)) as [->|Hout].
    { simpl. split; [|done]. intros _. right. right. by left. }
    destruct (cmd_log.openError os outputStr) eqn:Hopen; simpl.
    + split; [done|]. intros [[? _]|[?|[?|[_ ?]]]]; done.
    + split; [|done]. intros _. by repeat right.
  - intros file. unfold l, logFile, err, cmd_log.newLogger,
      cmd_log.newSystemLogger, cmd_log.outputFromStr.
    destruct (decide (outputStr = cmd_log.outputSyslog)) as [->|Hsys].
    { by destruct (cmd_log.syslogError os). }
    destruct (decide (outputStr = cmd_log.outputStderr)) as [->|Herr']; [done|].
    destruct (decide (outputStr = cmd_log.outputStdout)) as [->|Hout]; [done|].
    destruct (cmd_log.openError os outputStr) eqn:Hopen; simpl; [done|].
    intros [= <-]. split; [done|]. split; [|done].
    rewrite !elem_of_cons, elem_of_nil. tauto.
Qed.

(** X17.  [newConfigLogger].  It panics exactly when a configuration is
    given whose log section is [nil].  Otherwise the logger it returns is not
    [nil] and it returns at most two errors.  Without a configuration, the
    previous logger and log file are returned as they are.  When the output
    is set in the environment and the previous log file is open, that file is
    used for the new logger and returned, no error is returned and the
    previous logger is not closed.  The previous logger is closed only when
    the output is not set in the environment and the previous logger is not
    the one returned for reuse.  When creating the new logger fails, the
    logger returned writes to the standard error and no log file is
    returned. *)
Theorem newConfigLogger_spec (os : cmd_log.system)
    (closer : slogutil.Logger → option (option goError))
    (envLogger : slogutil.Logger) (envLogFile : option slogutil.File)
    (opts : cmd_log.options) (envs : cmd_log.logEnvs)
    (conf : option cmd_log.configuration) :
  let run :=
    cmd_log.newConfigLogger os closer envLogger envLogFile opts envs conf in
  ((∃ e, run = Panicked e) ↔ ∃ cf, conf = Some cf ∧ cmd_log.Log cf = None)
  ∧ (conf = None → run = Returned (Some envLogger, envLogFile, [], false))
  ∧ (∀ l logFile errs closed, run = Returned (l, logFile, errs, closed) →
       is_Some l
       ∧ length errs ≤ 2
       ∧ (closed = true →
            cmd_log.output envs = ""
            ∧ ∃ cf c, conf = Some cf ∧ cmd_log.Log cf = Some c
                      ∧ (cmd_log.closeEnv closer envLogger opts envs c).1.1
                        = false)
       ∧ (∀ e, Errorf "creating conf log: %w" [] (Some e) ∈ errs →
            logFile = None
            ∧ ∃ cfg, l = Some (slogutil.ConfigLogger cfg)
                     ∧ slogutil.Output cfg = Some slogutil.Stderr))
  ∧ (∀ cf c file,
       conf = Some cf → cmd_log.Log cf = Some c →
       cmd_log.output envs ≠ "" → envLogFile = Some file →
       ∃ cfg, run = Returned (Some (slogutil.ConfigLogger cfg), Some file, [],
                              false)
              ∧ slogutil.Output cfg = Some file
              ∧ slogutil.Level cfg = (cmd_log.overridenLogConf opts envs c).2).
Proof.
  intros run. unfold run, cmd_log.newConfigLogger.
  split; [|split; [by intros ->|split]].
  - destruct conf as [cf|].
    2:{ split; [by intros [e ?]|by intros (cf & ? & _)]. }
    destruct (cmd_log.Log cf) as [c|] eqn:Hlog.
    2:{ split; [intros _; by exists cf|intros _; by eexists]. }
    split; [|intros (cf' & [= <-] & ?); congruence].
    intros [e He]. exfalso. revert He.
    destruct (cmd_log.overridenLogConf opts envs c) as [[[o f] t] lv].
    destruct (decide (cmd_log.output envs = "")).
    + destruct (cmd_log.closeEnv closer envLogger opts envs c)
        as [[[] [err|]] closed]; try done;
        by destruct (cmd_log.newLogger os o f t lv) as [[? ?] [?|]].
    + destruct envLogFile; [done|].
      by destruct (cmd_log.newLogger os o f t lv) as [[? ?] [?|]].
  - intros l logFile errs closed.
    destruct conf as [cf|].
    2:{ intros [= <- <- <- <-]. split; [by eexists|]. split; [simpl; lia|].
        split; [done|]. by intros e ?%elem_of_nil. }
    destruct (cmd_log.Log cf) as [c|] eqn:Hlog; [|done].
    destruct (cmd_log.overridenLogConf opts envs c) as [[[o f] t] lv].
    pose proof (newLogger_is_Some os o f t lv) as Hsome.
    pose proof (newLogger_error os o f t lv) as Hnerr.
    destruct (decide (cmd_log.output envs = "")) as [Hout|Hout].
    + destruct (cmd_log.closeEnv closer envLogger opts envs c)
        as [[usePrev cerr] cl] eqn:Hclose.
      destruct usePrev.
      { intros [= <- <- <- <-]. split; [by eexists|]. split; [simpl; lia|].
        split.
        - intros ->. exfalso. revert Hclose. unfold cmd_log.closeEnv.
          destruct (_ && _); [by intros [=]|].
          destruct (closer envLogger); by intros [=].
        - by intros e ?%elem_of_nil. }
      destruct (cmd_log.newLogger os o f t lv) as [[l' lf'] [ne|]] eqn:Hnew;
        simpl in Hsome, Hnerr.
      * specialize (Hnerr ne eq_refl). injection Hnerr as -> ->.
        destruct cerr as [ce|]; intros [= <- <- <- <-].
        -- split; [by eexists|]. split; [simpl; lia|]. split.
           ++ intros _. split; [done|]. exists cf, c; by rewrite Hclose.
           ++ intros e _. split; [done|]. by eexists.
        -- split; [by eexists|]. split; [simpl; lia|]. split.
           ++ intros _. split; [done|]. exists cf, c; by rewrite Hclose.
           ++ intros e _. split; [done|]. by eexists.
      * destruct cerr as [ce|]; intros [= <- <- <- <-].
        -- split; [done|]. split; [simpl; lia|]. split.
           ++ intros _. split; [done|]. exists cf, c; by rewrite Hclose.
           ++ intros e Hin. apply list_elem_of_singleton in Hin. done.
        -- split; [done|]. split; [simpl; lia|]. split.
           ++ intros _. split; [done|]. exists cf, c; by rewrite Hclose.
           ++ by intros e ?%elem_of_nil.
    + destruct envLogFile as [file|].
      { intros [= <- <- <- <-]. split; [by eexists|]. split; [simpl; lia|].
        split; [done|]. by intros e ?%elem_of_nil. }
      destruct (cmd_log.newLogger os o f t lv) as [[l' lf'] [ne|]] eqn:Hnew;
        simpl in Hsome, Hnerr.
      * specialize (Hnerr ne eq_refl). injection Hnerr as -> ->.
        intros [= <- <- <- <-].
        split; [by eexists|]. split; [simpl; lia|]. split; [done|].
        intros e _. split; [done|]. by eexists.
      * intros [= <- <- <- <-].
        split; [done|]. split; [simpl; lia|]. split; [done|].
        by intros e ?%elem_of_nil.
  - intros cf c file -> Hlog Hout ->. rewrite Hlog.
    unfold cmd_log.overridenLogConf.
    rewrite decide_False by done. by eexists.
Qed.

(** X18.  The level of the logger after the configuration is read.  Let the
    previous logger and log file be the ones that [newEnvLogger] has made
    from the same options and environment.  Then the logger that
    [newConfigLogger] returns has the level that [overridenLogConf] gives,
    except in exactly one case: the output is not set in the environment,
    the configuration asks for the system log and for verbose logging, the
    option for verbose logging is not given, and the environment sets the
    verbosity to false.  In that case the previous logger is returned and
    its level is [LevelInfo], while [overridenLogConf] gives [LevelDebug]. *)
Theorem newConfigLogger_level (os os' : cmd_log.system)
    (closer : slogutil.Logger → option (option goError))
    (envLogger : slogutil.Logger) (envLogFile : option slogutil.File)
    (opts : cmd_log.options) (envs : cmd_log.logEnvs)
    (cf : cmd_log.configuration) (c : cmd_log.logConfig)
    (l : slogutil.Logger) (logFile : option slogutil.File)
    (errs : list goError) (closed : bool) :
  (cmd_log.newEnvLogger os opts envs).1 = (Some envLogger, envLogFile) →
  cmd_log.Log cf = Some c →
  cmd_log.newConfigLogger os' closer envLogger envLogFile opts envs (Some cf)
  = Returned (Some l, logFile, errs, closed) →
  let mismatch :=
    cmd_log.output envs = "" ∧ cmd_log.Output c = cmd_log.outputSyslog
    ∧ cmd_log.opt_verbose opts = false ∧ cmd_log.verboseSet envs = true
    ∧ cmd_log.verbose envs = false ∧ cmd_log.Verbose c = true in
  (slogutil.levelOf l ≠ (cmd_log.overridenLogConf opts envs c).2 ↔ mismatch)
  ∧ (mismatch →
       l = envLogger ∧ closed = false
       ∧ slogutil.levelOf l = slogutil.LevelInfo
       ∧ (cmd_log.overridenLogConf opts envs c).2 = slogutil.LevelDebug).
Proof.
  intros Henv Hlog Hrun mismatch.
  assert (Hel : slogutil.levelOf envLogger = cmd_log.envLevel opts envs).
  { eapply newLogger_level. unfold cmd_log.newEnvLogger in Henv.
    by rewrite Henv. }
  unfold cmd_log.newConfigLogger in Hrun. rewrite Hlog in Hrun.
  destruct (cmd_log.overridenLogConf opts envs c) as [[[o f] t] lv] eqn:Hov.
  assert (Hlv : lv = if cmd_log.opt_verbose opts
                        || (cmd_log.verboseSet envs && cmd_log.verbose envs)
                        || cmd_log.Verbose c
                     then slogutil.LevelDebug else slogutil.LevelInfo).
  { unfold cmd_log.overridenLogConf in Hov. by injection Hov as _ _ _ <-. }
  cbn [snd].
  assert (Hnew : ∀ es cl,
            match cmd_log.newLogger os' o f t lv with
            | (l0, lf0, Some err) =>
                Returned (l0, lf0,
                          es ++ [Errorf "creating conf log: %w" [] (Some err)],
                          cl)
            | (l0, lf0, None) => Returned (l0, lf0, es, cl)
            end = Returned (Some l, logFile, errs, closed) →
            slogutil.levelOf l = lv).
  { intros es cl H. apply (newLogger_level os' o f t lv).
    destruct (cmd_log.newLogger os' o f t lv) as [[l0 lf0] [ne|]];
      simpl; by injection H as -> _ _ _. }
  assert (Hfresh : slogutil.levelOf l = lv → ¬ mismatch →
            (slogutil.levelOf l ≠ lv ↔ mismatch)
            ∧ (mismatch → l = envLogger ∧ closed = false
                 ∧ slogutil.levelOf l = slogutil.LevelInfo
                 ∧ lv = slogutil.LevelDebug)).
  { intros Hl Hno. split; [|done]. split; [done|]. intros; done. }
  destruct (decide (cmd_log.output envs = "")) as [Hout|Hout].
  2:{ apply Hfresh; [|by intros [? _]].
      destruct envLogFile as [file|]; [by injection Hrun as <- _ _ _|].
      first [exact (Hnew [] _ Hrun)|exact (Hnew [_] _ Hrun)]. }
  unfold cmd_log.closeEnv in Hrun.
  destruct (bool_decide (cmd_log.Output c = cmd_log.outputSyslog)) eqn:Hsys.
  2:{ apply Hfresh.
      - simpl in Hrun. destruct (closer envLogger) as [[ce|]|];
          first [exact (Hnew [] _ Hrun)|exact (Hnew [_] _ Hrun)].
      - intros (_ & Hs & _). apply bool_decide_eq_false in Hsys. done. }
  apply bool_decide_eq_true in Hsys. simpl in Hrun.
  unfold mismatch, cmd_log.envLevel in *. clear Hfresh. subst lv.
  destruct (cmd_log.opt_verbose opts), (cmd_log.verboseSet envs),
    (cmd_log.verbose envs), (cmd_log.Verbose c); simpl in *;
    try (injection Hrun as <- _ _ <-; rewrite Hel;
         split; [split; [done|by intros (_ & _ & ? & ? & ? & ?)]
                |by intros (_ & _ & ? & ? & ? & ?)]);
    try (injection Hrun as <- _ _ <-; rewrite Hel;
         split; [split; [done|by intros (_ & _ & ? & ? & ? & ?)]|done]);
    try (injection Hrun as <- _ _ <-; rewrite Hel; by split);
    try (split; [split; [intros Hne; exfalso; apply Hne;
                         destruct (closer envLogger) as [[ce|]|];
                         first [exact (Hnew [] _ Hrun)|exact (Hnew [_] _ Hrun)]
                        |by intros (_ & _ & ? & ? & ? & ?)]
                |by intros (_ & _ & ? & ? & ? & ?)]).
Qed.

(* ===================================================================== *)
(** * The properties at concrete inputs                                    *)
(* ===================================================================== *)

(** The three cases of the pool lookup: the shared address found in the
    cache, the shared address constructed, the refused address. *)
Lemma newUpstreamOrCached_spec_witness :
  let opts := groupOptions (sampleConf []) sampleLogger upstream.NilResolver
                (mkUpstreamGroupConfig "office" sharedAddress []) in
  newUpstreamOrCached sampleAddressToUpstream sharedAddress
    {[ sharedAddress := 0 ]} opts upstream.emptyWorld
  = (inl 0, {[ sharedAddress := 0 ]}, upstream.emptyWorld)
  ∧ (∃ u cache' w',
       newUpstreamOrCached sampleAddressToUpstream sharedAddress ∅ opts
         upstream.emptyWorld = (inl u, cache', w')
       ∧ upstream.constructed w' !! u
         = Some (upstream.mkObject sharedAddress opts)
       ∧ upstream.constructed upstream.emptyWorld !! u = None
       ∧ cache' !! sharedAddress = Some u
       ∧ (∀ a, a ≠ sharedAddress → cache' !! a = (∅ : gmap string nat) !! a))
  ∧ (∃ w',
       newUpstreamOrCached sampleAddressToUpstream refusedAddress ∅ opts
         upstream.emptyWorld
       = (inr (ErrExternal "unsupported url scheme: ftp"), ∅, w')
       ∧ upstream.constructed w' = []
       ∧ upstream.calls w' = [(refusedAddress, opts)]
       ∧ ∀ opts2,
           upstream.calls
             (newUpstreamOrCached sampleAddressToUpstream refusedAddress ∅
                opts2 w').2
           = upstream.calls w' ++ [(refusedAddress, opts2)]).
Proof.
  intros opts. split; [|split].
  - apply (proj1 (newUpstreamOrCached_spec sampleAddressToUpstream
                    sharedAddress {[ sharedAddress := 0 ]} opts
                    upstream.emptyWorld)).
    reflexivity.
  - apply (proj1 (proj2 (newUpstreamOrCached_spec sampleAddressToUpstream
                           sharedAddress ∅ opts upstream.emptyWorld)));
      reflexivity.
  - apply (proj2 (proj2 (newUpstreamOrCached_spec sampleAddressToUpstream
                           refusedAddress ∅ opts upstream.emptyWorld)));
      reflexivity.
Defined.

(** [sharedGroups]: the groups [private], [office] and [lab] reference one
    address; one upstream, the handle [1], is constructed for it and all of
    them are routed with it.  [refusedGroups]: nothing is constructed. *)
Lemma one_upstream_per_address_witness :
  let run gs := newUpstreams_loop sampleUnicodeLower sampleRuneSize
                  sampleAddressToUpstream (sampleConf gs) sampleLogger
                  upstream.NilResolver upstream.emptyWorld in
  let pool gs := poolPass sampleAddressToUpstream (sampleConf gs) sampleLogger
                   upstream.NilResolver gs ∅ upstream.emptyWorld in
  let private := mkUpstreamGroupConfig "private" sharedAddress [] in
  let lab := mkUpstreamGroupConfig "lab" sharedAddress
               [mkMatchCriteria clientA "";
                mkMatchCriteria clientB "mycompany.local."] in
  ((private, inl 1) ∈ pool sharedGroups ∧ (lab, inl 1) ∈ pool sharedGroups)
  ∧ constructedFor sharedAddress
      (constructedDuring upstream.emptyWorld (world (run sharedGroups))) = 1
  ∧ (∀ g r, (g, r) ∈ pool refusedGroups → Address g = refusedAddress →
       ∃ e, r = inr e)
  ∧ constructedFor refusedAddress
      (constructedDuring upstream.emptyWorld (world (run refusedGroups))) = 0
  ∧ routedTo sampleUnicodeLower sampleRuneSize (run sharedGroups) lab 1
  ∧ routedTo sampleUnicodeLower sampleRuneSize (run sharedGroups) private 1
  ∧ reachable (run sharedGroups) 1
  ∧ (∀ u ob, reachable (run sharedGroups) u →
       upstream.constructed (world (run sharedGroups)) !! u = Some ob →
       upstream.obj_addr ob = sharedAddress → u = 1).
Proof.
  intros run pool private lab.
  pose proof (one_upstream_per_address sampleUnicodeLower sampleRuneSize
                sampleAddressToUpstream (sampleConf sharedGroups) sampleLogger
                upstream.NilResolver upstream.emptyWorld)
    as (_ & Hone & _ & Hrouted & _ & Hreach).
  pose proof (one_upstream_per_address sampleUnicodeLower sampleRuneSize
                sampleAddressToUpstream (sampleConf refusedGroups) sampleLogger
                upstream.NilResolver upstream.emptyWorld)
    as (_ & _ & Hnone & _).
  assert ((private, inl 1) ∈ pool sharedGroups) as Hprivate.
  { vm_compute. apply list_elem_of_further, list_elem_of_here. }
  assert ((lab, inl 1) ∈ pool sharedGroups) as Hlab.
  { vm_compute. do 3 apply list_elem_of_further. apply list_elem_of_here. }
  assert (∀ g r, (g, r) ∈ pool refusedGroups → Address g = refusedAddress →
            ∃ e, r = inr e) as Hall.
  { intros g r Hin _. unfold pool in Hin. cbn in Hin.
    apply elem_of_cons in Hin as [Hin|Hin]; [injection Hin as -> ->; by eexists|].
    apply elem_of_cons in Hin as [Hin|Hin]; [injection Hin as -> ->; by eexists|].
    by apply elem_of_nil in Hin. }
  split; [by split|].
  split; [apply Hone; by exists private, 1|].
  split; [exact Hall|].
  split; [by apply Hnone|].
  split; [by apply (Hrouted lab 1)|].
  split; [by apply (Hrouted private 1)|].
  assert (reachable (run sharedGroups) 1) as Hone_reachable.
  { right. eexists. split; [reflexivity|]. left. apply list_elem_of_here. }
  split; [exact Hone_reachable|].
  intros u ob Hr Ho Ha.
  apply (Hreach u 1 ob
           (upstream.mkObject sharedAddress
              (groupOptions (sampleConf sharedGroups) sampleLogger
                 upstream.NilResolver private)) Hr Hone_reachable Ho);
    [reflexivity|exact Ha].
Defined.

(** Two groups reference the address that the constructor refuses, and no
    upstream is constructed for it: the number of upstreams constructed for an
    address that two groups reference is not always one. *)
Lemma one_upstream_per_address_counterexample :
  let st := newUpstreams_loop sampleUnicodeLower sampleRuneSize
              sampleAddressToUpstream (sampleConf refusedGroups) sampleLogger
              upstream.NilResolver upstream.emptyWorld in
  referencing refusedAddress (Groups (sampleConf refusedGroups)) = 2
  ∧ constructedFor refusedAddress
      (constructedDuring upstream.emptyWorld (world st)) = 0
  ∧ ¬ (∀ lower size ctor conf l boot w a,
         2 ≤ referencing a (Groups conf) →
         constructedFor a
           (constructedDuring w (world (newUpstreams_loop lower size ctor conf
                                          l boot w))) = 1).
Proof.
  intros st. split; [reflexivity|]. split; [reflexivity|].
  intros Hclaim.
  specialize (Hclaim sampleUnicodeLower sampleRuneSize sampleAddressToUpstream
                (sampleConf refusedGroups) sampleLogger upstream.NilResolver
                upstream.emptyWorld refusedAddress).
  vm_compute in Hclaim. specialize (Hclaim (le_n 2)). discriminate Hclaim.
Qed.



(** The two domain maps in the table of [sharedGroups]; one step on a
    criterion with a suffix, after which both maps of the client read [1]
    under [mycompany.local.] and nothing under [example.org.]; and the whole
    of [addGroup] for the group [lab], whose second criterion has the client
    [clientB] and this key. *)
Lemma domain_maps_equal_witness :
  let m := mkMatchCriteria clientB "mycompany.local." in
  let lab := mkUpstreamGroupConfig "lab" sharedAddress
               [mkMatchCriteria clientA ""; m] in
  let t : upstreamConfigs := {[ netip.zeroPrefix := proxy.empty ]} in
  map_Forall (λ _ c, proxy.DomainReservedUpstreams c
                     = proxy.SpecifiedDomainUpstreams c)
    (newUpstreams sampleUnicodeLower sampleRuneSize sampleAddressToUpstream
       (sampleConf sharedGroups) sampleLogger upstream.NilResolver
       upstream.emptyWorld).1.1
  ∧ QuestionDomain m ≠ ""
  ∧ (∃ c', addMatch sampleUnicodeLower sampleRuneSize 1 t m !! clientB = Some c'
       ∧ proxy.DomainReservedUpstreams c'
         = appendAt None "mycompany.local." 1
       ∧ proxy.SpecifiedDomainUpstreams c'
         = appendAt None "mycompany.local." 1
       ∧ proxy.read (proxy.DomainReservedUpstreams c') "mycompany.local." = [1]
       ∧ proxy.read (proxy.SpecifiedDomainUpstreams c') "mycompany.local." = [1]
       ∧ proxy.read (proxy.DomainReservedUpstreams c') "example.org." = []
       ∧ proxy.read (proxy.SpecifiedDomainUpstreams c') "example.org." = [])
  ∧ reservedAt (addGroup sampleUnicodeLower sampleRuneSize lab t 1) clientB
      "mycompany.local." = [1]
  ∧ specifiedAt (addGroup sampleUnicodeLower sampleRuneSize lab t 1) clientB
      "mycompany.local." = [1]
  ∧ map_Forall (λ _ c, proxy.DomainReservedUpstreams c
                       = proxy.SpecifiedDomainUpstreams c) t
  ∧ map_Forall (λ _ c, proxy.DomainReservedUpstreams c
                       = proxy.SpecifiedDomainUpstreams c)
      (addMatch sampleUnicodeLower sampleRuneSize 1 t m).
Proof.
  intros m lab t.
  pose proof (domain_maps_equal sampleUnicodeLower sampleRuneSize
                sampleAddressToUpstream (sampleConf sharedGroups) sampleLogger
                upstream.NilResolver upstream.emptyWorld)
    as (Hall & Hstep & Hgroup & Hkeep).
  assert (QuestionDomain m ≠ "") as Hne by discriminate.
  assert (map_Forall (λ _ c, proxy.DomainReservedUpstreams c
                             = proxy.SpecifiedDomainUpstreams c) t) as Ht.
  { apply map_Forall_singleton. reflexivity. }
  split; [exact Hall|]. split; [exact Hne|]. split.
  { destruct (Hstep 1 t m Hne) as (c' & Hc & Hr & Hs & Hrk & Hsk & Hother).
    assert ("example.org."
            ≠ domainKey sampleUnicodeLower sampleRuneSize (QuestionDomain m))
      as Hk by discriminate.
    destruct (Hother "example.org." Hk) as [Hro Hso].
    exists c'. split; [exact Hc|]. split; [exact Hr|]. split; [exact Hs|].
    split; [exact Hrk|]. split; [exact Hsk|].
    split; [exact Hro|exact Hso]. }
  destruct (Hgroup lab t 1 clientB "mycompany.local.") as [Hgr Hgs].
  split; [etrans; [exact Hgr|reflexivity]|].
  split; [etrans; [exact Hgs|reflexivity]|].
  split; [exact Ht|]. apply Hkeep, Ht.
Defined.

(** [mixedGroups]: the refused group [office] is in the error under its
    name and has no entry; the groups before and after it are routed.
    [sharedGroups]: nothing fails and the error is [nil]. *)
Lemma newUpstreams_collects_errors_witness :
  let run gs := newUpstreams sampleUnicodeLower sampleRuneSize
                  sampleAddressToUpstream (sampleConf gs) sampleLogger
                  upstream.NilResolver upstream.emptyWorld in
  let pool gs := poolPass sampleAddressToUpstream (sampleConf gs) sampleLogger
                   upstream.NilResolver gs ∅ upstream.emptyWorld in
  let office := mkUpstreamGroupConfig "office" refusedAddress
                  [mkMatchCriteria clientA ""] in
  let lab := mkUpstreamGroupConfig "lab" sharedAddress
               [mkMatchCriteria clientB "lab.example"] in
  let e := ErrExternal "unsupported url scheme: ftp" in
  failedOf (pool mixedGroups) = [(office, e)]
  ∧ (run mixedGroups).2
    = Some (ErrAnnotate "creating upstreams: %w" (ErrJoin [ErrGroup "office" e]))
  ∧ sampleAddressToUpstream (Address office)
      (groupOptions (sampleConf mixedGroups) sampleLogger upstream.NilResolver
         office) = Some e
  ∧ length (routedOf (pool mixedGroups)) = 2
  ∧ routedTo sampleUnicodeLower sampleRuneSize
      (newUpstreams_loop sampleUnicodeLower sampleRuneSize
         sampleAddressToUpstream (sampleConf mixedGroups) sampleLogger
         upstream.NilResolver upstream.emptyWorld) lab 1
  ∧ (∃ c, (run mixedGroups).1.1 !! clientB = Some c
          ∧ proxy.read (proxy.DomainReservedUpstreams c) "lab.example." = [1])
  ∧ (run mixedGroups).1.1 !! clientA = None
  ∧ failedOf (pool sharedGroups) = []
  ∧ (run sharedGroups).2 = None.
Proof.
  intros run pool office lab e.
  pose proof (newUpstreams_collects_errors sampleUnicodeLower sampleRuneSize
                sampleAddressToUpstream (sampleConf mixedGroups) sampleLogger
                upstream.NilResolver upstream.emptyWorld)
    as (_ & Hlen & Hfailed & _ & Hrouted & _ & Herr).
  pose proof (newUpstreams_collects_errors sampleUnicodeLower sampleRuneSize
                sampleAddressToUpstream (sampleConf sharedGroups) sampleLogger
                upstream.NilResolver upstream.emptyWorld)
    as (_ & _ & _ & _ & _ & Hnil & _).
  assert (failedOf (pool mixedGroups) = [(office, e)]) as Hf by reflexivity.
  split; [exact Hf|].
  split; [apply Herr; discriminate|].
  split; [apply Hfailed; apply list_elem_of_here|].
  split; [reflexivity|].
  split; [apply Hrouted; apply list_elem_of_further, list_elem_of_here|].
  split; [eexists; split; reflexivity|].
  split; [reflexivity|].
  split; [reflexivity|].
  apply Hnil. reflexivity.
Defined.

(** [sampleBootstrap]: the first address is refused and reported under the
    index [0], the second one gives the only resolver and the only closer.
    [refusedBootstrap]: the chain is empty. *)
Lemma newResolvers_spec_witness :
  let run conf := newResolvers sampleNewUpstreamResolver sampleAddrPortString
                    conf sampleLogger upstream.emptyWorld in
  let opts := bootstrapOptions sampleBootstrap sampleLogger in
  let second := netip.mkAddrPort (netip.AddrV4 134743044) 53 in
  run sampleBootstrap
  = (upstream.ConsequentResolver
       [upstream.CachingResolver (upstream.mkUpstreamResolver 0)],
     [0],
     Some (ErrAnnotate "creating bootstraps: %w"
             (ErrJoin [ErrIndex 0 (ErrExternal "invalid address")])))
  ∧ (1, second) ∈ accepted sampleNewUpstreamResolver sampleAddrPortString
                    opts 0 (bootstrap.Addresses sampleBootstrap)
  ∧ (0, ErrExternal "invalid address")
      ∈ refused sampleNewUpstreamResolver sampleAddrPortString
          opts 0 (bootstrap.Addresses sampleBootstrap)
  ∧ (∀ a, a ∈ bootstrap.Addresses refusedBootstrap →
       sampleNewUpstreamResolver (sampleAddrPortString a)
         (bootstrapOptions refusedBootstrap sampleLogger) ≠ None)
  ∧ (run refusedBootstrap).1 = (upstream.ConsequentResolver [], []).
Proof.
  intros run opts second.
  pose proof (newResolvers_spec sampleNewUpstreamResolver sampleAddrPortString
                sampleBootstrap sampleLogger upstream.emptyWorld)
    as (Hrun & _ & _ & Hacc & Hrej & _ & _).
  pose proof (newResolvers_spec sampleNewUpstreamResolver sampleAddrPortString
                refusedBootstrap sampleLogger upstream.emptyWorld)
    as (_ & _ & _ & _ & _ & _ & Hempty).
  assert (∀ a, a ∈ bootstrap.Addresses refusedBootstrap →
            sampleNewUpstreamResolver (sampleAddrPortString a)
              (bootstrapOptions refusedBootstrap sampleLogger) ≠ None) as Hall.
  { intros a [->|Hin%elem_of_nil]%elem_of_cons; [discriminate|destruct Hin]. }
  split; [exact Hrun|].
  split; [apply Hacc; split; reflexivity|].
  split; [apply Hrej; exists (netip.mkAddrPort netip.AddrZero 0);
          split; reflexivity|].
  split; [exact Hall|].
  apply Hempty, Hall.
Defined.

(** The entry of the zero prefix when every group fails, and its growth
    along the loop over [mixedGroups]. *)
Lemma default_entry_always_present_witness :
  let step := groupStep sampleUnicodeLower sampleRuneSize sampleAddressToUpstream
                (sampleConf mixedGroups) sampleLogger upstream.NilResolver in
  let init := initBuild upstream.emptyWorld in
  let default := mkUpstreamGroupConfig "default" "tls://dns.example" [] in
  is_Some ((newUpstreams sampleUnicodeLower sampleRuneSize
              sampleAddressToUpstream (sampleConf refusedGroups) sampleLogger
              upstream.NilResolver upstream.emptyWorld).1.1
           !! netip.zeroPrefix)
  ∧ ups init !! netip.zeroPrefix = Some proxy.empty
  ∧ (∃ c', ups (step init default) !! netip.zeroPrefix = Some c'
           ∧ grows proxy.empty c')
  ∧ ups (foldl step init [default]) !! netip.zeroPrefix
    = Some (proxy.mkUpstreamConfig [0] None None)
  ∧ (∃ c', ups (foldl step init mixedGroups) !! netip.zeroPrefix = Some c'
           ∧ grows (proxy.mkUpstreamConfig [0] None None) c').
Proof.
  intros step init default.
  pose proof (default_entry_always_present sampleUnicodeLower sampleRuneSize
                sampleAddressToUpstream (sampleConf refusedGroups) sampleLogger
                upstream.NilResolver upstream.emptyWorld) as (Hpresent & _).
  pose proof (default_entry_always_present sampleUnicodeLower sampleRuneSize
                sampleAddressToUpstream (sampleConf mixedGroups) sampleLogger
                upstream.NilResolver upstream.emptyWorld)
    as (_ & Hinit & Hstep & Hloop).
  split; [exact Hpresent|]. split; [exact Hinit|].
  split; [apply Hstep; reflexivity|].
  split; [reflexivity|].
  apply (Hloop [default] (proxy.mkUpstreamConfig [0] None None) eq_refl
           (tail mixedGroups)).
Defined.

(** The settings of [config.dist.yaml] (interval 1s, count 4): one call when
    retry is disabled; five calls and four sleeps when every call fails; three
    calls when the third one succeeds. *)
Lemma bindWithRetry_spec_witness :
  bindWithRetry bindAlwaysFails (cmd.toInternal retryOff)
  = (bindAlwaysFails 0, [Bind 0])
  ∧ (∀ n, bindAlwaysFails n ≠ None)
  ∧ bindWithRetry bindAlwaysFails (cmd.toInternal retryOn)
    = (bindAlwaysFails 4,
       [Bind 0; Sleep 1000000000; Bind 1; Sleep 1000000000; Bind 2;
        Sleep 1000000000; Bind 3; Sleep 1000000000; Bind 4])
  ∧ bindCount (bindWithRetry bindAlwaysFails (cmd.toInternal retryOn)).2 = 5
  ∧ bindThirdSucceeds 2 = None
  ∧ (∀ j, j < 2 → bindThirdSucceeds j ≠ None)
  ∧ bindWithRetry bindThirdSucceeds (cmd.toInternal retryOn)
    = (None, [Bind 0; Sleep 1000000000; Bind 1; Sleep 1000000000; Bind 2])
  ∧ bindCount (bindWithRetry bindThirdSucceeds (cmd.toInternal retryOn)).2 = 3.
Proof.
  pose proof (bindWithRetry_spec bindAlwaysFails (cmd.toInternal retryOff))
    as (Hoff & _).
  pose proof (bindWithRetry_spec bindAlwaysFails (cmd.toInternal retryOn))
    as (_ & Hfail & _).
  pose proof (bindWithRetry_spec bindThirdSucceeds (cmd.toInternal retryOn))
    as (_ & _ & Hok & _).
  assert (∀ n, bindAlwaysFails n ≠ None) as Hall by (intros n; discriminate).
  assert (∀ j, j < 2 → bindThirdSucceeds j ≠ None) as Hbefore.
  { intros j Hj. unfold bindThirdSucceeds. destruct (decide (j < 2)); [discriminate|lia]. }
  destruct (Hfail eq_refl Hall) as [Hfail1 Hfail2].
  destruct (Hok 2 eq_refl Hbefore) as [Hok1 Hok2].
  { right. split; [reflexivity|]. simpl. lia. }
  split; [apply Hoff; reflexivity|].
  split; [exact Hall|].
  split; [exact Hfail1|]. split; [exact Hfail2|].
  split; [reflexivity|]. split; [exact Hbefore|].
  split; [exact Hok1|exact Hok2].
Defined.


(** In [sharedGroups] the upstream of [lab] is the one constructed for
    [private], the first group of the shared address, with the options of
    [private]. *)
Lemma cached_upstream_has_first_options_witness :
  let conf := sampleConf sharedGroups in
  let st := newUpstreams_loop sampleUnicodeLower sampleRuneSize
              sampleAddressToUpstream conf sampleLogger upstream.NilResolver
              upstream.emptyWorld in
  let opts g := groupOptions conf sampleLogger upstream.NilResolver g in
  let private := mkUpstreamGroupConfig "private" sharedAddress [] in
  let lab := mkUpstreamGroupConfig "lab" sharedAddress
               [mkMatchCriteria clientA "";
                mkMatchCriteria clientB "mycompany.local."] in
  ({[ sharedAddress := 1 ]} : gmap string nat) !! sharedAddress = Some 1
  ∧ newUpstreamOrCached sampleAddressToUpstream sharedAddress
      {[ sharedAddress := 1 ]} (opts lab) (world st)
    = newUpstreamOrCached sampleAddressToUpstream sharedAddress
        {[ sharedAddress := 1 ]} (opts private) (world st)
  ∧ (lab, inl 1) ∈ poolPass sampleAddressToUpstream conf sampleLogger
                     upstream.NilResolver (Groups conf) ∅ upstream.emptyWorld
  ∧ ignoresLogger sampleAddressToUpstream
  ∧ upstream.constructed (world st) !! 1
    = Some (upstream.mkObject sharedAddress (opts private))
  ∧ (∃ pre g0 post,
       Groups conf = pre ++ g0 :: post
       ∧ Address g0 = sharedAddress
       ∧ upstream.constructed (world st) !! 1
         = Some (upstream.mkObject sharedAddress (opts g0))
       ∧ ∀ g', g' ∈ pre → Address g' ≠ sharedAddress).
Proof.
  intros conf st opts private lab.
  pose proof (cached_upstream_has_first_options sampleUnicodeLower
                sampleRuneSize sampleAddressToUpstream) as [Hhit Hfirst].
  assert (({[ sharedAddress := 1 ]} : gmap string nat) !! sharedAddress = Some 1)
    as Hc by reflexivity.
  assert ((lab, inl 1) ∈ poolPass sampleAddressToUpstream conf sampleLogger
            upstream.NilResolver (Groups conf) ∅ upstream.emptyWorld) as Hin.
  { vm_compute. do 3 apply list_elem_of_further. apply list_elem_of_here. }
  assert (ignoresLogger sampleAddressToUpstream) as Hlog.
  { intros a o o' _ _. reflexivity. }
  split; [exact Hc|].
  split; [apply (Hhit sharedAddress _ 1 (opts private) (opts lab) (world st) Hc)|].
  split; [exact Hin|]. split; [exact Hlog|]. split; [reflexivity|].
  destruct (Hfirst conf sampleLogger upstream.NilResolver upstream.emptyWorld
              lab 1 Hin) as (pre & g0 & post & Hgs & Ha & Ho & _ & Hpre).
  exists pre, g0, post. split; [exact Hgs|]. split; [exact Ha|].
  split; [exact Ho|]. exact (Hpre Hlog).
Defined.

(* ===================================================================== *)
(** * Further properties at concrete inputs                                *)
(* ===================================================================== *)

(** [sharedGroups] has one private group, on the shared address, whose
    upstream is the handle [1]; [refusedGroups] has no private group. *)
Lemma private_configuration_witness :
  let run gs := newUpstreams_loop sampleUnicodeLower sampleRuneSize
                  sampleAddressToUpstream (sampleConf gs) sampleLogger
                  upstream.NilResolver upstream.emptyWorld in
  (∃ c, private (run sharedGroups) = Some c
        ∧ proxy.Upstreams c = [1]
        ∧ proxy.DomainReservedUpstreams c = None
        ∧ proxy.SpecifiedDomainUpstreams c = None)
  ∧ private (run refusedGroups) = None.
Proof.
  intros run.
  pose proof (private_configuration sampleUnicodeLower sampleRuneSize
                sampleAddressToUpstream (sampleConf sharedGroups) sampleLogger
                upstream.NilResolver upstream.emptyWorld) as Hshared.
  pose proof (private_configuration sampleUnicodeLower sampleRuneSize
                sampleAddressToUpstream (sampleConf refusedGroups) sampleLogger
                upstream.NilResolver upstream.emptyWorld) as Hrefused.
  cbv zeta in Hshared, Hrefused.
  destruct Hshared as [_ Hsome]. destruct Hrefused as [Hnone _].
  split.
  - eexists. split; [reflexivity|].
    destruct (Hsome _ eq_refl) as (Hu & Hr & Hs).
    split; [|split; [exact Hr|exact Hs]].
    etrans; [exact Hu|reflexivity].
  - apply Hnone. reflexivity.
Defined.

(** [sampleBootstrap]: the first address is refused, the second accepted;
    the only closer is the handle [0], constructed for the second address,
    and the constructor was called twice. *)
Lemma closers_distinct_witness :
  let st := newResolvers_loop sampleNewUpstreamResolver sampleAddrPortString
              sampleBootstrap sampleLogger upstream.emptyWorld in
  closers st !! 0 = Some 0
  ∧ NoDup (closers st)
  ∧ length (closers st) = 1
  ∧ upstream.constructed (rworld st) !! 0
    = Some (upstream.mkObject "8.8.4.4:53"
              (bootstrapOptions sampleBootstrap sampleLogger))
  ∧ length (upstream.calls (rworld st)) = 2.
Proof.
  intros st.
  pose proof (closers_distinct sampleNewUpstreamResolver sampleAddrPortString
                sampleBootstrap sampleLogger upstream.emptyWorld) as H.
  cbv zeta in H. destruct H as (Hnd & Hlen & Hj & Hcalls).
  split; [reflexivity|]. split; [exact Hnd|].
  split; [etrans; [exact Hlen|reflexivity]|].
  split.
  - destruct (Hj 0 0 eq_refl) as (_ & a & Ha & Hobj).
    injection Ha as <-. exact Hobj.
  - etrans; [exact (f_equal length Hcalls)|reflexivity].
Defined.

(** A bootstrap configuration whose only address is accepted gives no
    error; [sampleBootstrap], whose first address is refused, gives one, and
    its two addresses give one resolver and one error. *)
Lemma newResolvers_error_witness :
  let okBootstrap :=
    bootstrap.mkBootstrapConfig
      [netip.mkAddrPort (netip.AddrV4 134743044) 53] 2000000000 in
  let run conf := newResolvers sampleNewUpstreamResolver sampleAddrPortString
                    conf sampleLogger upstream.emptyWorld in
  let st := newResolvers_loop sampleNewUpstreamResolver sampleAddrPortString
              sampleBootstrap sampleLogger upstream.emptyWorld in
  (run okBootstrap).2 = None
  ∧ (run sampleBootstrap).2 ≠ None
  ∧ length (resolvers st) + length (rerrs st) = 2.
Proof.
  intros okBootstrap run st.
  pose proof (newResolvers_error sampleNewUpstreamResolver
                sampleAddrPortString okBootstrap sampleLogger
                upstream.emptyWorld) as Hok.
  pose proof (newResolvers_error sampleNewUpstreamResolver
                sampleAddrPortString sampleBootstrap sampleLogger
                upstream.emptyWorld) as Hbad.
  cbv zeta in Hok, Hbad.
  destruct Hok as [Hok _]. destruct Hbad as [Hbad Hlen].
  split; [|split; [|exact Hlen]].
  - apply Hok. intros a Hin. apply list_elem_of_singleton in Hin.
    rewrite Hin. reflexivity.
  - intros Hnone.
    pose proof (proj1 Hbad Hnone (netip.mkAddrPort netip.AddrZero 0)
                  (list_elem_of_here _ _)) as Hzero.
    discriminate Hzero.
Defined.

(** A configuration with one listen address and retry disabled validates;
    one with a [nil] listen address at index [1] and retry enabled with the
    interval [0] gives both errors. *)
Lemma serverConfig_Validate_spec_witness :
  let good := cmd_server.mkserverConfig (Some retryOff) [sampleListen] in
  let bad :=
    cmd_server.mkserverConfig (Some (cmd.mkbindRetryConfig true 0 4))
      [sampleListen; None] in
  cmd_server.serverConfig_Validate sampleAddressValidate (Some good) = None
  ∧ ∃ es,
      cmd_server.serverConfig_Validate sampleAddressValidate (Some bad)
      = Some (Joined es)
      ∧ AtIndex "listen_addresses" 1 ErrNoValue ∈ es
      ∧ Named "bind_retry" (NotPositive "interval" 0) ∈ es.
Proof.
  intros good bad.
  destruct (serverConfig_Validate_spec sampleAddressValidate good)
    as (Hiff & _).
  destruct (serverConfig_Validate_spec sampleAddressValidate bad)
    as (_ & Herr & _).
  split.
  - apply Hiff. split.
    + intros a Hin. apply list_elem_of_singleton in Hin. rewrite Hin.
      reflexivity.
    + exists retryOff. split; [reflexivity|]. left. reflexivity.
  - destruct (Herr _ eq_refl) as (addrErrs & retryErrs & Heq & Haddr & Hretry).
    exists (addrErrs ++ retryErrs). split; [by rewrite <-Heq|]. split.
    + apply elem_of_app. left. apply Haddr. by exists 1, None, ErrNoValue.
    + apply elem_of_app. right. rewrite Hretry. apply list_elem_of_here.
Defined.

(** Of the four interface addresses, the loopback one and the private one
    are kept, in this order and on port 53; the public one is not, and four
    lines are written. *)
Lemma filterInterfaceAddrs_keeps_listenable_witness :
  let r := cmd_default.filterInterfaceAddrs sampleParsePrefix
             sampleInterfaceAddrs
             (cmd_default.isListenable sampleIsPrivate sampleIsLoopback) 53 in
  r.1 = [sampleListen;
         Some (cmd_server.mkipPortConfig
                 (netip.mkAddrPort (netip.AddrV4 3232235781) 53))]
  ∧ sampleListen ∈ r.1
  ∧ length r.2 = 4.
Proof.
  intros r.
  pose proof (filterInterfaceAddrs_keeps_listenable sampleParsePrefix
                sampleInterfaceAddrs
                (cmd_default.isListenable sampleIsPrivate sampleIsLoopback) 53)
    as H.
  cbv zeta in H. destruct H as (Homap & Hmem & Hlines & _).
  split; [etrans; [exact Homap|reflexivity]|].
  split; [|etrans; [exact Hlines|reflexivity]].
  apply Hmem. exists "127.0.0.1/8", (netip.mkPrefix (netip.AddrV4 2130706433) 9).
  split; [apply list_elem_of_here|]. split; [reflexivity|].
  split; reflexivity.
Defined.


(** With a working logger, the unknown action [reload] makes [control]
    panic; an action that [Set] has accepted does not; with a failing
    logger, [control] does not panic on [reload]. *)
Lemma control_panics_only_on_unknown_action_witness :
  (∃ e, (cmd_service.control None sampleService "conf.yaml" "reload").1
        = Panicked e)
  ∧ (cmd_service.serviceAction_Set "" "start").2 = None
  ∧ (∃ r, (cmd_service.control None sampleService "conf.yaml"
             (cmd_service.serviceAction_Set "" "start").1).1 = Returned r)
  ∧ ¬ (∃ e, (cmd_service.control None brokenService "conf.yaml" "reload").1
            = Panicked e).
Proof.
  destruct (control_panics_only_on_unknown_action None sampleService
              "conf.yaml" "reload") as [Hpanic Hset].
  destruct (control_panics_only_on_unknown_action None brokenService
              "conf.yaml" "reload") as [Hbroken _].
  split; [|split; [reflexivity|split]].
  - apply Hpanic. split; [reflexivity|].
    intros Hin. unfold cmd_service.serviceActions in Hin.
    repeat (apply elem_of_cons in Hin as [Hin|Hin]; [discriminate Hin|]).
    by apply elem_of_nil in Hin.
  - apply (Hset "" "start"). reflexivity.
  - intros Hp. apply Hbroken in Hp as [Hl _]. discriminate Hl.
Defined.

(** The failing logger, the failing default configuration at [install], and
    the line printed for [status]. *)
Lemma control_effects_witness :
  cmd_service.control None brokenService "conf.yaml" "start"
  = (Returned
       (Some (Annotated "performing %q: %w" [ArgString "start"]
                (Errorf "getting logger: %w" []
                   (Some (Foreign "no logger"))))),
     [cmd_service.CallLogger])
  ∧ cmd_service.control (Some (Foreign "disk full")) sampleService
      "conf.yaml" cmd_service.serviceActionInstall
    = (Returned
         (Some (Annotated "performing %q: %w"
                  [ArgString cmd_service.serviceActionInstall]
                  (Foreign "disk full"))),
       [cmd_service.CallLogger;
        cmd_service.CallWriteDefaultConfig "conf.yaml"])
  ∧ cmd_service.PrintStdout "running"
    ∈ (cmd_service.control None sampleService "conf.yaml" "status").2
  ∧ (cmd_service.control None sampleService "conf.yaml" "status").1
    = Returned None.
Proof.
  destruct (control_effects None brokenService "conf.yaml" "start")
    as (Hlogger & _).
  destruct (control_effects (Some (Foreign "disk full")) sampleService
              "conf.yaml" cmd_service.serviceActionInstall)
    as (_ & Hinstall & _).
  destruct (control_effects None sampleService "conf.yaml" "status")
    as (_ & _ & _ & Hprint).
  assert (cmd_service.PrintStdout "running"
          ∈ (cmd_service.control None sampleService "conf.yaml" "status").2)
    as Hin.
  { do 2 apply list_elem_of_further. apply list_elem_of_here. }
  split; [by apply Hlogger|]. split; [by apply Hinstall|].
  split; [exact Hin|]. exact (proj1 (proj2 (Hprint _ Hin))).
Defined.

(** Four services, the second [nil], the third failing: the first, third
    and fourth are shut down, and the error names the index [2]. *)
Lemma shutdown_all_services_witness :
  let svcs := [Some None; None; Some (Some (Foreign "timeout")); Some None] in
  2 ∈ (cmd_service.shutdown svcs).1
  ∧ 3 ∈ (cmd_service.shutdown svcs).1
  ∧ (1 ∉ (cmd_service.shutdown svcs).1)
  ∧ ∃ es, (cmd_service.shutdown svcs).2 = Some (Joined es)
          ∧ Errorf "service at index %d: %w" [ArgNat 2]
              (Some (Foreign "timeout")) ∈ es.
Proof.
  intros svcs.
  pose proof (shutdown_all_services svcs) as H. cbv zeta in H.
  destruct H as (Hcalls & _ & _ & Herr).
  split; [apply Hcalls; by eexists|]. split; [apply Hcalls; by eexists|].
  split.
  - intros Hin. apply Hcalls in Hin as [r Hr]. discriminate Hr.
  - destruct (Herr _ eq_refl) as (es & Heq & Hes).
    exists es. split; [by rewrite <-Heq|].
    apply Hes. by exists 2, (Foreign "timeout").
Defined.

(** An existing file is left alone; a new file is closed last, and the
    error of closing it is returned although encoding succeeded; with no
    error at all the result is [nil]. *)
Lemma writeDefaultConfig_file_witness :
  let run closed path :=
    cmd_default.writeDefaultConfig sampleOpen (inl "dns: {}")
      (λ _ : string, None) closed path in
  (run None "existing.yaml").1 = None
  ∧ (cmd_default.CloseFile ∉ (run None "existing.yaml").2)
  ∧ (run (Some (Foreign "input/output error")) "new.yaml").1 ≠ None
  ∧ last (run (Some (Foreign "input/output error")) "new.yaml").2
    = Some cmd_default.CloseFile
  ∧ (run None "new.yaml").1 = None
  ∧ (cmd_default.CloseFile ∉ (run None "/proc/new.yaml").2).
Proof.
  intros run.
  pose proof (writeDefaultConfig_file sampleOpen (inl "dns: {}")
                (λ _ : string, None) None "existing.yaml") as Hexists.
  pose proof (writeDefaultConfig_file sampleOpen (inl "dns: {}")
                (λ _ : string, None) (Some (Foreign "input/output error"))
                "new.yaml") as Hclose.
  pose proof (writeDefaultConfig_file sampleOpen (inl "dns: {}")
                (λ _ : string, None) None "new.yaml") as Hnew.
  pose proof (writeDefaultConfig_file sampleOpen (inl "dns: {}")
                (λ _ : string, None) None "/proc/new.yaml") as Hfails.
  cbv zeta in Hexists, Hclose, Hnew, Hfails.
  destruct Hexists as (Hexists & _ & Hnoclose & _).
  destruct Hclose as (_ & Hclose & _).
  destruct Hnew as (_ & Hnew & _).
  destruct Hfails as (_ & _ & Hfails & _).
  split; [exact (f_equal fst (Hexists _ eq_refl))|].
  split; [apply Hnoclose; discriminate|].
  destruct (Hclose eq_refl) as (Hlast & _ & Hiff).
  split; [intros Hnil; apply Hiff in Hnil as [Hc _]; discriminate Hc|].
  split; [exact Hlast|].
  destruct (Hnew eq_refl) as (_ & _ & Hiff').
  split; [apply Hiff'; split; [reflexivity|by eexists]|].
  apply Hfails. discriminate.
Defined.

(** The system log with the format [text] validates; a relative path with
    the empty format gives two errors, the one of the output first. *)
Lemma logConfig_Validate_spec_witness :
  let good := cmd_log.mklogConfig "syslog" "text" false false in
  let bad := cmd_log.mklogConfig "dns.log" "" false false in
  cmd_log.logConfig_Validate sampleIsAbs (Some good) = None
  ∧ ∃ es, cmd_log.logConfig_Validate sampleIsAbs (Some bad) = Some (Joined es)
          ∧ head es
            = Some (Errorf "output: %w: %q" [ArgString "dns.log"]
                      (Some ErrBadEnumValue))
          ∧ last es = Some (BadFormat "").
Proof.
  intros good bad.
  pose proof (logConfig_Validate_spec sampleIsAbs good) as Hgood.
  pose proof (logConfig_Validate_spec sampleIsAbs bad) as Hbad.
  cbv zeta in Hgood, Hbad.
  destruct Hgood as (_ & Hiff & _). destruct Hbad as (_ & _ & Herr & _).
  split.
  - apply Hiff. split; [left; apply list_elem_of_here|reflexivity].
  - destruct (Herr _ eq_refl) as (es & Heq & _ & Hhead & Hlast).
    exists es. split; [by rewrite <-Heq|]. split.
    + apply Hhead. intros [Hin|Habs]; [|discriminate Habs].
      repeat (apply elem_of_cons in Hin as [Hin|Hin]; [discriminate Hin|]).
      by apply elem_of_nil in Hin.
    + apply Hlast. reflexivity.
Defined.

(** A file that can be opened is the log file and the output of the
    logger; without a system log, the logger for [syslog] writes to the
    standard error, with an error and without a log file. *)
Lemma newLogger_spec_witness :
  let opened :=
    cmd_log.newLogger sampleSystem "/var/log/dns.log" "text" true 0 in
  let fallback := cmd_log.newLogger noSyslog "syslog" "text" true 0 in
  (∃ file, opened.1.2 = Some file
           ∧ file = slogutil.OpenedFile "/var/log/dns.log"
           ∧ opened.2 = None
           ∧ opened.1.1
             = Some (slogutil.ConfigLogger
                       (slogutil.mkConfig (Some file) "text" true 0)))
  ∧ fallback.2 ≠ None
  ∧ fallback.1.1
    = Some (slogutil.ConfigLogger
              (slogutil.mkConfig (Some slogutil.Stderr) "text" true 0))
  ∧ fallback.1.2 = None.
Proof.
  intros opened fallback.
  pose proof (newLogger_spec sampleSystem "/var/log/dns.log" "text" true 0)
    as Hopened.
  pose proof (newLogger_spec noSyslog "syslog" "text" true 0) as Hfallback.
  cbv zeta in Hopened, Hfallback.
  destruct Hopened as (_ & _ & _ & Hfile).
  destruct Hfallback as (_ & Herr & Hiff & _).
  assert (fallback.2 ≠ None) as Hne.
  { intros Hnil. apply Hiff in Hnil as [[_ Hs]|[Hs|[Hs|[Hs _]]]];
      first [discriminate Hs|by apply Hs]. }
  split.
  - exists (slogutil.OpenedFile "/var/log/dns.log"). split; [reflexivity|].
    destruct (Hfile _ eq_refl) as (_ & _ & He & Hl). by split.
  - split; [exact Hne|]. exact (Herr Hne).
Defined.

(** A configuration without a log section makes [newConfigLogger] panic;
    with the output set in the environment, the open log file of the
    environment is used again; with the output unset and the standard error
    configured, the system logger of the environment is closed. *)
Lemma newConfigLogger_spec_witness :
  let opts := cmd_log.mkoptions false in
  let envs := cmd_log.mklogEnvs "" "" false false false false in
  let envsFile :=
    cmd_log.mklogEnvs "/var/log/dns.log" "" false false false false in
  let file := slogutil.OpenedFile "/var/log/dns.log" in
  let fileLogger :=
    slogutil.ConfigLogger (slogutil.mkConfig (Some file) "default" false 0) in
  let c := cmd_log.mklogConfig "stderr" "text" true true in
  let conf := Some (cmd_log.mkconfiguration (Some c)) in
  (∃ e, cmd_log.newConfigLogger sampleSystem sampleCloser
          (slogutil.SystemLogger 0) None opts envs
          (Some (cmd_log.mkconfiguration None)) = Panicked e)
  ∧ (∃ cfg, cmd_log.newConfigLogger sampleSystem sampleCloser fileLogger
              (Some file) opts envsFile conf
            = Returned (Some (slogutil.ConfigLogger cfg), Some file, [], false)
            ∧ slogutil.Output cfg = Some file
            ∧ slogutil.Level cfg = slogutil.LevelDebug)
  ∧ (∃ l, cmd_log.newConfigLogger sampleSystem sampleCloser
            (slogutil.SystemLogger 0) None opts envs conf
          = Returned (Some l, None, [], true)
          ∧ (cmd_log.closeEnv sampleCloser (slogutil.SystemLogger 0) opts
               envs c).1.1 = false).
Proof.
  intros opts envs envsFile file fileLogger c conf.
  pose proof (newConfigLogger_spec sampleSystem sampleCloser
                (slogutil.SystemLogger 0) None opts envs
                (Some (cmd_log.mkconfiguration None))) as Hpanic.
  pose proof (newConfigLogger_spec sampleSystem sampleCloser fileLogger
                (Some file) opts envsFile conf) as Hfile.
  pose proof (newConfigLogger_spec sampleSystem sampleCloser
                (slogutil.SystemLogger 0) None opts envs conf) as Hclosed.
  cbv zeta in Hpanic, Hfile, Hclosed.
  destruct Hpanic as (Hpanic & _).
  destruct Hfile as (_ & _ & _ & Hfile).
  destruct Hclosed as (_ & _ & Hclosed & _).
  split; [apply Hpanic; by eexists|]. split.
  - destruct (Hfile _ c file eq_refl eq_refl) as (cfg & Hrun & Hout & Hlv);
      [discriminate|reflexivity|].
    exists cfg. split; [exact Hrun|]. split; [exact Hout|].
    etrans; [exact Hlv|reflexivity].
  - eexists. split; [reflexivity|].
    destruct (Hclosed _ _ _ _ eq_refl) as (_ & _ & Hc & _).
    destruct (Hc eq_refl) as (_ & cf' & c' & Hcf & Hlog & Hprev).
    injection Hcf as <-. injection Hlog as <-. exact Hprev.
Defined.

(** The output is not set in the environment, the option for verbose
    logging is not given, the environment sets the verbosity to false, and
    the configuration asks for the system log with verbose logging: the
    system logger of the environment, of level [LevelInfo], is returned,
    while [overridenLogConf] gives [LevelDebug]. *)
Lemma newConfigLogger_level_witness :
  let opts := cmd_log.mkoptions false in
  let envs := cmd_log.mklogEnvs "" "" false false false true in
  let c := cmd_log.mklogConfig "syslog" "text" false true in
  let cf := cmd_log.mkconfiguration (Some c) in
  let envLogger := slogutil.SystemLogger slogutil.LevelInfo in
  (cmd_log.newEnvLogger sampleSystem opts envs).1 = (Some envLogger, None)
  ∧ cmd_log.newConfigLogger sampleSystem sampleCloser envLogger None opts envs
      (Some cf)
    = Returned (Some envLogger, None, [], false)
  ∧ slogutil.levelOf envLogger ≠ (cmd_log.overridenLogConf opts envs c).2
  ∧ slogutil.levelOf envLogger = slogutil.LevelInfo
  ∧ (cmd_log.overridenLogConf opts envs c).2 = slogutil.LevelDebug.
Proof.
  intros opts envs c cf envLogger.
  pose proof (newConfigLogger_level sampleSystem sampleSystem sampleCloser
                envLogger None opts envs cf c envLogger None [] false
                eq_refl eq_refl eq_refl) as H.
  cbv zeta in H. destruct H as [Hiff Hmismatch].
  assert (cmd_log.output envs = ""
          ∧ cmd_log.Output c = cmd_log.outputSyslog
          ∧ cmd_log.opt_verbose opts = false
          ∧ cmd_log.verboseSet envs = true
          ∧ cmd_log.verbose envs = false
          ∧ cmd_log.Verbose c = true) as Hm.
  { repeat split; reflexivity. }
  split; [reflexivity|]. split; [reflexivity|].
  split; [apply Hiff; exact Hm|].
  destruct (Hmismatch Hm) as (_ & _ & Hinfo & Hdebug).
  split; [exact Hinfo|exact Hdebug].
Defined.
